(** * Upload coordinator: bandwidth gatekeeper, transfer wrapper and
      bounded-concurrency driver

    A shallow embedding of [src/coordinator.ts] (both the queue-based variant
    and the generator-based variant) and the proofs of its specification.
    The initiate limiter of the queue-based variant and the decisions of the
    demo around the coordinator ([utils/realModeRunner.ts],
    [utils/visualizationHelpers.ts], [App.tsx]) are embedded as well.

    Conventions of the embedding.
    - A [FileId] is a [string]; a file size is an integer number of bytes
      ([Z]); the numeric corner cases of JavaScript numbers (NaN, infinities,
      fractions) are outside the model.
    - [activeUploads] is a JavaScript [Map<FileId, number>]: a [gmap string Z].
      The code only asks for its size, inserts, deletes and scans its values
      for a large one, so the iteration order of the map is not observable
      (lemma [capacity_any_order]).
    - [queue] is a JavaScript array used as a FIFO: a [list QueueItem];
      [push] appends at the tail and [shift] removes the head.
    - The [resolve] callback of a queue entry resumes the suspended caller of
      [acquireUploadSlot]; the functions below return the list of entries
      whose [resolve] they called, in call order. *)

From Stdlib Require Import ZArith Lia.
From stdpp Require Import gmap strings list fin_maps.

(** ** Settled promises *)

Module Promise.

(** The eventual state of a promise: fulfilled with a value or rejected
    with a reason. *)
Inductive Settled (T R : Type) : Type :=
| Fulfilled (value : T)
| Rejected (reason : R).
Arguments Fulfilled {T R} value.
Arguments Rejected {T R} reason.

End Promise.

(** ** Bandwidth slot management *)

Module Gatekeeper.

Definition SMALL_FILE_THRESHOLD : Z := 65 * 1024 * 1024.
Definition MAX_CONCURRENT_SMALL : nat := 5.
Definition MAX_CONCURRENT_LARGE : nat := 3.

(** The two size classes of the header comment of the module. *)
Definition small (sz : Z) : Prop := (sz ≤ SMALL_FILE_THRESHOLD)%Z.
Definition large (sz : Z) : Prop := (SMALL_FILE_THRESHOLD < sz)%Z.

#[global] Instance small_dec sz : Decision (small sz).
Proof. unfold small. apply _. Defined.
#[global] Instance large_dec sz : Decision (large sz).
Proof. unfold large. apply _. Defined.

Record QueueItem : Type := mkQueueItem {
  fileId : string;
  fileSize : Z
}.

#[global] Instance QueueItem_eq_dec : EqDecision QueueItem.
Proof. solve_decision. Defined.

(** The module-level state: [activeUploads] and [queue]. *)
Record State : Type := mkState {
  activeUploads : gmap string Z;
  queue : list QueueItem
}.

Definition initial : State := mkState ∅ [].

(** The loop of [getMaxConcurrentSlots] over [activeUploads.values()]:
    the first value above the threshold returns [MAX_CONCURRENT_LARGE]. *)
Fixpoint scanSizes (sizes : list Z) : nat :=
  match sizes with
  | [] => MAX_CONCURRENT_SMALL
  | sz :: rest =>
      if (SMALL_FILE_THRESHOLD <? sz)%Z then MAX_CONCURRENT_LARGE
      else scanSizes rest
  end.

Definition getMaxConcurrentSlots (active : gmap string Z) : nat :=
  scanSizes (map_to_list active).*2.

(** The [while] loop of [processQueue]; [maxSlots] is the value computed
    once before the loop.  Returns the new active map, the remaining queue
    and the entries whose [resolve] was called. *)
Fixpoint processQueueLoop (maxSlots : nat) (active : gmap string Z)
    (q : list QueueItem) : gmap string Z * list QueueItem * list QueueItem :=
  match q with
  | [] => (active, [], [])
  | next :: rest =>
      if size active <? maxSlots then
        let '(active', q', resumed) :=
          processQueueLoop maxSlots (<[fileId next := fileSize next]> active) rest in
        (active', q', next :: resumed)
      else (active, q, [])
  end.

Definition processQueue (st : State) : State * list QueueItem :=
  match queue st with
  | [] => (st, [])
  | _ :: _ =>
      let maxSlots := getMaxConcurrentSlots (activeUploads st) in
      let '(active', q', resumed) :=
        processQueueLoop maxSlots (activeUploads st) (queue st) in
      (mkState active' q', resumed)
  end.

(** [acquireUploadSlot]: the boolean tells whether the returned promise is
    already resolved ([true]) or the caller was queued ([false]). *)
Definition acquireUploadSlot (id : string) (sz : Z) (st : State) : State * bool :=
  let maxSlots := getMaxConcurrentSlots (activeUploads st) in
  if size (activeUploads st) <? maxSlots then
    (mkState (<[id := sz]> (activeUploads st)) (queue st), true)
  else
    (mkState (activeUploads st) (queue st ++ [mkQueueItem id sz]), false).

Definition releaseUploadSlot (id : string) (st : State) : State * list QueueItem :=
  processQueue (mkState (delete id (activeUploads st)) (queue st)).

Definition resetCoordinator (st : State) : State := mkState ∅ [].

(** The exported operations on the gatekeeper. *)
Inductive Op : Type :=
| Acquire (id : string) (sz : Z)
| Release (id : string)
| ResetCoordinator.

#[global] Instance Op_eq_dec : EqDecision Op.
Proof. solve_decision. Defined.

(** One operation: the new state and the queue entries it admitted. *)
Definition exec (op : Op) (st : State) : State * list QueueItem :=
  match op with
  | Acquire id sz => ((acquireUploadSlot id sz st).1, [])
  | Release id => releaseUploadSlot id st
  | ResetCoordinator => (resetCoordinator st, [])
  end.

(** The entry an operation appends to the wait queue, if any. *)
Definition appended (op : Op) (st : State) : list QueueItem :=
  match op with
  | Acquire id sz =>
      if (acquireUploadSlot id sz st).2 then [] else [mkQueueItem id sz]
  | Release _ | ResetCoordinator => []
  end.

(** A run of operations: final state, everything admitted from the queue
    (in admission order) and everything appended to it (in append order). *)
Fixpoint run (ops : list Op) (st : State)
    : State * list QueueItem * list QueueItem :=
  match ops with
  | [] => (st, [], [])
  | op :: ops' =>
      let '(st1, adm1) := exec op st in
      let app1 := appended op st in
      let '(st2, adm2, app2) := run ops' st1 in
      (st2, adm1 ++ adm2, app1 ++ app2)
  end.

(** States reachable from the initial one by acquire, release and reset. *)
Inductive reachable : State → Prop :=
| reach_initial : reachable initial
| reach_exec op st : reachable st → reachable (exec op st).1.

(** Ids are unique within a batch: a state is [tidy] when the waiting ids
    are pairwise distinct and none of them is active, and when somebody
    waits only if the active count has reached the capacity.  An operation
    is [fresh] when it does not acquire an id that is active or waiting. *)
Definition tidy (st : State) : Prop :=
  NoDup (fileId <$> queue st)
  ∧ (∀ id, id ∈ fileId <$> queue st → activeUploads st !! id = None)
  ∧ (queue st = []
     ∨ getMaxConcurrentSlots (activeUploads st) ≤ size (activeUploads st)).

Definition fresh (op : Op) (st : State) : Prop :=
  match op with
  | Acquire id _ => activeUploads st !! id = None ∧ id ∉ fileId <$> queue st
  | Release _ | ResetCoordinator => True
  end.

(** Every operation of a run is fresh in the state it is applied to. *)
Fixpoint all_fresh (ops : list Op) (st : State) : Prop :=
  match ops with
  | [] => True
  | op :: ops' => fresh op st ∧ all_fresh ops' (exec op st).1
  end.

#[global] Instance fresh_dec op st : Decision (fresh op st).
Proof. destruct op; simpl; apply _. Defined.

#[global] Instance all_fresh_dec ops : ∀ st, Decision (all_fresh ops st).
Proof. induction ops as [|op ops IH]; simpl; intros st; apply _. Defined.

(** The drain of the specification (section 4.3), written from its words:
    while the queue is non-empty, recompute the capacity from the current
    active set; admit the head if the active count is below it, otherwise
    stop.  It is only compared with [processQueue]. *)
Fixpoint spec_drain_loop (active : gmap string Z) (q : list QueueItem)
    : gmap string Z * list QueueItem * list QueueItem :=
  match q with
  | [] => (active, [], [])
  | next :: rest =>
      if size active <? getMaxConcurrentSlots active then
        let '(active', q', resumed) :=
          spec_drain_loop (<[fileId next := fileSize next]> active) rest in
        (active', q', next :: resumed)
      else (active, q, [])
  end.

Definition spec_drain (st : State) : State * list QueueItem :=
  let '(active', q', resumed) := spec_drain_loop (activeUploads st) (queue st) in
  (mkState active' q', resumed).

Definition MB : Z := 1024 * 1024.

(** Sample states and runs used by the examples below. *)
Definition large_release_ops : list Op :=
  [Acquire "L1" (100 * MB); Acquire "S1" (30 * MB); Acquire "S2" (30 * MB);
   Acquire "L2" (100 * MB); Acquire "S6" (30 * MB); Acquire "S7" (30 * MB)].

Definition before_large_release : State := (run large_release_ops initial).1.1.

Definition four_small : gmap string Z :=
  <["S4" := (30 * MB)%Z]> (<["S3" := (30 * MB)%Z]> (<["S2" := (30 * MB)%Z]>
    (<["S1" := (30 * MB)%Z]> ∅))).

Definition five_small_one_waiting : State :=
  mkState (<["S5" := (30 * MB)%Z]> four_small) [mkQueueItem "L1" (100 * MB)].

Definition four_small_one_large : gmap string Z :=
  <["L1" := (100 * MB)%Z]> four_small.

(** The scenario of the documentation: five small uploads, then a large one. *)
Definition scenario_ops : list Op :=
  [Acquire "S1" (30 * MB); Acquire "S2" (30 * MB); Acquire "S3" (30 * MB);
   Acquire "S4" (30 * MB); Acquire "S5" (30 * MB); Acquire "L1" (100 * MB)].

End Gatekeeper.

(** ** The queue-based variant of the module

    The first variant of [coordinator.ts] keeps, next to the upload state, the
    set of files being initiated and the queue of files waiting to be
    initiated.  Its slot functions are textually those of [Gatekeeper]; only
    its [resetCoordinator] differs, since it clears four structures. *)

Module Legacy.

Record State : Type := mkState {
  activeInitiates : gset string;
  initiateQueue : list string;   (* the [fileId]s of the waiting entries *)
  uploads : Gatekeeper.State
}.

Definition resetCoordinator (st : State) : State :=
  mkState ∅ [] (Gatekeeper.mkState ∅ []).

Definition acquireUploadSlot (id : string) (sz : Z) (st : State) : State * bool :=
  let '(g, ready) := Gatekeeper.acquireUploadSlot id sz (uploads st) in
  (mkState (activeInitiates st) (initiateQueue st) g, ready).

End Legacy.

(** ** The transfer wrapper [processFileUpload]

    An asynchronous function is run to its settlement over a [World]: the
    gatekeeper state together with the log of the gatekeeper calls the
    wrapper itself made.  At an [await] other tasks may run; what they do to
    the gatekeeper is a parameter of the model.  The code has no
    cancellation: the wrapper is left only when the upload has settled, by
    [return] or by a thrown error. *)

Module Wrapper.
Import Promise.

Record World : Type := mkWorld {
  gate : Gatekeeper.State;
  calls : list Gatekeeper.Op
}.

Section Async.
Context {R : Type}.

Definition Async (A : Type) : Type := World → Settled A R * World.

Definition ret {A} (a : A) : Async A := λ w, (Fulfilled a, w).

(** Sequencing: a rejection (a thrown error) skips the continuation. *)
Definition bind {A B} (m : Async A) (k : A → Async B) : Async B :=
  λ w, match m w with
       | (Fulfilled a, w') => k a w'
       | (Rejected r, w') => (Rejected r, w')
       end.

(** [try { body } finally { fin }] where [fin] completes normally: [fin]
    runs whatever the completion of [body] is, and that completion is
    the completion of the whole statement. *)
Definition tryFinally {A} (body : Async A) (fin : World → World) : Async A :=
  λ w, let '(completion, w') := body w in (completion, fin w').

(** The synchronous call [acquireUploadSlot(fileId, fileSize)]. *)
Definition callAcquire (id : string) (sz : Z) : Async bool :=
  λ w, let '(g, ready) := Gatekeeper.acquireUploadSlot id sz (gate w) in
       (Fulfilled ready, mkWorld g (calls w ++ [Gatekeeper.Acquire id sz])).

(** The synchronous call [releaseUploadSlot(fileId)]. *)
Definition callRelease (id : string) : World → World :=
  λ w, mkWorld (Gatekeeper.releaseUploadSlot id (gate w)).1
               (calls w ++ [Gatekeeper.Release id]).

(** Suspension at an [await]: the other tasks transform the gatekeeper
    until this task is resumed. *)
Definition suspend (others : Gatekeeper.State → Gatekeeper.State) : Async unit :=
  λ w, (Fulfilled tt, mkWorld (others (gate w)) (calls w)).

(** An external operation: its settlement and what went on in the
    gatekeeper while it was in flight. *)
Definition external {A}
    (op : Gatekeeper.State → Settled A R * Gatekeeper.State) : Async A :=
  λ w, let '(o, g) := op (gate w) in (o, mkWorld g (calls w)).

Definition processFileUpload {A} (fileId : string) (fileSize : Z)
    (whileWaiting : Gatekeeper.State → Gatekeeper.State)
    (uploadFn : string → Gatekeeper.State → Settled A R * Gatekeeper.State)
    : Async A :=
  tryFinally
    (bind (callAcquire fileId fileSize) (λ _,
     bind (suspend whileWaiting) (λ _,
     bind (external (uploadFn fileId)) (λ result,
     ret result))))
    (callRelease fileId).

End Async.

(** Sample uploads for the examples. *)
Definition upload_ok (n : nat) (_ : string) (g : Gatekeeper.State)
    : Settled nat string * Gatekeeper.State := (Fulfilled n, g).
Definition upload_fails (_ : string) (g : Gatekeeper.State)
    : Settled nat string * Gatekeeper.State := (Rejected "network down", g).

End Wrapper.

(** ** A batch of transfer wrappers sharing the gatekeeper

    The wrappers of a batch run interleaved.  Between two [await]s a wrapper
    runs alone, so each wrapper contributes two atomic sections: its start,
    up to the [await] of [acquireUploadSlot], and its end, from the
    settlement of the upload through the [finally] block.  A wrapper is
    identified by its file id; ids are unique within a batch. *)

Module Batch.

Inductive Phase : Type :=
| Waiting     (* suspended in [await acquireUploadSlot(..)], in the queue *)
| Holding     (* past the gatekeeper: uploading *)
| Finished.   (* the [finally] block has run *)

#[global] Instance Phase_eq_dec : EqDecision Phase.
Proof. solve_decision. Defined.

Record System : Type := mkSystem {
  gate : Gatekeeper.State;
  phases : gmap string Phase
}.

Definition initial : System := mkSystem Gatekeeper.initial ∅.

Inductive Event : Type :=
| Start (id : string) (sz : Z)     (* [processFileUpload(id, sz, uploadFn)] is called *)
| UploadSettles (id : string).     (* [uploadFn(id)] fulfils or rejects *)

(** The callers that [processQueue] resumed are past the gatekeeper. *)
Definition promote (resumed : list Gatekeeper.QueueItem)
    (ph : gmap string Phase) : gmap string Phase :=
  foldr (λ item acc, <[Gatekeeper.fileId item := Holding]> acc) ph resumed.

Definition step (e : Event) (s : System) : option System :=
  match e with
  | Start id sz =>
      match phases s !! id with
      | None =>
          let '(g, ready) := Gatekeeper.acquireUploadSlot id sz (gate s) in
          Some (mkSystem g (<[id := if ready then Holding else Waiting]> (phases s)))
      | Some _ => None
      end
  | UploadSettles id =>
      match phases s !! id with
      | Some Holding =>
          let '(g, resumed) := Gatekeeper.releaseUploadSlot id (gate s) in
          Some (mkSystem g (promote resumed (<[id := Finished]> (phases s))))
      | _ => None
      end
  end.

Fixpoint steps (es : list Event) (s : System) : option System :=
  match es with
  | [] => Some s
  | e :: es' =>
      match step e s with
      | Some s' => steps es' s'
      | None => None
      end
  end.

(** The active uploads are the wrappers past the gatekeeper, the queue
    holds the suspended ones, and the gatekeeper is tidy. *)
Definition consistent (s : System) : Prop :=
  Gatekeeper.tidy (gate s)
  ∧ (∀ id, is_Some (Gatekeeper.activeUploads (gate s) !! id)
           ↔ phases s !! id = Some Holding)
  ∧ (∀ id, id ∈ Gatekeeper.fileId <$> Gatekeeper.queue (gate s)
           ↔ phases s !! id = Some Waiting).

(** A sample batch: six files through the gatekeeper, the large one first. *)
Definition sample_batch : list Event :=
  [Start "L1" (100 * Gatekeeper.MB); Start "S1" (30 * Gatekeeper.MB);
   Start "S2" (30 * Gatekeeper.MB); Start "L2" (100 * Gatekeeper.MB);
   Start "S6" (30 * Gatekeeper.MB); Start "S7" (30 * Gatekeeper.MB);
   UploadSettles "S1"; UploadSettles "L1"; UploadSettles "S2";
   UploadSettles "L2"; UploadSettles "S6"; UploadSettles "S7"].

End Batch.


(** ** The bounded-concurrency driver [processConcurrently]

    The driver is an asynchronous function: it runs synchronously from one
    [await] to the next, and the callbacks of the promises it drives run
    while it is suspended.  It is embedded as a transition system.  The
    driver takes the steps [Pull] (one iteration of the [for ... of] loop, up
    to its [await], or the end of the loop) and [Return]; the environment
    takes the steps [Settle] (a yielded promise settles and the [then] or
    [catch] callback of its worker runs) and [Finish] (the [finally] callback
    of the worker runs and the worker promise settles, which wakes a driver
    waiting in [Promise.race]).

    A promise handed out by the generator is represented by its eventual
    settlement; the generator is the list of the promises it has yet to
    yield, and yielding one is what starts the operation.  A producer that
    throws while it is advanced is outside the model.  The concurrency limit
    is an integer. *)

Module Driver.
Import Promise.

Section Model.
Context {T R : Type}.

(** [PromiseSettledResult<T>]; the value [None] is [undefined]. *)
Inductive SettledResult : Type :=
| ResFulfilled (value : option T)
| ResRejected (reason : R).

Definition placeholder : SettledResult := ResFulfilled None.

(** A member of [executing]: the worker promise
    [promise.then(..).catch(..).finally(..)].  It is [Running] until the
    underlying promise settles; once the [then]/[catch] stage has run it
    is [Finishing] with the settlement [w] that stage produced, until
    its [finally] callback runs. *)
Inductive Worker : Type :=
| Running (p : Settled T R)
| Finishing (w : Settled unit R).

Inductive Pc : Type :=
| Looping      (* in the [for ... of] loop, about to ask the generator *)
| AwaitRace    (* suspended in [await Promise.race(executing)] *)
| AwaitAll     (* suspended in [await Promise.all(executing)] *)
| Returned     (* [return results] *)
| Threw (r : R).

Record State : Type := mkState {
  results : list SettledResult;
  executing : gmap nat Worker;       (* keyed by the worker's [index] *)
  generator : list (Settled T R);    (* promises not yet yielded *)
  started : list (Settled T R);      (* history: promises yielded so far *)
  pc : Pc
}.

Definition initial (gen : list (Settled T R)) : State :=
  mkState [] ∅ gen [] Looping.

Definition set_results (f : list SettledResult → list SettledResult)
    (st : State) : State :=
  mkState (f (results st)) (executing st) (generator st) (started st) (pc st).

Definition set_executing (f : gmap nat Worker → gmap nat Worker)
    (st : State) : State :=
  mkState (results st) (f (executing st)) (generator st) (started st) (pc st).

Definition set_pc (p : Pc) (st : State) : State :=
  mkState (results st) (executing st) (generator st) (started st) p.

(** *** Promise reactions, as state transformers *)

Definition promise_then {A B} (onFulfilled : A → State → B * State)
    (p : Settled A R) (st : State) : Settled B R * State :=
  match p with
  | Fulfilled v => let '(b, st') := onFulfilled v st in (Fulfilled b, st')
  | Rejected r => (Rejected r, st)
  end.

Definition promise_catch {A} (onRejected : R → State → A * State)
    (p : Settled A R) (st : State) : Settled A R * State :=
  match p with
  | Fulfilled v => (Fulfilled v, st)
  | Rejected r => let '(a, st') := onRejected r st in (Fulfilled a, st')
  end.

Definition promise_finally {A} (onFinally : State → State)
    (p : Settled A R) (st : State) : Settled A R * State :=
  (p, onFinally st).

(** The three callbacks of a worker.  An assignment [results[index] = ..]
    beyond the end of a JavaScript array would extend it; the index of a
    worker is always within [results] (field [inv_keys] of the invariant),
    where the assignment is the list update. *)
Definition onValue (index : nat) (value : T) (st : State) : unit * State :=
  (tt, set_results (λ rs, <[index := ResFulfilled (Some value)]> rs) st).

Definition onReason (index : nat) (reason : R) (st : State) : unit * State :=
  (tt, set_results (λ rs, <[index := ResRejected reason]> rs) st).

Definition onDone (index : nat) (st : State) : State :=
  set_executing (delete index) st.

(** What a suspended driver does when a worker settles with [w]. *)
Definition wake (w : Settled unit R) (p : Pc) : Pc :=
  match p, w with
  | AwaitRace, Fulfilled _ => Looping
  | AwaitRace, Rejected r => Threw r
  | AwaitAll, Rejected r => Threw r
  | _, _ => p
  end.

Inductive Event : Type :=
| Pull
| Settle (index : nat)
| Finish (index : nat)
| Return.

Definition step (concurrency : Z) (e : Event) (st : State) : option State :=
  match e with
  | Pull =>
      match pc st with
      | Looping =>
          match generator st with
          | [] => Some (set_pc AwaitAll st)
          | promise :: rest =>
              let index := length (results st) in
              let executing' := <[index := Running promise]> (executing st) in
              Some (mkState (results st ++ [placeholder]) executing' rest
                      (started st ++ [promise])
                      (if (concurrency <=? Z.of_nat (size executing'))%Z
                       then AwaitRace else Looping))
          end
      | _ => None
      end
  | Settle index =>
      match executing st !! index with
      | Some (Running promise) =>
          let '(w1, st1) := promise_then (onValue index) promise st in
          let '(w2, st2) := promise_catch (onReason index) w1 st1 in
          Some (set_executing (λ ex, <[index := Finishing w2]> ex) st2)
      | _ => None
      end
  | Finish index =>
      match executing st !! index with
      | Some (Finishing w) =>
          let '(w', st') := promise_finally (onDone index) w st in
          Some (set_pc (wake w' (pc st')) st')
      | _ => None
      end
  | Return =>
      match pc st with
      | AwaitAll =>
          if decide (executing st = ∅) then Some (set_pc Returned st) else None
      | _ => None
      end
  end.

(** A sequence of steps; [None] when one of them is not enabled. *)
Fixpoint steps (concurrency : Z) (es : list Event) (st : State) : option State :=
  match es with
  | [] => Some st
  | e :: es' =>
      match step concurrency e st with
      | Some st' => steps concurrency es' st'
      | None => None
      end
  end.

(** The entry the driver stores for a settled promise. *)
Definition outcome (p : Settled T R) : SettledResult :=
  match p with
  | Fulfilled v => ResFulfilled (Some v)
  | Rejected r => ResRejected r
  end.

Definition is_running (w : Worker) : bool :=
  match w with Running _ => true | Finishing _ => false end.

(** The number of operations started and not yet settled. *)
Definition outstanding (st : State) : nat :=
  size (filter (λ kv, is_running kv.2 = true) (executing st)).

(** The driver on the promises of [generator] with the limit
    [concurrency], along the interleaving [schedule] of its own steps with
    the settlements. *)
Definition processConcurrently (generator : list (Settled T R))
    (concurrency : Z) (schedule : list Event) : option State :=
  steps concurrency schedule (initial generator).

(** The transitions as a relation; [step] computes exactly these
    (lemma [step_Step]). *)
Inductive Step (concurrency : Z) : State → Event → State → Prop :=
| Step_exhausted rs ex sd :
    Step concurrency (mkState rs ex [] sd Looping) Pull
         (mkState rs ex [] sd AwaitAll)
| Step_pull rs ex promise rest sd :
    Step concurrency (mkState rs ex (promise :: rest) sd Looping) Pull
         (mkState (rs ++ [placeholder])
            (<[length rs := Running promise]> ex) rest (sd ++ [promise])
            (if (concurrency
                 <=? Z.of_nat (size (<[length rs := Running promise]> ex)))%Z
             then AwaitRace else Looping))
| Step_settle rs ex g sd p index promise :
    ex !! index = Some (Running promise) →
    Step concurrency (mkState rs ex g sd p) (Settle index)
         (mkState (<[index := outcome promise]> rs)
            (<[index := Finishing (Fulfilled tt)]> ex) g sd p)
| Step_finish rs ex g sd p index w :
    ex !! index = Some (Finishing w) →
    Step concurrency (mkState rs ex g sd p) (Finish index)
         (mkState rs (delete index ex) g sd (wake w p))
| Step_return rs sd g :
    Step concurrency (mkState rs ∅ g sd AwaitAll) Return
         (mkState rs ∅ g sd Returned).

(** *** The invariant of the transition system *)

(** What the driver knows about the promise [p] yielded at [index]. *)
Definition slot_ok (st : State) (index : nat) (p : Settled T R) : Prop :=
  match executing st !! index with
  | Some (Running q) => q = p ∧ results st !! index = Some placeholder
  | Some (Finishing w) =>
      w = Fulfilled tt ∧ results st !! index = Some (outcome p)
  | None => results st !! index = Some (outcome p)
  end.

Definition pc_ok (concurrency : Z) (st : State) : Prop :=
  match pc st with
  | Looping => (Z.of_nat (size (executing st)) < Z.max concurrency 1)%Z
  | AwaitRace => executing st ≠ ∅
  | AwaitAll => generator st = []
  | Returned => generator st = [] ∧ executing st = ∅
  | Threw _ => False
  end.

Record Inv (concurrency : Z) (gen : list (Settled T R)) (st : State) : Prop := {
  inv_gen : started st ++ generator st = gen;
  inv_len : length (results st) = length (started st);
  inv_keys : ∀ i w, executing st !! i = Some w → i < length (results st);
  inv_slot : ∀ i p, started st !! i = Some p → slot_ok st i p;
  inv_pc : pc_ok concurrency st;
  inv_size : (Z.of_nat (size (executing st)) ≤ Z.max concurrency 1)%Z
}.

(** *** A measure that every step decreases by one *)

Definition worker_weight (w : Worker) : nat :=
  if is_running w then 2 else 1.

Definition load (ex : gmap nat Worker) : nat :=
  map_fold (λ _ w n, worker_weight w + n) 0 ex.

Definition pc_weight (p : Pc) : nat :=
  match p with
  | Looping | AwaitRace => 2
  | AwaitAll => 1
  | Returned | Threw _ => 0
  end.

Definition measure (st : State) : nat :=
  3 * length (generator st) + load (executing st) + pc_weight (pc st).

(** Two states that differ only in the outcomes of the promises: same
    control point, same number of results, same workers in the same
    phase, same number of promises left. *)
Definition same_shape (st1 st2 : State) : Prop :=
  pc st1 = pc st2
  ∧ length (results st1) = length (results st2)
  ∧ is_running <$> executing st1 = is_running <$> executing st2
  ∧ length (generator st1) = length (generator st2)
  ∧ length (started st1) = length (started st2).

(** [initiateFilesGenerator]: one promise per file id, created when it is
    yielded. *)
Definition initiateFilesGenerator (fileIds : list string)
    (initiateFn : string → Settled T R) : list (Settled T R) :=
  initiateFn <$> fileIds.

Definition MAX_CONCURRENT_INITIATES : Z := 10.

End Model.

Arguments SettledResult : clear implicits.
Arguments Worker : clear implicits.
Arguments Pc : clear implicits.
Arguments State : clear implicits.

(** Sample runs for the examples. *)
Definition three_ops : list (Settled nat string) :=
  [Fulfilled 10; Rejected "boom"; Fulfilled 30].

Definition out_of_order : list Event :=
  [Pull; Pull; Settle 1; Finish 1; Pull; Settle 2; Settle 0; Finish 2;
   Pull; Finish 0; Return].

Definition out_of_order_final : State nat string :=
  mkState [ResFulfilled (Some 10); ResRejected "boom"; ResFulfilled (Some 30)]
          ∅ [] three_ops Returned.

Definition all_succeed : list (Settled nat string) :=
  [Fulfilled 1; Fulfilled 2; Fulfilled 3].

End Driver.

(** ** The upload phase and [coordinateUploads]

    In the upload phase the driver pulls [processFileUpload] promises from
    [processUploadsGenerator]; each wrapper goes through the gatekeeper.  The
    phase is the driver's transition system run in step with the batch of
    wrappers: yielding the promise of a file starts its wrapper, which calls
    [acquireUploadSlot] at once; the promise settles when the upload of a
    wrapper that holds a slot settles, its [finally] block releasing the slot
    on the way.  A file descriptor [{fileId, fileSize}] has the shape of a
    queue entry, whose type it shares here. *)

Module Pipeline.
Import Promise.

Definition MAX_CONCURRENT_UPLOAD_TRIGGERS : Z := 10.

Section Phase.
Context {T R : Type}.

(** [processUploadsGenerator]: one wrapper promise per file, created when it
    is yielded; a wrapper settles as its upload does. *)
Definition processUploadsGenerator (files : list Gatekeeper.QueueItem)
    (uploadFn : string → Settled T R) : list (Settled T R) :=
  (λ file, uploadFn (Gatekeeper.fileId file)) <$> files.

Record State : Type := mkState {
  driver : Driver.State T R;
  batch : Batch.System
}.

Definition initial (files : list Gatekeeper.QueueItem)
    (uploadFn : string → Settled T R) : State :=
  mkState (Driver.initial (processUploadsGenerator files uploadFn)) Batch.initial.

Definition step (files : list Gatekeeper.QueueItem) (concurrency : Z)
    (e : Driver.Event) (s : State) : option State :=
  match Driver.step concurrency e (driver s) with
  | None => None
  | Some d' =>
      match e with
      | Driver.Pull =>
          match Driver.generator (driver s) with
          | [] => Some (mkState d' (batch s))
          | _ :: _ =>
              match files !! length (Driver.results (driver s)) with
              | Some file =>
                  match Batch.step (Batch.Start (Gatekeeper.fileId file)
                                      (Gatekeeper.fileSize file)) (batch s) with
                  | Some b' => Some (mkState d' b')
                  | None => None
                  end
              | None => None
              end
          end
      | Driver.Settle index =>
          match files !! index with
          | Some file =>
              match Batch.step (Batch.UploadSettles (Gatekeeper.fileId file))
                      (batch s) with
              | Some b' => Some (mkState d' b')
              | None => None
              end
          | None => None
          end
      | Driver.Finish _ | Driver.Return => Some (mkState d' (batch s))
      end
  end.

Fixpoint steps (files : list Gatekeeper.QueueItem) (concurrency : Z)
    (es : list Driver.Event) (s : State) : option State :=
  match es with
  | [] => Some s
  | e :: es' =>
      match step files concurrency e s with
      | Some s' => steps files concurrency es' s'
      | None => None
      end
  end.

(** *** The invariant that ties the driver to the wrappers *)

(** The wrapper of the file at [index] is in flight exactly while its worker
    is [Running]; before the file is pulled the wrapper does not exist. *)
Definition linked (files : list Gatekeeper.QueueItem) (s : State) : Prop :=
  ∀ index file, files !! index = Some file →
    match Driver.executing (driver s) !! index with
    | Some (Driver.Running _) =>
        Batch.phases (batch s) !! Gatekeeper.fileId file = Some Batch.Waiting
        ∨ Batch.phases (batch s) !! Gatekeeper.fileId file = Some Batch.Holding
    | Some (Driver.Finishing _) =>
        Batch.phases (batch s) !! Gatekeeper.fileId file = Some Batch.Finished
    | None =>
        Batch.phases (batch s) !! Gatekeeper.fileId file
        = if bool_decide (index < length (Driver.results (driver s)))
          then Some Batch.Finished else None
    end.

Definition known (files : list Gatekeeper.QueueItem) (s : State) : Prop :=
  ∀ id, is_Some (Batch.phases (batch s) !! id) →
        id ∈ Gatekeeper.fileId <$> files.

Record Inv (files : list Gatekeeper.QueueItem) (uploadFn : string → Settled T R)
    (concurrency : Z) (s : State) : Prop := {
  inv_driver : Driver.Inv concurrency (processUploadsGenerator files uploadFn)
                 (driver s);
  inv_batch : Batch.consistent (batch s);
  inv_linked : linked files s;
  inv_known : known files s;
  inv_active : size (Gatekeeper.activeUploads (Batch.gate (batch s))) ≤ 5
}.

End Phase.

Arguments State : clear implicits.

(** [coordinateUploads]: the initiate phase runs to its return, then the
    upload phase; [None] when a schedule does not take its phase to the
    return.  Besides the two result arrays the final gatekeeper is returned. *)
Definition coordinateUploads {TInitiate TUpload R : Type}
    (files : list Gatekeeper.QueueItem)
    (initiateFn : string → Settled TInitiate R)
    (uploadFn : string → Settled TUpload R)
    (schedule1 schedule2 : list Driver.Event)
    : option (list (Driver.SettledResult TInitiate R)
              * list (Driver.SettledResult TUpload R) * Gatekeeper.State) :=
  let fileIds := Gatekeeper.fileId <$> files in
  match Driver.processConcurrently
          (Driver.initiateFilesGenerator fileIds initiateFn)
          Driver.MAX_CONCURRENT_INITIATES schedule1 with
  | Some phase1 =>
      match Driver.pc phase1 with
      | Driver.Returned =>
          match steps files MAX_CONCURRENT_UPLOAD_TRIGGERS schedule2
                  (initial files uploadFn) with
          | Some phase2 =>
              match Driver.pc (driver phase2) with
              | Driver.Returned =>
                  Some (Driver.results phase1, Driver.results (driver phase2),
                        Batch.gate (batch phase2))
              | _ => None
              end
          | None => None
          end
      | _ => None
      end
  | None => None
  end.

(** A sample batch of files and schedules. *)
Definition sample_files : list Gatekeeper.QueueItem :=
  [Gatekeeper.mkQueueItem "L1" (100 * Gatekeeper.MB);
   Gatekeeper.mkQueueItem "S1" (30 * Gatekeeper.MB);
   Gatekeeper.mkQueueItem "S2" (30 * Gatekeeper.MB);
   Gatekeeper.mkQueueItem "L2" (100 * Gatekeeper.MB)].

Definition sample_upload (id : string) : Settled nat string :=
  if decide (id = "S1") then Rejected "upload failed" else Fulfilled (String.length id).

Definition sample_initiate (id : string) : Settled string string :=
  if decide (id = "L2") then Rejected "no url" else Fulfilled ("url:" +:+ id).

(** All four pulled at once; the fourth wrapper waits for a slot. *)
Definition sample_schedule : list Driver.Event :=
  [Driver.Pull; Driver.Pull; Driver.Pull; Driver.Pull; Driver.Pull;
   Driver.Settle 1; Driver.Settle 3; Driver.Finish 1; Driver.Settle 0;
   Driver.Settle 2; Driver.Finish 3; Driver.Finish 0; Driver.Finish 2;
   Driver.Return].

Definition sample_schedule1 : list Driver.Event :=
  [Driver.Pull; Driver.Pull; Driver.Pull; Driver.Pull; Driver.Pull;
   Driver.Settle 3; Driver.Settle 0; Driver.Settle 1; Driver.Settle 2;
   Driver.Finish 0; Driver.Finish 1; Driver.Finish 2; Driver.Finish 3;
   Driver.Return].

End Pipeline.

(** ** The order in which the uploads of a batch start *)

Module UploadOrder.
Import Gatekeeper Batch.

(** The wrapper of this file has been granted its slot: its upload is
    running or has settled. *)
Definition past_gatekeeper (b : System) (file : QueueItem) : Prop :=
  phases b !! fileId file = Some Holding
  ∨ phases b !! fileId file = Some Finished.

(** No upload has started before the upload of a file earlier in [files]. *)
Definition in_file_order (files : list QueueItem) (b : System) : Prop :=
  ∀ i j fi fj, i < j → files !! i = Some fi → files !! j = Some fj →
    past_gatekeeper b fj → past_gatekeeper b fi.

(** The wrappers wait in the order of their files. *)
Definition queue_in_file_order (files : list QueueItem) (b : System) : Prop :=
  ∀ a b' qa qb i j fi fj, a < b' →
    queue (gate b) !! a = Some qa → queue (gate b) !! b' = Some qb →
    files !! i = Some fi → fileId fi = fileId qa →
    files !! j = Some fj → fileId fj = fileId qb →
    i < j.

(** The wrappers that exist are those of the first [n] files. *)
Definition pulled (files : list QueueItem) (n : nat) (b : System) : Prop :=
  ∀ i file, files !! i = Some file →
    (is_Some (phases b !! fileId file) ↔ i < n).

End UploadOrder.

(** ** The initiate limiter of the queue-based variant

    [queueFileInitiate] and [processInitiateQueue] as a transition system.
    The calls of [queueFileInitiate] are numbered in the order they are
    made.  An entry of [initiateQueue] holds, beside its [fileId], the
    closures [initiateFn], [resolve] and [reject] of the call that pushed
    it: the field [caller] is the number of that call.  [initiateFn] returns
    a promise, as its type says; when and how that promise settles is up to
    the environment, and is an event of the system.  Each event is one
    uninterrupted run of JavaScript. *)

Module Initiates.
Import Promise.

Definition MAX_CONCURRENT_INITIATES : nat := 10.

Record InitiateQueueItem : Type := mkItem {
  fileId : string;
  caller : nat
}.

Section Model.
Context {R : Type}.

(** What has become of a call of [queueFileInitiate]. *)
Inductive Status : Type :=
| Queued                              (* its entry is in [initiateQueue] *)
| Running (id : string) (direct : bool)
    (* [initiateFn()] has been called: by [queueFileInitiate] itself
       ([direct]) or by [processInitiateQueue] *)
| Done (result : Settled unit R).     (* the promise of the call has settled *)

Record State : Type := mkState {
  activeInitiates : gset string;
  initiateQueue : list InitiateQueueItem;
  calls : list Status
}.

Definition initial : State := mkState ∅ [] [].

(** The [while] loop of [processInitiateQueue]. *)
Fixpoint processInitiateQueueLoop (q : list InitiateQueueItem)
    (active : gset string) (cs : list Status) : State :=
  match q with
  | [] => mkState active [] cs
  | next :: rest =>
      if decide (size active < MAX_CONCURRENT_INITIATES) then
        processInitiateQueueLoop rest ({[fileId next]} ∪ active)
          (<[caller next := Running (fileId next) false]> cs)
      else mkState active q cs
  end.

Definition processInitiateQueue (st : State) : State :=
  processInitiateQueueLoop (initiateQueue st) (activeInitiates st) (calls st).

(** [activeInitiates.delete(fileId)] *)
Definition deleteInitiate (id : string) (st : State) : State :=
  mkState (activeInitiates st ∖ {[id]}) (initiateQueue st) (calls st).

(** The promise of call [k] settles: by [return] or [throw] of the
    asynchronous function, or by [resolve()] or [reject(error)]. *)
Definition settle (k : nat) (result : Settled unit R) (st : State) : State :=
  mkState (activeInitiates st) (initiateQueue st) (<[k := Done result]> (calls st)).

(** A call of [queueFileInitiate], up to its [await] or to the creation of
    the pending promise. *)
Definition queueFileInitiate (id : string) (st : State) : State :=
  if decide (size (activeInitiates st) < MAX_CONCURRENT_INITIATES) then
    mkState ({[id]} ∪ activeInitiates st) (initiateQueue st)
      (calls st ++ [Running id true])
  else
    mkState (activeInitiates st)
      (initiateQueue st ++ [mkItem id (length (calls st))])
      (calls st ++ [Queued]).

(** What runs when the promise of [initiateFn()] of call [k] has settled
    with [result]: the rest of [queueFileInitiate] after its [await], or the
    [then] or [catch] callback of [processInitiateQueue]. *)
Definition continuation (k : nat) (result : Settled unit R) (st : State)
    : option State :=
  match calls st !! k with
  | Some (Running id true) =>
      Some (settle k result (processInitiateQueue (deleteInitiate id st)))
  | Some (Running id false) =>
      Some (processInitiateQueue (settle k result (deleteInitiate id st)))
  | _ => None
  end.

(** [resetCoordinator], on the initiate side. *)
Definition resetCoordinator (st : State) : State :=
  mkState ∅ [] (calls st).

Inductive Event : Type :=
| QueueFileInitiate (id : string)
| Settles (k : nat) (result : Settled unit R)
| ResetCoordinator.

Definition step (e : Event) (st : State) : option State :=
  match e with
  | QueueFileInitiate id => Some (queueFileInitiate id st)
  | Settles k result => continuation k result st
  | ResetCoordinator => Some (resetCoordinator st)
  end.

Fixpoint steps (es : list Event) (st : State) : option State :=
  match es with
  | [] => Some st
  | e :: rest =>
      match step e st with
      | Some st' => steps rest st'
      | None => None
      end
  end.

(** The ids whose [initiateFn] is running. *)
Definition running_id (c : Status) : option string :=
  match c with Running id _ => Some id | _ => None end.

Definition running (st : State) : list string := omap running_id (calls st).

Definition is_reset (e : Event) : bool :=
  match e with ResetCoordinator => true | _ => false end.

Definition is_settles (e : Event) : bool :=
  match e with Settles _ _ => true | _ => false end.

Definition is_done (c : Status) : bool :=
  match c with Done _ => true | _ => false end.

(** A call does not reuse the id of an initiate that is running or waiting. *)
Definition fresh (e : Event) (st : State) : Prop :=
  match e with
  | QueueFileInitiate id =>
      (id ∉ running st) ∧ (id ∉ fileId <$> initiateQueue st)
  | _ => True
  end.

Fixpoint all_fresh (es : list Event) (st : State) : Prop :=
  match es with
  | [] => True
  | e :: rest =>
      fresh e st
      ∧ (match step e st with
         | Some st' => all_fresh rest st'
         | None => True
         end)
  end.

#[global] Instance initiate_fresh_dec e st : Decision (fresh e st).
Proof. destruct e; simpl; apply _. Defined.

#[global] Instance initiate_all_fresh_dec es : ∀ st, Decision (all_fresh es st).
Proof.
  induction es as [|e es IH]; simpl; intros st; [apply _|].
  destruct (step e st); apply _.
Defined.

Definition reset_free (es : list Event) : Prop :=
  Forall (λ e, is_reset e = false) es.

(** The entries of a queue are in the order of their calls. *)
Definition in_call_order (q : list InitiateQueueItem) : Prop :=
  ∀ i j a b, i < j → q !! i = Some a → q !! j = Some b → caller a < caller b.

(** The invariant of the limiter. *)
Record Inv (st : State) : Prop := mkInv {
  inv_size : size (activeInitiates st) ≤ MAX_CONCURRENT_INITIATES;
  inv_queued : ∀ item, item ∈ initiateQueue st →
                 calls st !! caller item = Some Queued;
  inv_order : in_call_order (initiateQueue st);
  inv_active : ∀ id, id ∈ activeInitiates st → id ∈ running st;
  inv_full : initiateQueue st = []
             ∨ size (activeInitiates st) = MAX_CONCURRENT_INITIATES
}.

(** As long as [resetCoordinator] is not called, every call that has not
    started is in the queue. *)
Definition Complete (st : State) : Prop :=
  ∀ k, calls st !! k = Some Queued → k ∈ caller <$> initiateQueue st.

(** With ids that are not reused while in flight, the running initiates
    are the members of [activeInitiates], one each. *)
Definition Unique (st : State) : Prop :=
  NoDup (running st ++ (fileId <$> initiateQueue st))
  ∧ ∀ id, id ∈ running st → id ∈ activeInitiates st.

(** The calls whose promise has not settled. *)
Definition unsettled (st : State) : nat :=
  length (filter (λ c, is_done c = false) (calls st)).

End Model.

Arguments Status : clear implicits.
Arguments State : clear implicits.
Arguments Event : clear implicits.

(** Twelve calls with distinct ids; the third initiate fails, the first one
    settles last. *)
Definition twelve : list (Event string) :=
  (QueueFileInitiate <$> ["f0"; "f1"; "f2"; "f3"; "f4"; "f5"; "f6"; "f7";
                          "f8"; "f9"; "f10"; "f11"]).

Definition twelve_settle : list (Event string) :=
  [Settles 2 (Rejected "initiate failed"); Settles 1 (Fulfilled ());
   Settles 10 (Fulfilled ()); Settles 11 (Fulfilled ());
   Settles 3 (Fulfilled ()); Settles 4 (Fulfilled ());
   Settles 5 (Fulfilled ()); Settles 6 (Fulfilled ());
   Settles 7 (Fulfilled ()); Settles 8 (Fulfilled ());
   Settles 9 (Fulfilled ()); Settles 0 (Fulfilled ())].

(** Two of the running initiates settle after a [resetCoordinator]. *)
Definition settle_two : list (Event string) :=
  [Settles 2 (Rejected "initiate failed"); Settles 1 (Fulfilled ())].

End Initiates.

(** ** The demo around the coordinator

    The files of the demo ([types.ts]), the conversion of [runRealUpload]
    from the files of the demo to the files of the coordinator
    ([utils/realModeRunner.ts]), the picture of the upload triggers
    ([utils/visualizationHelpers.ts]) and the two admission decisions of the
    simulation ([App.tsx]).  The size of a file of the demo is a whole number
    of megabytes (the buttons of the demo add files of 30 and 100 MB).  The
    fields of a file that hold progress and timings are not looked at by the
    functions below; they are carried along as the component [timing]. *)

Module Demo.
Import Promise.

Inductive DemoMode : Type := Simulation | Real.

Inductive UploadTriggerState : Type :=
| Idle | Started | WaitingAtGatekeeper | Uploading | Completed.

#[global] Instance UploadTriggerState_eq_dec : EqDecision UploadTriggerState.
Proof. solve_decision. Defined.

(** The constants of [types.ts]; the threshold is in megabytes. *)
Definition SMALL_FILE_THRESHOLD : Z := 65.
Definition MAX_CONCURRENT_SMALL : nat := 5.
Definition MAX_CONCURRENT_LARGE : nat := 3.
Definition MAX_CONCURRENT_UPLOAD_TRIGGERS : nat := 10.

Section Files.
Context {Timing : Type}.

Record FileItem : Type := mkFileItem {
  id : string;
  size : Z;
  key : string;
  triggerState : option UploadTriggerState;
  timing : Timing
}.

(** [{ ...file, triggerState: state }] *)
Definition withTriggerState (state : UploadTriggerState) (file : FileItem)
    : FileItem :=
  mkFileItem (id file) (size file) (key file) (Some state) (timing file).

(** *** [mapToVisualTriggers] *)

Definition mapToVisualTriggers (mode : DemoMode)
    (uploadTriggers activeUploads uploadQueue : list FileItem) : list FileItem :=
  match mode with
  | Real => uploadTriggers
  | Simulation =>
      let triggers :=
        (withTriggerState Uploading <$> activeUploads)
        ++ (withTriggerState WaitingAtGatekeeper <$> uploadQueue) in
      take MAX_CONCURRENT_UPLOAD_TRIGGERS triggers
  end.

(** *** The conversion of [runRealUpload] *)

(** [files.map(f => ({ fileId: f.id, fileSize: f.size * 1024 * 1024 }))] *)
Definition coordinatorFile (f : FileItem) : Gatekeeper.QueueItem :=
  Gatekeeper.mkQueueItem (id f) (size f * 1024 * 1024).

Definition coordinatorFiles (files : list FileItem) : list Gatekeeper.QueueItem :=
  coordinatorFile <$> files.

(** The [activeUploads] map of the coordinator when exactly these files,
    with distinct ids, are uploading. *)
Definition activeMap (uploads : list FileItem) : gmap string Z :=
  list_to_map ((λ f, (id f, size f * 1024 * 1024)%Z) <$> uploads).

(** *** The admission decisions of the simulation *)

(** [files.some(f => f.size > SMALL_FILE_THRESHOLD)] *)
Definition someLarge (files : list FileItem) : bool :=
  existsb (λ f, (SMALL_FILE_THRESHOLD <? size f)%Z) files.

(** A file whose initiate has completed: is it added to the active uploads
    at once?  [currentUploads] is the list of active uploads that the
    decision reads. *)
Definition startsAtOnce (currentUploads : list FileItem) (file : FileItem)
    : bool :=
  let wouldHaveLargeFile :=
    someLarge currentUploads || (SMALL_FILE_THRESHOLD <? size file)%Z in
  let effectiveMaxSlots :=
    if wouldHaveLargeFile then MAX_CONCURRENT_LARGE else MAX_CONCURRENT_SMALL in
  length currentUploads <? effectiveMaxSlots.

(** The loop over the upload queue: the files to start, given the list of
    active uploads that the loop copies into [tempActive]. *)
Fixpoint toStartLoop (tempActive prevQueue : list FileItem) : list FileItem :=
  match prevQueue with
  | [] => []
  | file :: rest =>
      let currentMax :=
        if someLarge tempActive then MAX_CONCURRENT_LARGE
        else MAX_CONCURRENT_SMALL in
      if currentMax <=? length tempActive then []
      else file :: toStartLoop (tempActive ++ [file]) rest
  end.

End Files.

Arguments FileItem : clear implicits.

(** Sample files: three small uploads, nine files waiting, and a queue with
    a large file at its head. *)
Definition demo_small (name : string) : FileItem unit :=
  mkFileItem name 30 name None ().
Definition demo_large (name : string) : FileItem unit :=
  mkFileItem name 100 name None ().
Definition three_small : list (FileItem unit) :=
  [demo_small "File1"; demo_small "File2"; demo_small "File3"].
Definition nine_waiting : list (FileItem unit) :=
  demo_small <$> ["File4"; "File5"; "File6"; "File7"; "File8"; "File9";
                  "File10"; "File11"; "File12"].
Definition large_then_small : list (FileItem unit) :=
  [demo_large "File4"; demo_small "File5"; demo_small "File6"].

End Demo.

(** * Properties of the gatekeeper *)

Module GatekeeperProps.
Import Gatekeeper.

(** *** The capacity scan *)

Lemma scanSizes_small sizes :
  Forall small sizes → scanSizes sizes = MAX_CONCURRENT_SMALL.
Proof.
  induction 1 as [|sz rest Hsz _ IH]; simpl; [done|].
  unfold small in Hsz.
  destruct (Z.ltb_spec SMALL_FILE_THRESHOLD sz); [lia | exact IH].
Qed.

Lemma scanSizes_large sizes :
  Exists large sizes → scanSizes sizes = MAX_CONCURRENT_LARGE.
Proof.
  induction 1 as [sz rest Hsz | sz rest _ IH]; simpl.
  - unfold large in Hsz.
    destruct (Z.ltb_spec SMALL_FILE_THRESHOLD sz); [done | lia].
  - by destruct (SMALL_FILE_THRESHOLD <? sz)%Z.
Qed.

(** The scan does not depend on the order in which the map hands out its
    values. *)
Lemma scanSizes_Permutation l1 l2 : l1 ≡ₚ l2 → scanSizes l1 = scanSizes l2.
Proof.
  induction 1 as [|x l l' _ IH|x y l|l l' l'' _ IH1 _ IH2]; simpl.
  - done.
  - by rewrite IH.
  - by destruct (SMALL_FILE_THRESHOLD <? x)%Z, (SMALL_FILE_THRESHOLD <? y)%Z.
  - congruence.
Qed.

Lemma scanSizes_le sizes : scanSizes sizes ≤ MAX_CONCURRENT_SMALL.
Proof.
  induction sizes as [|sz rest IH]; simpl; [done|].
  destruct (SMALL_FILE_THRESHOLD <? sz)%Z; [|exact IH].
  unfold MAX_CONCURRENT_LARGE, MAX_CONCURRENT_SMALL. lia.
Qed.

Lemma scanSizes_ge sizes : MAX_CONCURRENT_LARGE ≤ scanSizes sizes.
Proof.
  induction sizes as [|sz rest IH]; simpl.
  - unfold MAX_CONCURRENT_LARGE, MAX_CONCURRENT_SMALL. lia.
  - by destruct (SMALL_FILE_THRESHOLD <? sz)%Z.
Qed.

Lemma capacity_all_small (active : gmap string Z) :
  map_Forall (λ _ sz, small sz) active →
  getMaxConcurrentSlots active = MAX_CONCURRENT_SMALL.
Proof.
  intros Hall. apply scanSizes_small, Forall_fmap, Forall_forall.
  intros [k v] Hin. apply elem_of_map_to_list in Hin. exact (Hall k v Hin).
Qed.

Lemma capacity_some_large (active : gmap string Z) k sz :
  active !! k = Some sz → large sz →
  getMaxConcurrentSlots active = MAX_CONCURRENT_LARGE.
Proof.
  intros Hk Hsz. apply scanSizes_large, Exists_exists.
  exists sz. split; [|done].
  apply list_elem_of_fmap. exists (k, sz). split; [done|].
  by apply elem_of_map_to_list.
Qed.

Lemma capacity_le (active : gmap string Z) :
  getMaxConcurrentSlots active ≤ MAX_CONCURRENT_SMALL.
Proof. apply scanSizes_le. Qed.

(** A JavaScript [Map] iterates in insertion order, [map_to_list] in the
    order of the keys: the capacity is the same for every order. *)
Lemma capacity_any_order (active : gmap string Z) (values : list Z) :
  values ≡ₚ (map_to_list active).*2 →
  scanSizes values = getMaxConcurrentSlots active.
Proof. apply scanSizes_Permutation. Qed.

Lemma size_insert_le (active : gmap string Z) k v :
  size (<[k := v]> active) ≤ S (size active).
Proof. rewrite map_size_insert. destruct (active !! k); simpl; lia. Qed.

Lemma size_delete_le (active : gmap string Z) k :
  size (delete k active) ≤ size active.
Proof. rewrite map_size_delete. destruct (active !! k); simpl; lia. Qed.

(** *** The loop of [processQueue] *)

Lemma processQueueLoop_split maxSlots q : ∀ active,
  q = (processQueueLoop maxSlots active q).2
      ++ (processQueueLoop maxSlots active q).1.2.
Proof.
  induction q as [|next rest IH]; intros active; simpl; [done|].
  destruct (size active <? maxSlots); [|done].
  specialize (IH (<[fileId next := fileSize next]> active)).
  destruct (processQueueLoop _ _ rest) as [[a' q'] r]. simpl in *.
  by rewrite <-IH.
Qed.

Lemma processQueueLoop_size maxSlots q : ∀ active,
  maxSlots ≤ MAX_CONCURRENT_SMALL →
  size active ≤ MAX_CONCURRENT_SMALL →
  size (processQueueLoop maxSlots active q).1.1 ≤ MAX_CONCURRENT_SMALL.
Proof.
  induction q as [|next rest IH]; intros active Hmax Hsz; simpl; [done|].
  destruct (Nat.ltb_spec (size active) maxSlots) as [Hlt|]; [|done].
  assert (size (<[fileId next := fileSize next]> active) ≤ MAX_CONCURRENT_SMALL) as Hins.
  { pose proof (size_insert_le active (fileId next) (fileSize next)). lia. }
  specialize (IH _ Hmax Hins).
  by destruct (processQueueLoop _ _ rest) as [[a' q'] r].
Qed.


Lemma processQueueLoop_absent maxSlots q : ∀ active k,
  k ∉ fileId <$> q → active !! k = None →
  (processQueueLoop maxSlots active q).1.1 !! k = None.
Proof.
  induction q as [|next rest IH]; intros active k Hq Hk; simpl; [done|].
  destruct (size active <? maxSlots); [|done].
  rewrite fmap_cons, not_elem_of_cons in Hq. destruct Hq as [Hne Hq].
  specialize (IH (<[fileId next := fileSize next]> active) k Hq).
  destruct (processQueueLoop _ _ rest) as [[a' q'] r]. simpl in *.
  apply IH. by rewrite lookup_insert_ne.
Qed.

(** [processQueue] is its loop run with the capacity read at its start; the
    early return on an empty queue is the loop doing nothing. *)
Lemma processQueue_loop st :
  processQueue st
  = let '(active', q', resumed) :=
      processQueueLoop (getMaxConcurrentSlots (activeUploads st))
        (activeUploads st) (queue st) in
    (mkState active' q', resumed).
Proof. unfold processQueue. by destruct st as [active [|next rest]]. Qed.

Ltac processQueue_by loop_lemma st :=
  rewrite (processQueue_loop st);
  pose proof (loop_lemma (getMaxConcurrentSlots (activeUploads st)) (queue st)
                (activeUploads st)) as Hloop;
  destruct (processQueueLoop _ _ (queue st)) as [[active' q'] resumed];
  simpl in *; eauto using capacity_le.

Lemma processQueue_split st :
  queue st = (processQueue st).2 ++ queue (processQueue st).1.
Proof. processQueue_by processQueueLoop_split st. Qed.

Lemma processQueue_size st :
  size (activeUploads st) ≤ MAX_CONCURRENT_SMALL →
  size (activeUploads (processQueue st).1) ≤ MAX_CONCURRENT_SMALL.
Proof. intros Hsz. processQueue_by processQueueLoop_size st. Qed.


Lemma processQueue_absent st k :
  k ∉ fileId <$> queue st → activeUploads st !! k = None →
  activeUploads (processQueue st).1 !! k = None.
Proof. intros Hq Hk. processQueue_by processQueueLoop_absent st. Qed.

(** *** Acquire and release *)

Lemma acquire_granted id sz st :
  size (activeUploads st) < getMaxConcurrentSlots (activeUploads st) →
  acquireUploadSlot id sz st
  = (mkState (<[id := sz]> (activeUploads st)) (queue st), true).
Proof.
  intros Hlt. unfold acquireUploadSlot.
  by destruct (Nat.ltb_spec (size (activeUploads st))
                 (getMaxConcurrentSlots (activeUploads st))); [|lia].
Qed.

Lemma acquire_queued id sz st :
  getMaxConcurrentSlots (activeUploads st) ≤ size (activeUploads st) →
  acquireUploadSlot id sz st
  = (mkState (activeUploads st) (queue st ++ [mkQueueItem id sz]), false).
Proof.
  intros Hge. unfold acquireUploadSlot.
  by destruct (Nat.ltb_spec (size (activeUploads st))
                 (getMaxConcurrentSlots (activeUploads st))); [lia|].
Qed.

Lemma acquire_size id sz st :
  size (activeUploads st) ≤ MAX_CONCURRENT_SMALL →
  size (activeUploads (acquireUploadSlot id sz st).1) ≤ MAX_CONCURRENT_SMALL.
Proof.
  intros Hsz. unfold acquireUploadSlot.
  destruct (Nat.ltb_spec (size (activeUploads st))
              (getMaxConcurrentSlots (activeUploads st))) as [Hlt|]; simpl; [|done].
  pose proof (capacity_le (activeUploads st)).
  pose proof (size_insert_le (activeUploads st) id sz). lia.
Qed.


Lemma release_size id st :
  size (activeUploads st) ≤ MAX_CONCURRENT_SMALL →
  size (activeUploads (releaseUploadSlot id st).1) ≤ MAX_CONCURRENT_SMALL.
Proof.
  intros Hsz. apply processQueue_size. simpl.
  pose proof (size_delete_le (activeUploads st) id). lia.
Qed.


Lemma release_absent id st :
  id ∉ fileId <$> queue st →
  activeUploads (releaseUploadSlot id st).1 !! id = None.
Proof.
  intros Hq. apply processQueue_absent; simpl; [done|]. apply lookup_delete_eq.
Qed.

Lemma exec_size op st :
  size (activeUploads st) ≤ MAX_CONCURRENT_SMALL →
  size (activeUploads (exec op st).1) ≤ MAX_CONCURRENT_SMALL.
Proof.
  destruct op; simpl; [apply acquire_size | apply release_size |].
  intros _. rewrite map_size_empty. unfold MAX_CONCURRENT_SMALL. lia.
Qed.

(** Acquire appends at the tail and release removes from the head. *)
Lemma exec_fifo op st :
  op ≠ ResetCoordinator →
  queue st ++ appended op st = (exec op st).2 ++ queue (exec op st).1.
Proof.
  intros Hop. destruct op as [id sz|id|]; simpl; [| |done].
  - unfold acquireUploadSlot. destruct (size (activeUploads st) <? _); simpl;
      [by rewrite app_nil_r | done].
  - rewrite app_nil_r. unfold releaseUploadSlot.
    by rewrite <-processQueue_split.
Qed.

Lemma run_fifo ops : ∀ st,
  ResetCoordinator ∉ ops →
  queue st ++ (run ops st).2 = (run ops st).1.2 ++ queue (run ops st).1.1.
Proof.
  induction ops as [|op ops IH]; intros st Hops; simpl; [by rewrite app_nil_r|].
  apply not_elem_of_cons in Hops as [Hop Hops].
  pose proof (exec_fifo op st (not_eq_sym Hop)) as Hstep.
  destruct (exec op st) as [st1 adm1]. simpl in Hstep.
  specialize (IH st1 Hops).
  destruct (run ops st1) as [[st2 adm2] app2]. simpl in *.
  by rewrite app_assoc, Hstep, <-app_assoc, IH, app_assoc.
Qed.

(** With resets, which discard the waiting entries, the admitted entries
    followed by the waiting ones still respect the append order. *)
Lemma run_sublist ops : ∀ st,
  (run ops st).1.2 ++ queue (run ops st).1.1
  `sublist_of` queue st ++ (run ops st).2.
Proof.
  induction ops as [|op ops IH]; intros st; simpl; [by rewrite app_nil_r|].
  destruct (decide (op = ResetCoordinator)) as [->|Hop]; simpl.
  - specialize (IH (resetCoordinator st)).
    destruct (run ops (resetCoordinator st)) as [[st2 adm2] app2].
    simpl in *. by apply sublist_inserts_l.
  - pose proof (exec_fifo op st Hop) as Hstep.
    destruct (exec op st) as [st1 adm1]. simpl in Hstep.
    specialize (IH st1).
    destruct (run ops st1) as [[st2 adm2] app2]. simpl in *.
    rewrite app_assoc, Hstep, <-!app_assoc.
    by apply sublist_app.
Qed.

Lemma run_reachable ops : ∀ st, reachable st → reachable (run ops st).1.1.
Proof.
  induction ops as [|op ops IH]; intros st Hst; simpl; [done|].
  pose proof (reach_exec op st Hst) as Hop.
  destruct (exec op st) as [st1 adm1]. simpl in Hop.
  specialize (IH st1 Hop). by destruct (run ops st1) as [[st2 adm2] app2].
Qed.

Lemma reachable_size st :
  reachable st → size (activeUploads st) ≤ MAX_CONCURRENT_SMALL.
Proof.
  induction 1 as [|op st _ IH]; simpl.
  - rewrite map_size_empty. unfold MAX_CONCURRENT_SMALL. lia.
  - by apply exec_size.
Qed.

(** *** Newcomers do not overtake the waiting entries

    With unique ids, an upload that is admitted keeps its size while it is
    active, so the capacity a drain has read stays an upper bound of the
    capacity during that drain; hence who waits, waits because the slots
    are taken, and [acquireUploadSlot] admits at once only when nobody
    waits. *)

Lemma capacity_anti_mono (a a' : gmap string Z) :
  a ⊆ a' → getMaxConcurrentSlots a' ≤ getMaxConcurrentSlots a.
Proof.
  intros Hsub. destruct (decide (map_Forall (λ _ sz, small sz) a)) as [Hall|Hsome].
  - rewrite (capacity_all_small a Hall). apply capacity_le.
  - apply map_not_Forall in Hsome as (k & sz & Hk & Hsz); [|apply _].
    assert (large sz) as Hlarge by (unfold small, large in *; lia).
    rewrite (capacity_some_large a k sz Hk Hlarge).
    by rewrite (capacity_some_large a' k sz (lookup_weaken _ _ _ _ Hk Hsub) Hlarge).
Qed.

Lemma processQueueLoop_tidy maxSlots q : ∀ active,
  NoDup (fileId <$> q) →
  (∀ id, id ∈ fileId <$> q → active !! id = None) →
  let '(active', q', _) := processQueueLoop maxSlots active q in
  active ⊆ active'
  ∧ (∀ id, id ∈ fileId <$> q' → active' !! id = None)
  ∧ (q' = [] ∨ maxSlots ≤ size active').
Proof.
  induction q as [|next rest IH]; intros active Hnodup Hwait; simpl.
  { repeat split; [done | | by left]. intros id Hid. by apply elem_of_nil in Hid. }
  rewrite fmap_cons in Hnodup. apply NoDup_cons in Hnodup as [Hnext Hrest].
  destruct (Nat.ltb_spec (size active) maxSlots) as [Hlt|Hge].
  - assert (active !! fileId next = None) as Hnew
      by (apply Hwait; rewrite fmap_cons; apply elem_of_cons; by left).
    specialize (IH (<[fileId next := fileSize next]> active) Hrest).
    destruct (processQueueLoop _ _ rest) as [[active' q'] resumed].
    destruct IH as (Hsub & Hwait' & Hfull).
    { intros id Hid. rewrite lookup_insert_ne by (intros Heq; by subst id).
      apply Hwait. rewrite fmap_cons. apply elem_of_cons. by right. }
    repeat split; [|done|done].
    etrans; [by apply (insert_subseteq active (fileId next) (fileSize next))|done].
  - repeat split; [done|exact Hwait|right; lia].
Qed.

Lemma processQueueLoop_NoDup maxSlots q : ∀ active,
  NoDup (fileId <$> q) →
  NoDup (fileId <$> (processQueueLoop maxSlots active q).1.2).
Proof.
  intros active Hnodup.
  rewrite (processQueueLoop_split maxSlots q active), fmap_app in Hnodup.
  by apply NoDup_app in Hnodup as (_ & _ & Hrest).
Qed.

Lemma tidy_initial : tidy initial.
Proof.
  split; [apply NoDup_nil_2|]. split; [|by left].
  intros id Hid. by apply elem_of_nil in Hid.
Qed.

Lemma tidy_exec op st : tidy st → fresh op st → tidy (exec op st).1.
Proof.
  intros (Hnodup & Hwait & Hfull) Hfresh. destruct op as [id sz|id|]; simpl.
  - destruct Hfresh as [Hactive Hqueue]. unfold acquireUploadSlot, tidy.
    destruct (Nat.ltb_spec (size (activeUploads st))
                (getMaxConcurrentSlots (activeUploads st))) as [Hlt|Hge]; simpl.
    + destruct Hfull as [Hempty|Hfull]; [|lia]. rewrite Hempty in *.
      split; [done|]. split; [|by left].
      intros id' Hid'. by apply elem_of_nil in Hid'.
    + rewrite fmap_app. simpl. split; [|split; [|by right]].
      * apply NoDup_app. split; [done|]. split; [|apply NoDup_singleton].
        intros id' Hid' Heq%list_elem_of_singleton. by subst id'.
      * intros id' [Hid'|Heq%list_elem_of_singleton]%elem_of_app;
          [by apply Hwait | by subst id'].
  - unfold releaseUploadSlot, tidy. rewrite processQueue_loop. simpl.
    pose proof (processQueueLoop_tidy
                  (getMaxConcurrentSlots (delete id (activeUploads st)))
                  (queue st) (delete id (activeUploads st)) Hnodup) as Hloop.
    pose proof (processQueueLoop_NoDup
                  (getMaxConcurrentSlots (delete id (activeUploads st)))
                  (queue st) (delete id (activeUploads st)) Hnodup) as Hnodup'.
    destruct (processQueueLoop _ _ (queue st)) as [[active' q'] resumed].
    simpl in *. destruct Hloop as (Hsub & Hwait' & Hfull').
    { intros id' Hid'. apply lookup_delete_None. right. by apply Hwait. }
    split; [done|]. split; [done|].
    destruct Hfull' as [->|Hfull']; [by left|right].
    pose proof (capacity_anti_mono _ _ Hsub). lia.
  - apply tidy_initial.
Qed.

Lemma tidy_run ops : ∀ st,
  tidy st → all_fresh ops st → tidy (run ops st).1.1.
Proof.
  induction ops as [|op ops IH]; intros st Htidy Hfresh; simpl; [done|].
  destruct Hfresh as [Hop Hrest].
  pose proof (tidy_exec op st Htidy Hop) as Htidy1.
  destruct (exec op st) as [st1 adm1]. simpl in *.
  specialize (IH st1 Htidy1 Hrest).
  by destruct (run ops st1) as [[st2 adm2] app2].
Qed.

(** In a tidy state a candidate is admitted at once only if nobody waits. *)
Lemma no_overtaking id sz st :
  tidy st → (acquireUploadSlot id sz st).2 = true → queue st = [].
Proof.
  intros (_ & _ & Hfull). unfold acquireUploadSlot.
  destruct (Nat.ltb_spec (size (activeUploads st))
              (getMaxConcurrentSlots (activeUploads st))) as [Hlt|Hge]; [|done].
  intros _. destruct Hfull as [Hempty|Hfull]; [done|lia].
Qed.

(** *** Where the drain follows the specification

    Admitting a small upload under a new id leaves the capacity as it is, so
    a drain over waiting entries that are all small takes the decisions of
    the drain of the specification.  The two part ways only after a large
    entry has been admitted in the same drain. *)

Lemma capacity_insert_small (active : gmap string Z) k sz :
  active !! k = None → small sz →
  getMaxConcurrentSlots (<[k := sz]> active) = getMaxConcurrentSlots active.
Proof.
  intros Hk Hsz. unfold getMaxConcurrentSlots.
  rewrite (scanSizes_Permutation _ (sz :: (map_to_list active).*2)).
  - simpl. unfold small in Hsz.
    by destruct (Z.ltb_spec SMALL_FILE_THRESHOLD sz); [lia|].
  - by rewrite map_to_list_insert.
Qed.

Lemma processQueueLoop_small_queue q : ∀ active,
  NoDup (fileId <$> q) →
  (∀ id, id ∈ fileId <$> q → active !! id = None) →
  Forall (λ item, small (fileSize item)) q →
  processQueueLoop (getMaxConcurrentSlots active) active q
  = spec_drain_loop active q.
Proof.
  induction q as [|next rest IH]; intros active Hnodup Hwait Hsmall; simpl; [done|].
  rewrite fmap_cons in Hnodup. apply NoDup_cons in Hnodup as [Hnext Hrest].
  apply Forall_cons in Hsmall as [Hsz Hsmall].
  destruct (size active <? getMaxConcurrentSlots active); [|done].
  assert (active !! fileId next = None) as Hnew
    by (apply Hwait; rewrite fmap_cons; apply elem_of_cons; by left).
  rewrite <-(capacity_insert_small active (fileId next) (fileSize next) Hnew Hsz).
  rewrite IH; [done|done| |done].
  intros id Hid. rewrite lookup_insert_ne by (intros Heq; by subst id).
  apply Hwait. rewrite fmap_cons. apply elem_of_cons. by right.
Qed.

Lemma processQueue_small_queue st :
  tidy st → Forall (λ item, small (fileSize item)) (queue st) →
  processQueue st = spec_drain st.
Proof.
  intros (Hnodup & Hwait & _) Hsmall. rewrite processQueue_loop. unfold spec_drain.
  by rewrite processQueueLoop_small_queue.
Qed.

(** The scenario of the documentation (CHART.md): with five small uploads
    active a large one has to wait; the first release admits it and the
    capacity drops to 3; the next two releases admit nothing, with 4 and then
    3 uploads active; the capacity observed is 5, 3, 3, 3, 3. *)
Example documented_scenario :
  (run scenario_ops initial).1.1 = five_small_one_waiting
  ∧ getMaxConcurrentSlots (activeUploads five_small_one_waiting) = 5
  ∧ let r1 := releaseUploadSlot "S1" five_small_one_waiting in
    let r2 := releaseUploadSlot "S2" r1.1 in
    let r3 := releaseUploadSlot "S3" r2.1 in
    let r4 := releaseUploadSlot "S4" r3.1 in
    r1.2 = [mkQueueItem "L1" (100 * MB)]
    ∧ r2.2 = [] ∧ r3.2 = [] ∧ r4.2 = []
    ∧ size <$> (activeUploads <$> [r1.1; r2.1; r3.1; r4.1]) = [5; 4; 3; 2]
    ∧ getMaxConcurrentSlots <$> (activeUploads <$> [r1.1; r2.1; r3.1; r4.1])
      = [3; 3; 3; 3].
Proof. by vm_compute. Qed.

(** *** The claims about the gatekeeper *)

(** C1 (the code departs from the claim).  The claim: during a drain the
    capacity is recomputed before each queued entry is considered, so that
    once a drain has admitted a large entry nothing more is admitted while
    the active count is at or above 3.  The code computes [maxSlots] once,
    before the loop.  In the reachable state [before_large_release] (one
    large and two small uploads active; a large and two small entries
    waiting) the release of the large upload admits all three waiting
    entries: the two small ones enter although the active map then holds
    a large entry and already 3, then 4, uploads.  The drain of the
    specification admits only the large entry. *)
Theorem C1_drain_uses_stale_capacity :
  let start := mkState (delete "L1" (activeUploads before_large_release))
                       (queue before_large_release) in
  let after_first := <["L2" := (100 * MB)%Z]> (activeUploads start) in
  reachable before_large_release
  ∧ releaseUploadSlot "L1" before_large_release = processQueue start
  ∧ (processQueue start).2
    = [mkQueueItem "L2" (100 * MB); mkQueueItem "S6" (30 * MB);
       mkQueueItem "S7" (30 * MB)]
  ∧ size after_first = 3 ∧ getMaxConcurrentSlots after_first = 3
  ∧ size (activeUploads (processQueue start).1) = 5
  ∧ getMaxConcurrentSlots (activeUploads (processQueue start).1) = 3
  ∧ (spec_drain start).2 = [mkQueueItem "L2" (100 * MB)]
  ∧ size (activeUploads (spec_drain start).1) = 3.
Proof.
  split; [apply run_reachable, reach_initial|].
  by vm_compute.
Qed.




(** C5.  Admission from the wait queue is first in, first out.  Over any
    run of acquires and releases, from any state: the entries waiting at
    the start followed by the entries appended during the run, in append
    order, are exactly the entries admitted from the queue during the run,
    in admission order, followed by the entries still waiting.  So the
    admitted entries are always an initial segment of the append order: no
    entry is admitted before one that was appended earlier, and nothing
    behind a waiting head gets ahead of it.  Over runs that also contain
    resets, which discard the waiting entries, the admitted entries
    followed by the waiting ones are still in append order. *)
Theorem C5_wait_queue_is_fifo (ops : list Op) (st : State) :
  (ResetCoordinator ∉ ops →
   queue st ++ (run ops st).2 = (run ops st).1.2 ++ queue (run ops st).1.1)
  ∧ (run ops st).1.2 ++ queue (run ops st).1.1
    `sublist_of` queue st ++ (run ops st).2.
Proof. split; [apply run_fifo | apply run_sublist]. Qed.

Lemma C5_wait_queue_is_fifo_witness :
  queue before_large_release ++ (run [Release "L1"] before_large_release).2
  = (run [Release "L1"] before_large_release).1.2
    ++ queue (run [Release "L1"] before_large_release).1.1.
Proof.
  apply (C5_wait_queue_is_fifo [Release "L1"] before_large_release).
  apply (bool_decide_unpack _). by vm_compute.
Defined.

(** C8.  The capacity is 5 when every active upload has a size of at most
    65 MiB, and 3 when some active upload has a size above 65 MiB. *)
Theorem C8_capacity_by_size_class (active : gmap string Z) :
  SMALL_FILE_THRESHOLD = (65 * 1024 * 1024)%Z
  ∧ (map_Forall (λ _ sz, (sz ≤ SMALL_FILE_THRESHOLD)%Z) active →
     getMaxConcurrentSlots active = 5)
  ∧ ((∃ k sz, active !! k = Some sz ∧ (SMALL_FILE_THRESHOLD < sz)%Z) →
     getMaxConcurrentSlots active = 3).
Proof.
  split; [done|split].
  - apply capacity_all_small.
  - intros (k & sz & Hk & Hsz). exact (capacity_some_large active k sz Hk Hsz).
Qed.

Lemma C8_capacity_by_size_class_witness :
  getMaxConcurrentSlots four_small = 5
  ∧ getMaxConcurrentSlots four_small_one_large = 3.
Proof.
  split.
  - apply (C8_capacity_by_size_class four_small).
    apply (bool_decide_unpack _). by vm_compute.
  - apply (C8_capacity_by_size_class four_small_one_large).
    exists "L1", (100 * MB)%Z. split; by vm_compute.
Defined.

(** C9.  Whatever the state, [resetCoordinator] leaves the active map and
    the queue empty, that is, the state of a freshly loaded module, so an
    acquire after it is an acquire on a fresh gatekeeper: the candidate,
    small or large, is admitted at once and is the only active upload.
    The same holds for the queue-based variant, whose reset also empties
    the initiate structures. *)
Theorem C9_reset_gives_fresh_gatekeeper (st : State) (old : Legacy.State)
    (id : string) (sz : Z) :
  activeUploads (resetCoordinator st) = ∅
  ∧ queue (resetCoordinator st) = []
  ∧ resetCoordinator st = initial
  ∧ resetCoordinator (resetCoordinator st) = resetCoordinator st
  ∧ acquireUploadSlot id sz (resetCoordinator st) = acquireUploadSlot id sz initial
  ∧ acquireUploadSlot id sz (resetCoordinator st) = (mkState {[id := sz]} [], true)
  ∧ Legacy.resetCoordinator old = Legacy.mkState ∅ [] initial
  ∧ Legacy.acquireUploadSlot id sz (Legacy.resetCoordinator old)
    = (Legacy.mkState ∅ [] (mkState {[id := sz]} []), true).
Proof. by repeat split. Qed.

(** C10.  In every state reachable from the initial one by acquires,
    releases (with their drain) and resets, at most 5 uploads are active;
    and each of [acquireUploadSlot], [releaseUploadSlot], [processQueue]
    and [resetCoordinator] keeps the bound, because an upload is inserted
    only when the active count is below a capacity that is at most 5. *)
Theorem C10_never_more_than_five_active :
  (∀ st, reachable st → size (activeUploads st) ≤ 5)
  ∧ (∀ active, getMaxConcurrentSlots active ≤ 5)
  ∧ (∀ st, size (activeUploads st) ≤ 5 →
       (∀ id sz, size (activeUploads (acquireUploadSlot id sz st).1) ≤ 5)
       ∧ (∀ id, size (activeUploads (releaseUploadSlot id st).1) ≤ 5)
       ∧ size (activeUploads (processQueue st).1) ≤ 5
       ∧ size (activeUploads (resetCoordinator st)) ≤ 5).
Proof.
  split; [exact reachable_size|]. split; [exact capacity_le|].
  intros st Hsz. repeat split.
  - intros id sz. by apply acquire_size.
  - intros id. by apply release_size.
  - by apply processQueue_size.
  - simpl. rewrite map_size_empty. lia.
Qed.

Lemma C10_never_more_than_five_active_witness :
  size (activeUploads before_large_release) ≤ 5
  ∧ size (activeUploads (releaseUploadSlot "L1" before_large_release).1) ≤ 5.
Proof.
  pose proof C10_never_more_than_five_active as (Hreach & _ & Hstep).
  split.
  - apply Hreach. apply run_reachable, reach_initial.
  - apply Hstep. vm_compute. lia.
Defined.

End GatekeeperProps.

(** * Properties of the transfer wrapper *)

Module WrapperProps.
Import Promise Gatekeeper Wrapper GatekeeperProps.

(** C6.  Whatever the upload does (it fulfils or it rejects) and whatever
    happens in the gatekeeper while the wrapper waits for its slot and
    while the upload is in flight, [processFileUpload] makes exactly two
    gatekeeper calls, the acquire and then the release of its id; the
    release is applied to the state in which the upload settled; the
    wrapper settles as the upload did; and after the release the id is no
    longer active, provided no waiting entry carries the same id. *)
Theorem C6_release_on_every_exit {A R : Type} (id : string) (sz : Z)
    (whileWaiting : State → State)
    (uploadFn : string → State → Settled A R * State) (w : World) :
  let granted := (acquireUploadSlot id sz (gate w)).1 in
  let upload := uploadFn id (whileWaiting granted) in
  let final := processFileUpload id sz whileWaiting uploadFn w in
  final.1 = upload.1
  ∧ calls final.2 = calls w ++ [Acquire id sz; Release id]
  ∧ gate final.2 = (releaseUploadSlot id upload.2).1
  ∧ (id ∉ fileId <$> queue upload.2 → activeUploads (gate final.2) !! id = None).
Proof.
  unfold processFileUpload, tryFinally, bind, callAcquire, suspend, external,
    ret, callRelease.
  destruct (acquireUploadSlot id sz (gate w)) as [g ready]. simpl.
  destruct (uploadFn id (whileWaiting g)) as [[value|reason] g']; simpl;
    (repeat split; [by rewrite <-app_assoc | apply release_absent]).
Qed.

Lemma C6_release_on_every_exit_witness :
  (activeUploads (gate (processFileUpload "f" (100 * MB) id (upload_ok 7)
                          (mkWorld initial [])).2) !! "f" = None)
  ∧ (activeUploads (gate (processFileUpload "f" (100 * MB) id upload_fails
                            (mkWorld initial [])).2) !! "f" = None).
Proof.
  split.
  - apply (C6_release_on_every_exit "f" (100 * MB)%Z id (upload_ok 7)
             (mkWorld initial [])).
    vm_compute. apply not_elem_of_nil.
  - apply (C6_release_on_every_exit "f" (100 * MB)%Z id upload_fails
             (mkWorld initial [])).
    vm_compute. apply not_elem_of_nil.
Defined.

End WrapperProps.

(** * Properties of the driver *)

Module DriverProps.
Import Promise Driver.

Section Proofs.
Context {T R : Type}.
Implicit Types (st : State T R) (gen : list (Settled T R)).
Implicit Types (ex : gmap nat (Worker T R)) (e : Event) (C : Z).

(** *** The function [step] and the relation [Step] agree *)

Lemma step_Step C e st st' : step C e st = Some st' ↔ Step C st e st'.
Proof.
  split.
  - destruct st as [rs ex g sd p], e as [|i|i|]; simpl.
    + destruct p; try done. destruct g as [|promise rest]; intros [= <-].
      * apply Step_exhausted.
      * apply Step_pull.
    + destruct (ex !! i) as [[promise|w]|] eqn:Hi; try done.
      destruct promise as [v|r]; simpl; intros [= <-];
        [apply (Step_settle C rs ex g sd p i (Fulfilled v) Hi)
        |apply (Step_settle C rs ex g sd p i (Rejected r) Hi)].
    + destruct (ex !! i) as [[promise|w]|] eqn:Hi; try done.
      intros [= <-]. by apply Step_finish.
    + destruct p; try done. case_decide as Hex; [|done]. simpl in Hex.
      subst ex. intros [= <-]. apply Step_return.
  - destruct 1 as [rs ex sd|rs ex promise rest sd|rs ex g sd p i promise Hi
                   |rs ex g sd p i w Hi|rs sd g]; simpl.
    + done.
    + done.
    + rewrite Hi. by destruct promise.
    + by rewrite Hi.
    + by rewrite decide_True.
Qed.

(** *** The load of the executing set *)

Lemma load_insert_new ex i w :
  ex !! i = None → load (<[i := w]> ex) = worker_weight w + load ex.
Proof.
  intros Hi. unfold load. rewrite map_fold_insert_L; [done| |done].
  intros. lia.
Qed.

Lemma load_delete ex i w :
  ex !! i = Some w → load ex = worker_weight w + load (delete i ex).
Proof.
  intros Hi. unfold load.
  rewrite (map_fold_delete_L _ _ i w ex); [done| |done].
  intros. lia.
Qed.

Lemma load_replace ex i w w' :
  ex !! i = Some w →
  load (<[i := w']> ex) + worker_weight w = worker_weight w' + load ex.
Proof.
  intros Hi. rewrite <-insert_delete_eq.
  rewrite load_insert_new by apply lookup_delete_eq.
  rewrite (load_delete ex i w Hi). lia.
Qed.

Lemma outstanding_le_executing st : outstanding st ≤ size (executing st).
Proof. apply map_size_filter. Qed.

(** *** The invariant *)

Lemma initial_Inv C gen : Inv C gen (initial gen).
Proof.
  split; simpl; try done.
  - unfold pc_ok. simpl. rewrite map_size_empty. lia.
  - rewrite map_size_empty. lia.
Qed.

(** The index handed to a new worker is not in use. *)
Lemma fresh_index C gen st :
  Inv C gen st → executing st !! length (results st) = None.
Proof.
  intros HI. destruct (executing st !! length (results st)) as [w|] eqn:Hw; [|done].
  apply (inv_keys _ _ _ HI) in Hw. lia.
Qed.

(** A worker in [executing] belongs to a promise that was yielded. *)
Lemma executing_started C gen st i w :
  Inv C gen st → executing st !! i = Some w → ∃ p, started st !! i = Some p.
Proof.
  intros HI Hw. apply (inv_keys _ _ _ HI) in Hw.
  rewrite (inv_len _ _ _ HI) in Hw. by apply lookup_lt_is_Some_2.
Qed.

Lemma finishing_fulfilled C gen st i w :
  Inv C gen st → executing st !! i = Some (Finishing w) → w = Fulfilled tt.
Proof.
  intros HI Hw. destruct (executing_started _ _ _ _ _ HI Hw) as [p Hp].
  pose proof (inv_slot _ _ _ HI i p Hp) as Hslot.
  unfold slot_ok in Hslot. rewrite Hw in Hslot. by destruct Hslot.
Qed.

Lemma Step_Inv C gen st e st' : Inv C gen st → Step C st e st' → Inv C gen st'.
Proof.
  intros HI Hstep.
  pose proof (fresh_index _ _ _ HI) as Hfresh.
  destruct Hstep as [rs ex sd|rs ex promise rest sd|rs ex g sd p i promise Hi
                    |rs ex g sd p i w Hi|rs sd g].
  - (* the generator is exhausted *)
    destruct HI as [Hgen Hlen Hkeys Hslot Hpc Hsize]; simpl in *.
    by split.
  - (* a promise is pulled *)
    destruct HI as [Hgen Hlen Hkeys Hslot Hpc Hsize]; simpl in *.
    unfold pc_ok in Hpc; simpl in Hpc.
    assert (size (<[length rs := Running promise]> ex) = S (size ex)) as Hsz
      by (by apply map_size_insert_None).
    split; simpl.
    + by rewrite <-app_assoc.
    + rewrite !length_app. simpl. lia.
    + intros i w. rewrite lookup_insert, length_app. simpl.
      case_decide; [intros _; lia|]. intros Hw. apply Hkeys in Hw. lia.
    + intros i q [[Hlt Hq]|[-> <-]]%lookup_snoc_Some; unfold slot_ok; simpl.
      * specialize (Hslot i q Hq). unfold slot_ok in Hslot; simpl in Hslot.
        rewrite lookup_insert_ne by lia.
        by rewrite lookup_app_l by lia.
      * rewrite <-Hlen, lookup_insert_eq.
        split; [done|]. by rewrite list_lookup_middle.
    + unfold pc_ok; simpl. rewrite Hsz.
      destruct (Z.leb_spec C (Z.of_nat (S (size ex)))).
      * intros Hempty. apply (f_equal size) in Hempty.
        rewrite Hsz, map_size_empty in Hempty. done.
      * lia.
    + rewrite Hsz. lia.
  - (* a promise settles *)
    destruct (executing_started _ _ _ _ _ HI Hi) as [q Hq]. simpl in Hq.
    destruct HI as [Hgen Hlen Hkeys Hslot Hpc Hsize]; simpl in *.
    assert (size (<[i := Finishing (Fulfilled tt)]> ex) = size ex) as Hsz
      by (by apply map_size_insert_Some; eexists).
    pose proof (Hkeys _ _ Hi) as Hbound.
    split; simpl.
    + done.
    + by rewrite length_insert.
    + intros j w. rewrite lookup_insert, length_insert.
      case_decide; [by subst|]. apply Hkeys.
    + intros j q' Hq'. specialize (Hslot j q' Hq').
      unfold slot_ok in *; simpl in *.
      destruct (decide (i = j)) as [->|Hne].
      * rewrite lookup_insert_eq. rewrite Hi in Hslot.
        destruct Hslot as [-> _]. split; [done|].
        by rewrite list_lookup_insert_eq.
      * rewrite lookup_insert_ne by done.
        by rewrite list_lookup_insert_ne by done.
    + unfold pc_ok in *; simpl in *. destruct p; try done.
      * by rewrite Hsz.
      * intros Hempty. apply (f_equal (lookup i)) in Hempty.
        by rewrite lookup_insert_eq, lookup_empty in Hempty.
      * destruct Hpc as [_ ->]. by rewrite lookup_empty in Hi.
    + by rewrite Hsz.
  - (* a worker finishes *)
    pose proof (finishing_fulfilled _ _ _ _ _ HI Hi) as ->.
    destruct HI as [Hgen Hlen Hkeys Hslot Hpc Hsize]; simpl in *.
    assert (S (size (delete i ex)) = size ex) as Hsz.
    { rewrite map_size_delete, Hi. simpl.
      assert (size ex ≠ 0); [|lia].
      apply map_size_non_empty_iff. intros ->. by rewrite lookup_empty in Hi. }
    split; simpl.
    + done.
    + done.
    + intros j w. rewrite lookup_delete. case_decide; [done|]. apply Hkeys.
    + intros j q Hq. specialize (Hslot j q Hq).
      unfold slot_ok in *; simpl in *.
      destruct (decide (i = j)) as [->|Hne].
      * rewrite lookup_delete_eq. rewrite Hi in Hslot. by destruct Hslot.
      * by rewrite lookup_delete_ne.
    + unfold pc_ok in *; simpl in *. destruct p; simpl; try done; try lia.
      destruct Hpc as [_ ->]. by rewrite lookup_empty in Hi.
    + lia.
  - (* the driver returns *)
    destruct HI as [Hgen Hlen Hkeys Hslot Hpc Hsize]; simpl in *.
    split; simpl; try done.
Qed.

Lemma steps_Inv C gen es : ∀ st st',
  Inv C gen st → steps C es st = Some st' → Inv C gen st'.
Proof.
  induction es as [|e es IH]; intros st st' HI; simpl; [by intros [= <-]|].
  destruct (step C e st) as [st1|] eqn:Hstep; [|done].
  apply step_Step in Hstep. apply IH. by eapply Step_Inv.
Qed.

Lemma reachable_Inv C gen es st :
  steps C es (initial gen) = Some st → Inv C gen st.
Proof. apply steps_Inv, initial_Inv. Qed.

(** *** Termination: every step uses up one unit of the measure *)

Lemma Step_measure C gen st e st' :
  Inv C gen st → Step C st e st' → measure st = S (measure st').
Proof.
  intros HI Hstep.
  pose proof (fresh_index _ _ _ HI) as Hfresh.
  destruct Hstep as [rs ex sd|rs ex promise rest sd|rs ex g sd p i promise Hi
                    |rs ex g sd p i w Hi|rs sd g]; unfold measure; simpl in *.
  - lia.
  - rewrite load_insert_new by done. unfold worker_weight. simpl.
    destruct (_ <=? _)%Z; simpl; lia.
  - pose proof (load_replace ex i _ (Finishing (Fulfilled tt)) Hi) as Hload.
    unfold worker_weight in Hload. simpl in Hload. lia.
  - pose proof (finishing_fulfilled _ _ _ _ _ HI Hi) as ->.
    rewrite (load_delete ex i _ Hi). unfold worker_weight. simpl.
    destruct p; simpl; lia.
  - lia.
Qed.

Lemma steps_measure C gen es : ∀ st st',
  Inv C gen st → steps C es st = Some st' →
  measure st = length es + measure st'.
Proof.
  induction es as [|e es IH]; intros st st' HI; simpl; [by intros [= <-]|].
  destruct (step C e st) as [st1|] eqn:Hstep; [|done].
  apply step_Step in Hstep. intros Hrest.
  rewrite (Step_measure _ _ _ _ _ HI Hstep).
  rewrite (IH st1 st'); [lia | by eapply Step_Inv | done].
Qed.

Lemma initial_measure gen : measure (initial gen) = 3 * length gen + 2.
Proof. unfold measure, load. simpl. rewrite map_fold_empty. lia. Qed.

Lemma run_length C gen es st :
  steps C es (initial gen) = Some st → length es ≤ 3 * length gen + 2.
Proof.
  intros Hrun.
  pose proof (steps_measure C gen es _ _ (initial_Inv C gen) Hrun) as Hm.
  rewrite initial_measure in Hm. lia.
Qed.

(** *** Progress: a driver that has not returned can take a step *)

Lemma workers_can_move C st :
  executing st ≠ ∅ → ∃ e st', step C e st = Some st'.
Proof.
  intros (i & w & Hi)%map_choose. destruct w as [promise|w].
  - exists (Settle i). simpl. rewrite Hi.
    destruct promise; simpl; by eexists.
  - exists (Finish i). simpl. rewrite Hi. by eexists.
Qed.

Lemma progress C gen st :
  Inv C gen st → pc st ≠ Returned → ∃ e st', step C e st = Some st'.
Proof.
  intros HI Hpc. pose proof (inv_pc _ _ _ HI) as Hok. unfold pc_ok in Hok.
  destruct (pc st) eqn:Hp; try done.
  - exists Pull. simpl. rewrite Hp. destruct (generator st); by eexists.
  - by apply workers_can_move.
  - destruct (decide (executing st = ∅)) as [Hempty|Hne].
    + exists Return. simpl. rewrite Hp, decide_True by done. by eexists.
    + by apply workers_can_move.
Qed.

Lemma returned_or_not st : pc st = Returned ∨ pc st ≠ Returned.
Proof. destruct (pc st); (by left) || (by right). Qed.

(** Every run can be completed: from a reachable state the driver reaches
    its [return]. *)
Lemma can_return C gen : ∀ n st,
  measure st ≤ n → Inv C gen st →
  ∃ es st', steps C es st = Some st' ∧ pc st' = Returned.
Proof.
  induction n as [|n IH]; intros st Hn HI.
  - destruct (returned_or_not st) as [Hp|Hp]; [by exists [], st|].
    destruct (progress _ _ _ HI Hp) as (e & st1 & Hstep).
    apply step_Step in Hstep. pose proof (Step_measure _ _ _ _ _ HI Hstep). lia.
  - destruct (returned_or_not st) as [Hp|Hp]; [by exists [], st|].
    destruct (progress _ _ _ HI Hp) as (e & st1 & Hstep).
    pose proof Hstep as Hrel. apply step_Step in Hrel.
    pose proof (Step_measure _ _ _ _ _ HI Hrel) as Hm.
    destruct (IH st1) as (es & st' & Hrun & Hp'); [lia|by eapply Step_Inv|].
    exists (e :: es), st'. simpl. by rewrite Hstep.
Qed.

Lemma steps_app C es1 es2 : ∀ st st1,
  steps C es1 st = Some st1 → steps C (es1 ++ es2) st = steps C es2 st1.
Proof.
  induction es1 as [|e es1 IH]; intros st st1; simpl; [by intros [= ->]|].
  destruct (step C e st) as [st'|]; [apply IH|done].
Qed.

(** *** The results at the return *)

Lemma returned_started C gen st :
  Inv C gen st → pc st = Returned → started st = gen.
Proof.
  intros HI Hp. pose proof (inv_pc _ _ _ HI) as Hok. unfold pc_ok in Hok.
  rewrite Hp in Hok. destruct Hok as [Hg _].
  rewrite <-(inv_gen _ _ _ HI), Hg. by rewrite app_nil_r.
Qed.

Lemma returned_results C gen st :
  Inv C gen st → pc st = Returned → results st = outcome <$> gen.
Proof.
  intros HI Hp. pose proof (returned_started _ _ _ HI Hp) as Hst.
  pose proof (inv_pc _ _ _ HI) as Hok. unfold pc_ok in Hok.
  rewrite Hp in Hok. destruct Hok as [_ Hex].
  apply list_eq. intros i. rewrite list_lookup_fmap.
  destruct (gen !! i) as [p|] eqn:Hi; simpl.
  - rewrite <-Hst in Hi. pose proof (inv_slot _ _ _ HI i p Hi) as Hslot.
    unfold slot_ok in Hslot. by rewrite Hex, lookup_empty in Hslot.
  - apply lookup_ge_None. rewrite (inv_len _ _ _ HI), Hst.
    by apply lookup_ge_None.
Qed.

(** A settled promise has its entry, whether or not the driver has
    returned. *)
Lemma settled_recorded C gen st i p :
  Inv C gen st → started st !! i = Some p →
  executing st !! i ≠ Some (Running p) →
  results st !! i = Some (outcome p).
Proof.
  intros HI Hi Hnot. pose proof (inv_slot _ _ _ HI i p Hi) as Hslot.
  unfold slot_ok in Hslot.
  destruct (executing st !! i) as [[q|w]|]; [|by destruct Hslot|done].
  destruct Hslot as [-> _]. done.
Qed.

(** *** The outcomes do not steer the driver *)

Lemma same_shape_size st1 st2 :
  same_shape st1 st2 → size (executing st1) = size (executing st2).
Proof.
  intros (_ & _ & Hex & _).
  by rewrite <-(map_size_fmap is_running (executing st1)), Hex, map_size_fmap.
Qed.

Lemma same_shape_lookup st1 st2 i :
  same_shape st1 st2 →
  is_running <$> (executing st1 !! i) = is_running <$> (executing st2 !! i).
Proof. intros (_ & _ & Hex & _). by rewrite <-!lookup_fmap, Hex. Qed.

Lemma Step_same_shape C gen1 gen2 st1 st2 e st1' :
  Inv C gen1 st1 → Inv C gen2 st2 → same_shape st1 st2 →
  Step C st1 e st1' →
  ∃ st2', Step C st2 e st2' ∧ same_shape st1' st2'.
Proof.
  intros HI1 HI2 Hsame Hstep.
  pose proof (same_shape_size _ _ Hsame) as Hsize.
  pose proof (fresh_index _ _ _ HI1) as Hfresh1.
  pose proof (fresh_index _ _ _ HI2) as Hfresh2.
  destruct st2 as [rs2 ex2 g2 sd2 p2].
  destruct Hstep as [rs ex sd|rs ex promise rest sd|rs ex g sd p i promise Hi
                    |rs ex g sd p i w Hi|rs sd g].
  - destruct Hsame as (Hp & Hrs & Hex & Hg & Hsd); simpl in *. subst p2.
    destruct g2; [|done].
    eexists. split; [apply Step_exhausted|]. by repeat split.
  - destruct Hsame as (Hp & Hrs & Hex & Hg & Hsd); simpl in *. subst p2.
    destruct g2 as [|promise2 rest2]; [done|]. simpl in Hg.
    eexists. split; [apply Step_pull|].
    repeat split; simpl.
    + rewrite !map_size_insert_None by done. by rewrite Hsize.
    + rewrite !length_app. simpl. lia.
    + rewrite !fmap_insert. simpl. by rewrite Hex, Hrs.
    + lia.
    + rewrite !length_app. simpl. lia.
  - pose proof (same_shape_lookup _ _ i Hsame) as Hi2. simpl in Hi2.
    rewrite Hi in Hi2. simpl in Hi2.
    destruct (ex2 !! i) as [[promise2|w2]|] eqn:Hi2'; try done.
    destruct Hsame as (Hp & Hrs & Hex & Hg & Hsd); simpl in *.
    eexists. split; [by apply Step_settle|].
    repeat split; simpl; try done.
    + by rewrite !length_insert.
    + rewrite !fmap_insert. simpl. by rewrite Hex.
  - pose proof (same_shape_lookup _ _ i Hsame) as Hi2. simpl in Hi2.
    rewrite Hi in Hi2. simpl in Hi2.
    destruct (ex2 !! i) as [[promise2|w2]|] eqn:Hi2'; try done.
    pose proof (finishing_fulfilled _ _ _ _ _ HI1 Hi) as ->.
    pose proof (finishing_fulfilled _ _ _ _ _ HI2 Hi2') as ->.
    destruct Hsame as (Hp & Hrs & Hex & Hg & Hsd); simpl in *.
    eexists. split; [by apply Step_finish|].
    repeat split; simpl; try done.
    + by rewrite Hp.
    + rewrite !fmap_delete. by rewrite Hex.
  - destruct Hsame as (Hp & Hrs & Hex & Hg & Hsd); simpl in *. subst p2.
    rewrite fmap_empty in Hex. symmetry in Hex.
    apply fmap_empty_inv in Hex. subst ex2.
    eexists. split; [apply Step_return|]. by repeat split.
Qed.

Lemma steps_same_shape C gen1 gen2 es : ∀ st1 st2 st1',
  Inv C gen1 st1 → Inv C gen2 st2 → same_shape st1 st2 →
  steps C es st1 = Some st1' →
  ∃ st2', steps C es st2 = Some st2' ∧ same_shape st1' st2'.
Proof.
  induction es as [|e es IH]; intros st1 st2 st1' HI1 HI2 Hsame; simpl.
  - intros [= <-]. by exists st2.
  - destruct (step C e st1) as [st1a|] eqn:Hstep; [|done].
    apply step_Step in Hstep. intros Hrest.
    destruct (Step_same_shape _ _ _ _ _ _ _ HI1 HI2 Hsame Hstep)
      as (st2a & Hstep2 & Hsame').
    pose proof (Step_Inv _ _ _ _ _ HI1 Hstep) as HI1'.
    pose proof (Step_Inv _ _ _ _ _ HI2 Hstep2) as HI2'.
    apply step_Step in Hstep2. rewrite Hstep2.
    by apply (IH st1a st2a st1' HI1' HI2' Hsame').
Qed.

Lemma initial_same_shape gen1 gen2 :
  length gen1 = length gen2 → same_shape (initial gen1) (initial gen2).
Proof. intros Hlen. by repeat split. Qed.

(** The initiate phase of [coordinateUploads]: one entry per file id, in
    the order of the ids, and never more than 10 initiates in flight. *)
Lemma initiate_phase (fileIds : list string) (initiateFn : string → Settled T R)
    (es : list Event) st :
  processConcurrently (initiateFilesGenerator fileIds initiateFn)
    MAX_CONCURRENT_INITIATES es = Some st →
  outstanding st ≤ 10
  ∧ (pc st = Returned →
     results st = (λ fileId, outcome (initiateFn fileId)) <$> fileIds).
Proof.
  intros Hrun. pose proof (reachable_Inv _ _ _ _ Hrun) as HI. split.
  - pose proof (inv_size _ _ _ HI) as Hsize.
    pose proof (outstanding_le_executing st) as Hout.
    unfold MAX_CONCURRENT_INITIATES in Hsize. lia.
  - intros Hp. rewrite (returned_results _ _ _ HI Hp).
    unfold initiateFilesGenerator. by rewrite <-list_fmap_compose.
Qed.

(** *** The claims about the driver *)

(** C3.  For every list of items, every operation factory, every limit
    and every interleaving of the settlements with the driver: when the
    driver has returned, the result array has exactly one entry per item
    and the entry at index [i] is the outcome of the operation produced
    for item [i].  The driver does return: a run has at most [3 N + 2]
    steps, as long as it has not returned some step is enabled, and every
    run extends to one that returns, with these results. *)
Theorem C3_results_follow_input_order {A : Type} (items : list A)
    (produce : A → Settled T R) C (es : list Event) st :
  processConcurrently (produce <$> items) C es = Some st →
  (pc st = Returned →
     length (results st) = length items
     ∧ ∀ i item, items !! i = Some item →
         results st !! i = Some (outcome (produce item)))
  ∧ length es ≤ 3 * length items + 2
  ∧ (pc st ≠ Returned → ∃ e st', step C e st = Some st')
  ∧ (∃ es' st', processConcurrently (produce <$> items) C (es ++ es') = Some st'
                ∧ pc st' = Returned
                ∧ results st' = (λ item, outcome (produce item)) <$> items).
Proof.
  intros Hrun. pose proof (reachable_Inv _ _ _ _ Hrun) as HI.
  split; [|split; [|split]].
  - intros Hp. rewrite (returned_results _ _ _ HI Hp). split.
    + by rewrite !length_fmap.
    + intros i item Hi. by rewrite !list_lookup_fmap, Hi.
  - pose proof (run_length _ _ _ _ Hrun) as Hlen.
    by rewrite length_fmap in Hlen.
  - by apply (progress C (produce <$> items)).
  - destruct (can_return C _ _ st (le_n _) HI) as (es' & st' & Hrest & Hp).
    exists es', st'. unfold processConcurrently.
    rewrite (steps_app _ _ _ _ _ Hrun). split; [done|]. split; [done|].
    rewrite (returned_results C (produce <$> items) st');
      [by rewrite <-list_fmap_compose | by eapply steps_Inv | done].
Qed.

(** C4.  The limit of the driver is a number of operations, at least 1
    (the module passes 10 in both phases).  At every point of every run
    of the driver with such a limit [C], the number of operations started
    and not yet settled is at most [C], and so is the size of
    [executing]; every step of the driver and of the environment keeps
    the bound. *)
Theorem C4_outstanding_at_most_limit C gen (es : list Event) st :
  (1 ≤ C)%Z →
  processConcurrently gen C es = Some st →
  (Z.of_nat (outstanding st) ≤ C)%Z
  ∧ (Z.of_nat (size (executing st)) ≤ C)%Z
  ∧ (∀ e st', step C e st = Some st' →
       (Z.of_nat (outstanding st') ≤ C)%Z
       ∧ (Z.of_nat (size (executing st')) ≤ C)%Z).
Proof.
  intros Hpos Hrun. pose proof (reachable_Inv _ _ _ _ Hrun) as HI.
  pose proof (inv_size _ _ _ HI) as Hsize.
  pose proof (outstanding_le_executing st) as Hout.
  split; [lia|]. split; [lia|].
  intros e st' Hstep. apply step_Step in Hstep.
  pose proof (Step_Inv _ _ _ _ _ HI Hstep) as HI'.
  pose proof (inv_size _ _ _ HI') as Hsize'.
  pose proof (outstanding_le_executing st') as Hout'.
  split; lia.
Qed.

(** Outside that domain, with a limit below 1, the driver still registers
    a worker before it compares the size of [executing] with the limit: it
    runs the operations one at a time. *)
Lemma limit_below_one C gen (es : list Event) st :
  (C < 1)%Z →
  processConcurrently gen C es = Some st →
  outstanding st ≤ 1 ∧ size (executing st) ≤ 1.
Proof.
  intros Hlow Hrun. pose proof (reachable_Inv _ _ _ _ Hrun) as HI.
  pose proof (inv_size _ _ _ HI) as Hsize.
  pose proof (outstanding_le_executing st) as Hout.
  split; lia.
Qed.

(** C7.  Whatever the outcomes of the operations, along every run: the
    driver never throws; the promises started so far followed by those
    not yet yielded are the producer's sequence, so no item is started
    twice or skipped; a rejected operation that has settled has the
    entry [ResRejected] with its reason at its own index; when the
    driver has returned every item has been started and every rejected
    one has its failure entry; the driver can always go on until it has
    returned; and the same interleaving is a run for any other outcomes
    of the same number of operations, reaching the same control point
    with as many operations started. *)
Theorem C7_failures_recorded_never_thrown C gen (es : list Event) st :
  processConcurrently gen C es = Some st →
  (∀ r, pc st ≠ Threw r)
  ∧ started st ++ generator st = gen
  ∧ (∀ i r, started st !! i = Some (Rejected r) →
       executing st !! i ≠ Some (Running (Rejected r)) →
       results st !! i = Some (ResRejected r))
  ∧ (pc st = Returned →
       started st = gen
       ∧ ∀ i r, gen !! i = Some (Rejected r) →
           results st !! i = Some (ResRejected r))
  ∧ (pc st ≠ Returned → ∃ e st', step C e st = Some st')
  ∧ length es ≤ 3 * length gen + 2
  ∧ (∀ gen' : list (Settled T R), length gen' = length gen →
       ∃ st', processConcurrently gen' C es = Some st'
              ∧ pc st' = pc st
              ∧ length (started st') = length (started st)).
Proof.
  intros Hrun. pose proof (reachable_Inv _ _ _ _ Hrun) as HI.
  split; [|split; [|split; [|split; [|split; [|split]]]]].
  - intros r Hp. pose proof (inv_pc _ _ _ HI) as Hok.
    unfold pc_ok in Hok. by rewrite Hp in Hok.
  - exact (inv_gen _ _ _ HI).
  - intros i r Hi Hsettled.
    exact (settled_recorded _ _ _ _ _ HI Hi Hsettled).
  - intros Hp. split; [by eapply returned_started|].
    intros i r Hi. rewrite (returned_results _ _ _ HI Hp).
    by rewrite list_lookup_fmap, Hi.
  - by apply (progress C gen).
  - exact (run_length C gen es st Hrun).
  - intros gen' Hlen.
    destruct (steps_same_shape C gen gen' es _ _ _
                (initial_Inv C gen) (initial_Inv C gen')
                (initial_same_shape gen gen' (eq_sym Hlen)) Hrun)
      as (st' & Hrun' & Hp & _ & _ & _ & Hsd).
    exists st'. by repeat split.
Qed.

End Proofs.

Lemma out_of_order_run :
  processConcurrently (id <$> three_ops) 2 out_of_order = Some out_of_order_final.
Proof. by vm_compute. Qed.

Lemma C3_results_follow_input_order_witness :
  length (results out_of_order_final) = length three_ops
  ∧ results out_of_order_final !! 1 = Some (ResRejected "boom").
Proof.
  destruct (C3_results_follow_input_order three_ops id 2 out_of_order
              out_of_order_final out_of_order_run) as (Hres & _).
  destruct (Hres eq_refl) as [Hlen Hentries].
  split; [exact Hlen|]. exact (Hentries 1 (Rejected "boom") eq_refl).
Defined.

Lemma C4_outstanding_at_most_limit_witness :
  ∃ st, processConcurrently three_ops 2 [Pull; Pull] = Some st
        ∧ outstanding st = 2
        ∧ (Z.of_nat (outstanding st) ≤ 2)%Z.
Proof.
  destruct (processConcurrently three_ops 2 [Pull; Pull]) as [st|] eqn:Hrun;
    [|by vm_compute in Hrun].
  exists st. split; [reflexivity|]. split.
  - vm_compute in Hrun. injection Hrun as <-. by vm_compute.
  - by destruct (C4_outstanding_at_most_limit 2 three_ops [Pull; Pull] st
                   ltac:(lia) Hrun) as (Hbound & _).
Defined.

Lemma C7_failures_recorded_never_thrown_witness :
  results out_of_order_final !! 1 = Some (ResRejected "boom")
  ∧ ∃ st', processConcurrently all_succeed 2 out_of_order = Some st'
           ∧ pc st' = Returned.
Proof.
  destruct (C7_failures_recorded_never_thrown 2 (id <$> three_ops)
              out_of_order out_of_order_final out_of_order_run)
    as (_ & _ & _ & Hret & _ & _ & Hany).
  split.
  - destruct (Hret eq_refl) as [_ Hfail]. exact (Hfail 1 "boom" eq_refl).
  - destruct (Hany all_succeed eq_refl) as (st' & Hrun & Hp & _).
    exists st'. by split.
Defined.

End DriverProps.

(** * Properties of a batch of wrappers *)

Module BatchProps.
Import Gatekeeper GatekeeperProps Batch.

(** The loop of [processQueue] adds exactly the ids of the callers it
    resumes. *)
Lemma processQueueLoop_active maxSlots q : ∀ active k,
  is_Some ((processQueueLoop maxSlots active q).1.1 !! k)
  ↔ is_Some (active !! k) ∨ k ∈ fileId <$> (processQueueLoop maxSlots active q).2.
Proof.
  induction q as [|next rest IH]; intros active k; simpl.
  { rewrite elem_of_nil. tauto. }
  destruct (size active <? maxSlots); simpl; [|rewrite elem_of_nil; tauto].
  specialize (IH (<[fileId next := fileSize next]> active) k).
  destruct (processQueueLoop _ _ rest) as [[active' q'] resumed]. simpl in *.
  rewrite IH, lookup_insert_is_Some', elem_of_cons. (intuition (subst; congruence)).
Qed.

Lemma release_active id st k :
  is_Some (activeUploads (releaseUploadSlot id st).1 !! k)
  ↔ (k ≠ id ∧ is_Some (activeUploads st !! k))
    ∨ k ∈ fileId <$> (releaseUploadSlot id st).2.
Proof.
  unfold releaseUploadSlot. rewrite processQueue_loop. simpl.
  pose proof (processQueueLoop_active
                (getMaxConcurrentSlots (delete id (activeUploads st)))
                (queue st) (delete id (activeUploads st)) k) as Hloop.
  destruct (processQueueLoop _ _ (queue st)) as [[active' q'] resumed].
  simpl in *. rewrite Hloop, lookup_delete_is_Some. (intuition (subst; congruence)).
Qed.

Lemma release_queue id st :
  queue st = (releaseUploadSlot id st).2 ++ queue (releaseUploadSlot id st).1.
Proof.
  unfold releaseUploadSlot.
  by rewrite <-(processQueue_split (mkState (delete id (activeUploads st)) (queue st))).
Qed.

Lemma promote_lookup resumed : ∀ ph k,
  promote resumed ph !! k
  = if decide (k ∈ fileId <$> resumed) then Some Holding else ph !! k.
Proof.
  induction resumed as [|item rest IH]; intros ph k; [done|].
  change (promote (item :: rest) ph)
    with (<[fileId item := Holding]> (promote rest ph)).
  rewrite lookup_insert, IH, fmap_cons.
  destruct (decide (fileId item = k)) as [<-|Hne].
  - rewrite decide_True; [done | apply elem_of_cons; by left].
  - destruct (decide (k ∈ fileId <$> rest)) as [Hin|Hnot].
    + rewrite decide_True; [done | apply elem_of_cons; by right].
    + rewrite decide_False; [done|].
      intros [Heq|Hin]%elem_of_cons; [by subst k | done].
Qed.

Lemma initial_consistent : consistent initial.
Proof.
  split; [apply tidy_initial|]. split; intros id; simpl.
  - rewrite !lookup_empty. split; [by intros [? ?]|done].
  - rewrite lookup_empty, elem_of_nil. (intuition (subst; congruence)).
Qed.

Lemma step_consistent e s s' : consistent s → step e s = Some s' → consistent s'.
Proof.
  intros (Htidy & Hactive & Hqueue). destruct e as [id sz|id]; simpl.
  - (* a wrapper starts and calls [acquireUploadSlot] *)
    destruct (phases s !! id) as [ph|] eqn:Hid; [done|].
    assert (activeUploads (gate s) !! id = None) as Hnew.
    { apply eq_None_not_Some. rewrite Hactive, Hid. done. }
    assert (id ∉ fileId <$> queue (gate s)) as Hnotq.
    { rewrite Hqueue, Hid. done. }
    pose proof (tidy_exec (Acquire id sz) (gate s) Htidy (conj Hnew Hnotq)) as Htidy'.
    simpl in Htidy'. unfold acquireUploadSlot in *.
    destruct (size (activeUploads (gate s)) <? _); intros [= <-];
      (split; [exact Htidy'|]); simpl; split; intros k.
    + rewrite lookup_insert_is_Some', lookup_insert, Hactive.
      case_decide; (intuition (subst; congruence)).
    + rewrite lookup_insert, Hqueue. case_decide; (intuition (subst; congruence)).
    + rewrite lookup_insert, Hactive. case_decide; [|done]. subst k.
      rewrite Hid. (intuition (subst; congruence)).
    + rewrite fmap_app, elem_of_app, lookup_insert, Hqueue. simpl.
      rewrite list_elem_of_singleton. case_decide; (intuition (subst; congruence)).
  - (* an upload settles and the wrapper calls [releaseUploadSlot] *)
    destruct (phases s !! id) as [[| |]|] eqn:Hid; try done.
    pose proof (tidy_exec (Release id) (gate s) Htidy I) as Htidy'.
    pose proof (release_queue id (gate s)) as Hsplit.
    pose proof (release_active id (gate s)) as Hrel.
    simpl in Htidy'.
    destruct (releaseUploadSlot id (gate s)) as [g resumed]. simpl in *.
    intros [= <-]. split; [exact Htidy'|]. simpl.
    destruct Htidy as (Hnodup & _ & _).
    rewrite Hsplit, fmap_app in Hnodup.
    apply NoDup_app in Hnodup as (_ & Hdisjoint & _).
    split; intros k; rewrite promote_lookup, lookup_insert.
    + rewrite Hrel, Hactive. repeat case_decide; (intuition (subst; congruence)).
    + specialize (Hqueue k). rewrite Hsplit, fmap_app, elem_of_app in Hqueue.
      specialize (Hdisjoint k).
      repeat case_decide; try (intuition (subst; congruence)).
Qed.

Lemma steps_consistent es : ∀ s s',
  consistent s → steps es s = Some s' → consistent s'.
Proof.
  induction es as [|e es IH]; intros s s' Hs; simpl; [by intros [= <-]|].
  destruct (step e s) as [s1|] eqn:Hstep; [|done].
  apply IH. by eapply step_consistent.
Qed.

(** No slot leaks: when every wrapper of the batch has finished, nothing is
    active and nobody waits. *)
Lemma no_slot_leak es s :
  steps es initial = Some s →
  (∀ id ph, phases s !! id = Some ph → ph = Finished) →
  gate s = Gatekeeper.initial.
Proof.
  intros Hrun Hdone.
  destruct (steps_consistent es _ _ initial_consistent Hrun)
    as (_ & Hactive & Hqueue).
  destruct (gate s) as [active q]. simpl in *. unfold Gatekeeper.initial. f_equal.
  - apply map_empty. intros id. apply eq_None_not_Some. rewrite Hactive.
    intros Hid. by specialize (Hdone id Holding Hid).
  - apply elem_of_nil_inv. intros item Hitem.
    assert (fileId item ∈ fileId <$> q) as Hid
      by (apply list_elem_of_fmap; by exists item).
    apply Hqueue in Hid. by specialize (Hdone _ _ Hid).
Qed.

(** No wrapper waits in vain: while somebody waits, some upload holds a
    slot, and its settlement will run the queue. *)
Lemma waiting_behind_a_holder es s id :
  steps es initial = Some s →
  phases s !! id = Some Waiting →
  ∃ id', phases s !! id' = Some Holding.
Proof.
  intros Hrun Hid.
  destruct (steps_consistent es _ _ initial_consistent Hrun)
    as ((_ & _ & Hfull) & Hactive & Hqueue).
  apply Hqueue in Hid.
  destruct Hfull as [Hempty|Hfull].
  { rewrite Hempty in Hid. by apply elem_of_nil in Hid. }
  destruct (map_choose (activeUploads (gate s))) as (id' & sz & Hid').
  { apply map_size_non_empty_iff.
    pose proof (scanSizes_ge (map_to_list (activeUploads (gate s))).*2).
    unfold getMaxConcurrentSlots, MAX_CONCURRENT_LARGE in *. lia. }
  exists id'. apply Hactive. by eexists.
Qed.

Example sample_batch_leaves_nothing :
  gate <$> steps sample_batch initial = Some Gatekeeper.initial.
Proof. by vm_compute. Qed.

End BatchProps.

(** * Further properties of the gatekeeper *)

Module GatekeeperExtras.
Import Gatekeeper GatekeeperProps.

(** In a tidy state the drain has nothing to do. *)
Lemma processQueue_tidy_noop st : tidy st → processQueue st = (st, []).
Proof.
  intros (_ & _ & Hfull). destruct st as [active q]. unfold processQueue. simpl in *.
  destruct q as [|next rest]; [done|].
  destruct Hfull as [Hempty|Hfull]; [done|]. simpl.
  by destruct (Nat.ltb_spec (size active) (getMaxConcurrentSlots active)); [lia|].
Qed.

(** A drain leaves a tidy state, whatever the active count was before. *)
Lemma processQueue_makes_tidy st :
  NoDup (fileId <$> queue st) →
  (∀ id, id ∈ fileId <$> queue st → activeUploads st !! id = None) →
  tidy (processQueue st).1.
Proof.
  intros Hnodup Hwait. rewrite processQueue_loop. unfold tidy.
  pose proof (processQueueLoop_tidy (getMaxConcurrentSlots (activeUploads st))
                (queue st) (activeUploads st) Hnodup Hwait) as Hloop.
  pose proof (processQueueLoop_NoDup (getMaxConcurrentSlots (activeUploads st))
                (queue st) (activeUploads st) Hnodup) as Hnodup'.
  destruct (processQueueLoop _ _ (queue st)) as [[active' q'] resumed].
  simpl in *. destruct Hloop as (Hsub & Hwait' & Hfull).
  split; [done|]. split; [done|].
  destruct Hfull as [->|Hfull]; [by left|right].
  pose proof (capacity_anti_mono _ _ Hsub). lia.
Qed.

Lemma sample_run_tidy : tidy before_large_release.
Proof.
  apply tidy_run; [apply tidy_initial|].
  apply (bool_decide_unpack _). by vm_compute.
Qed.

(** X1.  Unique ids keep the gatekeeper work-conserving and fair to those
    who wait: in every state reached from a fresh coordinator by acquires,
    releases and resets that never reuse an id that is active or waiting,
    the waiting ids are pairwise distinct and not active, somebody waits
    only if the active count has reached the capacity, and so a newcomer
    is admitted at once only when nobody waits. *)
Theorem X1_work_conserving (ops : list Op) :
  all_fresh ops initial →
  let st := (run ops initial).1.1 in
  NoDup (fileId <$> queue st)
  ∧ (∀ id, id ∈ fileId <$> queue st → activeUploads st !! id = None)
  ∧ (queue st = []
     ∨ getMaxConcurrentSlots (activeUploads st) ≤ size (activeUploads st))
  ∧ (∀ id sz, (acquireUploadSlot id sz st).2 = true → queue st = []).
Proof.
  intros Hfresh st. pose proof (tidy_run ops initial tidy_initial Hfresh) as Htidy.
  fold st in Htidy. destruct Htidy as (Hnodup & Hwait & Hfull).
  repeat split; try done.
  intros id sz. by apply no_overtaking.
Qed.

Lemma X1_work_conserving_witness :
  getMaxConcurrentSlots (activeUploads before_large_release)
  ≤ size (activeUploads before_large_release).
Proof.
  assert (all_fresh large_release_ops initial) as Hfresh
    by (apply (bool_decide_unpack _); by vm_compute).
  destruct (X1_work_conserving large_release_ops Hfresh) as (_ & _ & Hfull & _).
  destruct Hfull as [Hempty|Hfull]; [by vm_compute in Hempty | exact Hfull].
Defined.

(** X2.  Releasing an id that is not active changes nothing in a tidy
    state: no entry is removed, the queue is not run, nobody is resumed.
    In particular a second release of the same id is harmless. *)
Theorem X2_release_of_inactive_id (id : string) (st : State) :
  tidy st →
  (activeUploads st !! id = None → releaseUploadSlot id st = (st, []))
  ∧ releaseUploadSlot id (releaseUploadSlot id st).1
    = ((releaseUploadSlot id st).1, []).
Proof.
  intros Htidy.
  assert (∀ st', tidy st' → activeUploads st' !! id = None →
                 releaseUploadSlot id st' = (st', [])) as Hnoop.
  { intros st' Htidy' Hid. unfold releaseUploadSlot. rewrite delete_id by done.
    destruct st' as [active q]. simpl. by apply processQueue_tidy_noop. }
  split; [by apply Hnoop|].
  apply Hnoop; [exact (tidy_exec (Release id) st Htidy I)|].
  destruct (activeUploads st !! id) as [sz|] eqn:Hid.
  - apply release_absent. destruct Htidy as (_ & Hwait & _).
    intros Hin. apply Hwait in Hin. congruence.
  - by rewrite (Hnoop st Htidy Hid).
Qed.

Lemma X2_release_of_inactive_id_witness :
  releaseUploadSlot "nobody" before_large_release = (before_large_release, []).
Proof.
  destruct (X2_release_of_inactive_id "nobody" before_large_release
              sample_run_tidy) as [Hnoop _].
  apply Hnoop. by vm_compute.
Defined.

(** X3.  Acquire and release undo each other up to the drain.  When an id
    that is not active is granted its slot at once, releasing it right
    away is the drain of the state before the acquire.  In a tidy state
    (the waiting ids are distinct and not active, and somebody waits only
    if the active count has reached the capacity: every state reached
    with unique ids) that drain does nothing: the release gives back
    exactly the state before the acquire and resumes nobody. *)
Theorem X3_acquire_release_round_trip (id : string) (sz : Z) (st : State) :
  activeUploads st !! id = None →
  (acquireUploadSlot id sz st).2 = true →
  releaseUploadSlot id (acquireUploadSlot id sz st).1 = processQueue st
  ∧ (tidy st →
     releaseUploadSlot id (acquireUploadSlot id sz st).1 = (st, [])).
Proof.
  intros Hnew Hready.
  assert (releaseUploadSlot id (acquireUploadSlot id sz st).1 = processQueue st)
    as Hdrain.
  { unfold acquireUploadSlot in *.
    destruct (size (activeUploads st) <? _); [|done]. simpl.
    unfold releaseUploadSlot. simpl.
    rewrite delete_insert_eq, delete_id by done. by destruct st. }
  split; [exact Hdrain|].
  intros Htidy. rewrite Hdrain. by apply processQueue_tidy_noop.
Qed.

Lemma X3_acquire_release_round_trip_witness :
  releaseUploadSlot "S5" (acquireUploadSlot "S5" (30 * MB) (mkState four_small [])).1
  = (mkState four_small [], []).
Proof.
  destruct (X3_acquire_release_round_trip "S5" (30 * MB)%Z (mkState four_small []))
    as [_ Hback]; [by vm_compute | by vm_compute |].
  apply Hback. split; [apply NoDup_nil_2|]. split; [|by left].
  intros id Hid. by apply elem_of_nil in Hid.
Defined.

(** X4.  A drain is complete: whatever the active count, once [processQueue]
    has run (on waiting ids that are distinct and not active) a second run
    right after it admits nobody and changes nothing. *)
Theorem X4_second_drain_is_idle (st : State) :
  NoDup (fileId <$> queue st) →
  (∀ id, id ∈ fileId <$> queue st → activeUploads st !! id = None) →
  processQueue (processQueue st).1 = ((processQueue st).1, []).
Proof.
  intros Hnodup Hwait. apply processQueue_tidy_noop.
  by apply processQueue_makes_tidy.
Qed.

Lemma X4_second_drain_is_idle_witness :
  processQueue (processQueue (mkState ∅ (queue before_large_release))).1
  = ((processQueue (mkState ∅ (queue before_large_release))).1, []).
Proof.
  apply X4_second_drain_is_idle.
  - apply (bool_decide_unpack _). by vm_compute.
  - intros id _. apply lookup_empty.
Defined.

(** X5.  The capacity is always 3 or 5, so: with fewer than 3 uploads active
    a candidate is admitted at once, whatever the sizes; with 5 or more
    active it is never admitted but appended to the queue, and the active
    map is untouched. *)
Theorem X5_admission_floor_and_ceiling (id : string) (sz : Z) (st : State) :
  (getMaxConcurrentSlots (activeUploads st) = 3
   ∨ getMaxConcurrentSlots (activeUploads st) = 5)
  ∧ (size (activeUploads st) < 3 →
     acquireUploadSlot id sz st
     = (mkState (<[id := sz]> (activeUploads st)) (queue st), true))
  ∧ (5 ≤ size (activeUploads st) →
     acquireUploadSlot id sz st
     = (mkState (activeUploads st) (queue st ++ [mkQueueItem id sz]), false)).
Proof.
  pose proof (scanSizes_ge (map_to_list (activeUploads st)).*2) as Hge.
  pose proof (capacity_le (activeUploads st)) as Hle.
  unfold MAX_CONCURRENT_LARGE, MAX_CONCURRENT_SMALL in *.
  fold (getMaxConcurrentSlots (activeUploads st)) in Hge.
  split; [|split].
  - destruct (decide (map_Forall (λ _ s, small s) (activeUploads st))) as [Hall|Hsome].
    + right. by apply capacity_all_small.
    + left. apply map_not_Forall in Hsome as (k & s & Hk & Hs); [|apply _].
      apply (capacity_some_large _ k s Hk). unfold small, large in *. lia.
  - intros Hlt. apply acquire_granted. lia.
  - intros Hfull. apply acquire_queued. lia.
Qed.

Lemma X5_admission_floor_and_ceiling_witness :
  (acquireUploadSlot "S9" (100 * MB) initial).2 = true
  ∧ (acquireUploadSlot "S9" (30 * MB) five_small_one_waiting).2 = false.
Proof.
  split.
  - destruct (X5_admission_floor_and_ceiling "S9" (100 * MB)%Z initial)
      as (_ & Hfloor & _).
    rewrite Hfloor; [done | vm_compute; lia].
  - destruct (X5_admission_floor_and_ceiling "S9" (30 * MB)%Z five_small_one_waiting)
      as (_ & _ & Hceil).
    rewrite Hceil; [done | vm_compute; lia].
Defined.

(** X6.  An id is never counted twice.  When [acquireUploadSlot] admits an
    id that is already active it replaces the recorded size and the active
    count stays as it was; only a new id raises the count, by one.  So two
    transfers under one id hold a single entry, and the first release
    deletes it: after that release the id is active exactly if the drain
    of that release admitted a waiting entry with the same id, and it is
    not active when no waiting entry carries the id. *)
Theorem X6_duplicate_id_shares_the_slot (id : string) (sz : Z) (st : State) :
  (acquireUploadSlot id sz st).2 = true →
  let st' := (acquireUploadSlot id sz st).1 in
  activeUploads st' !! id = Some sz
  ∧ size (activeUploads st')
    = match activeUploads st !! id with
      | Some _ => size (activeUploads st)
      | None => S (size (activeUploads st))
      end
  ∧ (is_Some (activeUploads (releaseUploadSlot id st').1 !! id)
     ↔ id ∈ fileId <$> (releaseUploadSlot id st').2)
  ∧ (id ∉ fileId <$> queue st →
     activeUploads (releaseUploadSlot id st').1 !! id = None).
Proof.
  intros Hready st'.
  assert (is_Some (activeUploads (releaseUploadSlot id st').1 !! id)
          ↔ id ∈ fileId <$> (releaseUploadSlot id st').2) as Hagain.
  { rewrite BatchProps.release_active. split; [|by right].
    by intros [[? _]|?]. }
  subst st'. unfold acquireUploadSlot in *.
  destruct (size (activeUploads st) <? _); [|done]. simpl in *.
  split; [apply lookup_insert_eq|]. split; [|split; [exact Hagain|]].
  - rewrite map_size_insert. by destruct (activeUploads st !! id).
  - intros Hq. by apply release_absent.
Qed.

Lemma X6_duplicate_id_shares_the_slot_witness :
  size (activeUploads (acquireUploadSlot "S1" (100 * MB) (mkState four_small [])).1) = 4
  ∧ activeUploads
      (releaseUploadSlot "S1"
         (acquireUploadSlot "S1" (100 * MB) (mkState four_small [])).1).1
    !! "S1" = None.
Proof.
  assert ((acquireUploadSlot "S1" (100 * MB) (mkState four_small [])).2 = true)
    as Hready by (by vm_compute).
  destruct (X6_duplicate_id_shares_the_slot "S1" (100 * MB)%Z
              (mkState four_small []) Hready) as (_ & Hsize & _ & Hgone).
  split; [rewrite Hsize; by vm_compute|].
  apply Hgone. apply not_elem_of_nil.
Defined.

End GatekeeperExtras.

(** * Further properties of a batch of wrappers *)

Module BatchExtras.
Import Gatekeeper GatekeeperProps Batch BatchProps.

Lemma step_size e s s' :
  size (activeUploads (gate s)) ≤ MAX_CONCURRENT_SMALL →
  step e s = Some s' →
  size (activeUploads (gate s')) ≤ MAX_CONCURRENT_SMALL.
Proof.
  intros Hsz. destruct e as [id sz|id]; simpl.
  - destruct (phases s !! id); [done|].
    pose proof (acquire_size id sz (gate s) Hsz) as Hacq.
    destruct (acquireUploadSlot id sz (gate s)) as [g ready]. by intros [= <-].
  - destruct (phases s !! id) as [[| |]|]; try done.
    pose proof (release_size id (gate s) Hsz) as Hrel.
    destruct (releaseUploadSlot id (gate s)) as [g resumed]. by intros [= <-].
Qed.

Lemma steps_size es : ∀ s s',
  size (activeUploads (gate s)) ≤ MAX_CONCURRENT_SMALL →
  steps es s = Some s' →
  size (activeUploads (gate s')) ≤ MAX_CONCURRENT_SMALL.
Proof.
  induction es as [|e es IH]; intros s s' Hsz; simpl; [by intros [= <-]|].
  destruct (step e s) as [s1|] eqn:Hstep; [|done].
  apply IH. by eapply step_size.
Qed.

(** X7.  In every interleaving of the wrappers of a batch with unique ids,
    starting from a fresh coordinator: the active uploads are exactly the
    wrappers that are past [acquireUploadSlot] and whose upload has not yet
    settled (so the id is active while [uploadFn] runs), the queue holds
    exactly the suspended wrappers, at most 5 hold a slot, and once every
    wrapper has finished the coordinator is back in its initial state: no
    slot has leaked. *)
Theorem X7_slots_belong_to_running_uploads (es : list Event) (s : System) :
  steps es initial = Some s →
  (∀ id, is_Some (activeUploads (gate s) !! id) ↔ phases s !! id = Some Holding)
  ∧ (∀ id, id ∈ fileId <$> queue (gate s) ↔ phases s !! id = Some Waiting)
  ∧ size (activeUploads (gate s)) ≤ 5
  ∧ ((∀ id ph, phases s !! id = Some ph → ph = Finished) →
     gate s = Gatekeeper.initial).
Proof.
  intros Hrun.
  destruct (steps_consistent es _ _ initial_consistent Hrun)
    as (_ & Hactive & Hqueue).
  split; [done|]. split; [done|]. split.
  - apply (steps_size es initial s); [|done]. simpl. rewrite map_size_empty.
    unfold MAX_CONCURRENT_SMALL. lia.
  - by apply (no_slot_leak es).
Qed.

Lemma X7_slots_belong_to_running_uploads_witness :
  gate <$> steps sample_batch initial = Some Gatekeeper.initial.
Proof.
  destruct (steps sample_batch initial) as [s|] eqn:Hrun; [|by vm_compute in Hrun].
  destruct (X7_slots_belong_to_running_uploads sample_batch s Hrun)
    as (_ & _ & _ & Hleak).
  simpl. f_equal. apply Hleak.
  vm_compute in Hrun. injection Hrun as <-.
  apply (bool_decide_unpack (map_Forall (λ _ ph, ph = Finished) _)).
  by vm_compute.
Defined.

(** X8.  Nobody waits in vain: while a wrapper is suspended in
    [acquireUploadSlot], at least 3 uploads hold a slot, so some wrapper is
    past the gatekeeper, and its [finally] block will run the queue. *)
Theorem X8_nobody_waits_in_vain (es : list Event) (s : System) (id : string) :
  steps es initial = Some s →
  phases s !! id = Some Waiting →
  3 ≤ size (activeUploads (gate s))
  ∧ ∃ id', phases s !! id' = Some Holding.
Proof.
  intros Hrun Hid. split; [|by apply (waiting_behind_a_holder es s id)].
  destruct (steps_consistent es _ _ initial_consistent Hrun)
    as ((_ & _ & Hfull) & _ & Hqueue).
  apply Hqueue in Hid. destruct Hfull as [Hempty|Hfull].
  { rewrite Hempty in Hid. by apply elem_of_nil in Hid. }
  pose proof (scanSizes_ge (map_to_list (activeUploads (gate s))).*2).
  unfold getMaxConcurrentSlots, MAX_CONCURRENT_LARGE in *. lia.
Qed.

Lemma X8_nobody_waits_in_vain_witness :
  ∃ s id', steps (take 6 sample_batch) initial = Some s
           ∧ phases s !! id' = Some Holding.
Proof.
  destruct (steps (take 6 sample_batch) initial) as [s|] eqn:Hrun;
    [|by vm_compute in Hrun].
  pose proof (X8_nobody_waits_in_vain (take 6 sample_batch) s "L2" Hrun) as Hwait.
  assert (phases s !! "L2" = Some Waiting) as Hphase.
  { vm_compute in Hrun. injection Hrun as <-. vm_compute. reflexivity. }
  destruct (Hwait Hphase) as [_ [id' Hid']].
  exists s, id'. split; [reflexivity | exact Hid'].
Defined.

End BatchExtras.

(** * Properties of the upload phase and of [coordinateUploads] *)

Module PipelineProps.
Import Promise Gatekeeper GatekeeperProps Batch BatchProps BatchExtras.
Import Driver DriverProps Pipeline.

#[local] Arguments Batch.step : simpl never.

Section Proofs.
Context {T R : Type}.
Implicit Types (files : list QueueItem) (uploadFn : string → Settled T R).
Implicit Types (s : Pipeline.State T R) (C : Z) (e : Driver.Event).

Lemma file_index_unique files i j f g :
  NoDup (fileId <$> files) →
  files !! i = Some f → files !! j = Some g → fileId f = fileId g → i = j.
Proof.
  intros Hnodup Hi Hj Heq.
  apply (NoDup_lookup (fileId <$> files) i j (fileId f) Hnodup);
    rewrite list_lookup_fmap; [by rewrite Hi | by rewrite Hj, Heq].
Qed.

Lemma file_of_id files id :
  id ∈ fileId <$> files → ∃ i file, files !! i = Some file ∧ fileId file = id.
Proof.
  intros (file & -> & Hin)%list_elem_of_fmap.
  apply list_elem_of_lookup in Hin as [i Hi]. by exists i, file.
Qed.

(** What the start of a wrapper does to the phases. *)
Lemma start_phases id sz (b b' : System) :
  Batch.step (Start id sz) b = Some b' →
  phases b !! id = None
  ∧ ∃ ph, (ph = Waiting ∨ ph = Holding) ∧ phases b' = <[id := ph]> (phases b).
Proof.
  unfold Batch.step. destruct (phases b !! id); [done|].
  destruct (acquireUploadSlot id sz (Batch.gate b)) as [g ready].
  intros [= <-]. split; [done|]. simpl.
  destruct ready; [exists Holding | exists Waiting]; split; auto.
Qed.

(** What the settlement of an upload does to the phases: its wrapper has
    finished, and the wrappers that the drain resumed, which were waiting,
    hold a slot. *)
Lemma settle_phases id (b b' : System) :
  consistent b →
  Batch.step (UploadSettles id) b = Some b' →
  phases b !! id = Some Holding
  ∧ phases b' !! id = Some Finished
  ∧ ∀ id', id' ≠ id →
      phases b' !! id' = phases b !! id'
      ∨ (phases b !! id' = Some Waiting ∧ phases b' !! id' = Some Holding).
Proof.
  intros (Htidy & Hactive & Hqueue). unfold Batch.step.
  destruct (phases b !! id) as [[| |]|] eqn:Hid; try done.
  pose proof (release_queue id (Batch.gate b)) as Hsplit.
  destruct (releaseUploadSlot id (Batch.gate b)) as [g resumed]. simpl in *.
  intros [= <-]. split; [done|]. simpl.
  assert (∀ k, k ∈ fileId <$> resumed → phases b !! k = Some Waiting) as Hres.
  { intros k Hk. apply Hqueue. rewrite Hsplit, fmap_app, elem_of_app. by left. }
  split.
  - rewrite promote_lookup, lookup_insert_eq.
    destruct (decide (id ∈ fileId <$> resumed)) as [Hin|Hnot]; [|done].
    rewrite (Hres id Hin) in Hid. done.
  - intros id' Hne. rewrite promote_lookup, lookup_insert_ne by done.
    destruct (decide (id' ∈ fileId <$> resumed)) as [Hin|Hnot]; [|by left].
    right. by rewrite (Hres id' Hin).
Qed.

Lemma upload_initial_Inv files uploadFn C :
  Pipeline.Inv files uploadFn C (initial files uploadFn).
Proof.
  split; simpl.
  - apply DriverProps.initial_Inv.
  - apply initial_consistent.
  - intros i file Hi. simpl. rewrite lookup_empty. simpl. apply lookup_empty.
  - intros id [ph Hph]. simpl in Hph. by rewrite lookup_empty in Hph.
  - rewrite map_size_empty. lia.
Qed.

Lemma step_Inv files uploadFn C e s s' :
  NoDup (fileId <$> files) →
  Pipeline.Inv files uploadFn C s →
  Pipeline.step files C e s = Some s' →
  Pipeline.Inv files uploadFn C s'.
Proof.
  intros Hnodup HI Hstep. unfold Pipeline.step in Hstep.
  destruct (Driver.step C e (driver s)) as [d'|] eqn:Hd; [|done].
  pose proof Hd as Hrel. apply step_Step in Hrel.
  pose proof (Step_Inv _ _ _ _ _ (inv_driver _ _ _ _ HI) Hrel) as HD'.
  pose proof (fresh_index _ _ _ (inv_driver _ _ _ _ HI)) as Hfresh.
  destruct s as [d b]. destruct HI as [HD HB HL HK HA]. simpl in *.
  destruct Hrel as [rs ex sd|rs ex promise rest sd|rs ex g sd p i promise Hi
                   |rs ex g sd p i w Hi|rs sd g]; simpl in *.
  - (* the generator is exhausted *)
    injection Hstep as <-. by split.
  - (* a wrapper is started *)
    destruct (files !! length rs) as [file|] eqn:Hfile; [|done].
    destruct (Batch.step _ b) as [b'|] eqn:Hb; [|done].
    injection Hstep as <-.
    destruct (start_phases _ _ _ _ Hb) as (Hnone & ph & Hph & Hphases).
    split; simpl.
    + done.
    + by eapply step_consistent.
    + intros j file' Hj. specialize (HL j file' Hj). simpl in *.
      rewrite Hphases. destruct (decide (j = length rs)) as [->|Hne].
      * rewrite lookup_insert_eq. rewrite Hfile in Hj. injection Hj as <-.
        rewrite lookup_insert_eq. destruct Hph as [->| ->]; auto.
      * rewrite lookup_insert_ne by done.
        rewrite lookup_insert_ne
          by (intros Heq; apply Hne;
              exact (eq_sym (file_index_unique _ _ _ _ _ Hnodup Hfile Hj Heq))).
        destruct (ex !! j) as [[q|w]|]; try done.
        rewrite HL, length_app. simpl.
        destruct (decide (j < length rs)).
        -- by rewrite !bool_decide_eq_true_2 by lia.
        -- by rewrite !bool_decide_eq_false_2 by lia.
    + intros id. unfold known in HK. simpl in *.
      rewrite Hphases, lookup_insert_is_Some'.
      intros [<-|Hid]; [|by apply HK].
      apply list_elem_of_fmap. exists file. split; [done|].
      by eapply list_elem_of_lookup_2.
    + by eapply (step_size _ b b').
  - (* the upload of a wrapper settles *)
    destruct (files !! i) as [file|] eqn:Hfile; [|done].
    destruct (Batch.step _ b) as [b'|] eqn:Hb; [|done].
    injection Hstep as <-.
    destruct (settle_phases _ _ _ HB Hb) as (Hhold & Hdone & Hothers).
    split; simpl.
    + done.
    + by eapply step_consistent.
    + intros j file' Hj. specialize (HL j file' Hj). simpl in *.
      rewrite length_insert. destruct (decide (i = j)) as [->|Hne].
      * rewrite lookup_insert_eq. rewrite Hfile in Hj. by injection Hj as <-.
      * rewrite lookup_insert_ne by done.
        assert (fileId file' ≠ fileId file) as Hid
          by (intros Heq; apply Hne;
              exact (file_index_unique _ _ _ _ _ Hnodup Hfile Hj (eq_sym Heq))).
        destruct (Hothers (fileId file') Hid) as [Hsame|[Hwas Hnow]].
        -- by rewrite Hsame.
        -- rewrite Hwas in HL. rewrite Hnow.
           destruct (ex !! j) as [[q|w]|]; [by right|done|].
           by destruct (bool_decide (j < length rs)).
    + intros id. unfold known in HK. simpl in *. intros Hid.
      destruct (decide (id = fileId file)) as [->|Hne]; [apply HK; by eexists|].
      apply HK. destruct (Hothers id Hne) as [Hsame|[Hwas _]].
      * by rewrite <-Hsame.
      * by eexists.
    + by eapply (step_size _ b b').
  - (* a worker finishes *)
    injection Hstep as <-. split; simpl; try done.
    intros j file Hj. specialize (HL j file Hj). simpl in *.
    destruct (decide (i = j)) as [->|Hne].
    + rewrite lookup_delete_eq. rewrite Hi in HL.
      pose proof (Driver.inv_keys _ _ _ HD j _ Hi) as Hlt. simpl in Hlt.
      by rewrite bool_decide_eq_true_2.
    + by rewrite lookup_delete_ne.
  - (* the driver returns *)
    injection Hstep as <-. by split.
Qed.

Lemma upload_steps_Inv files uploadFn C es : ∀ s s',
  NoDup (fileId <$> files) →
  Pipeline.Inv files uploadFn C s →
  Pipeline.steps files C es s = Some s' →
  Pipeline.Inv files uploadFn C s'.
Proof.
  induction es as [|e es IH]; intros s s' Hnodup HI; simpl; [by intros [= <-]|].
  destruct (Pipeline.step files C e s) as [s1|] eqn:Hstep; [|done].
  apply IH; [done|]. by eapply step_Inv.
Qed.

(** *** The driver's view of a run of the phase *)

Lemma step_driver files C e s s' :
  Pipeline.step files C e s = Some s' →
  Driver.step C e (driver s) = Some (driver s').
Proof.
  unfold Pipeline.step. destruct (Driver.step C e (driver s)) as [d'|]; [|done].
  destruct e as [|i|i|].
  - destruct (generator (driver s)); [by intros [= <-]|].
    destruct (files !! _); [|done]. destruct (Batch.step _ _); [|done].
    by intros [= <-].
  - destruct (files !! i); [|done]. destruct (Batch.step _ _); [|done].
    by intros [= <-].
  - by intros [= <-].
  - by intros [= <-].
Qed.

Lemma steps_driver files C es : ∀ s s',
  Pipeline.steps files C es s = Some s' →
  Driver.steps C es (driver s) = Some (driver s').
Proof.
  induction es as [|e es IH]; intros s s'; simpl; [by intros [= <-]|].
  destruct (Pipeline.step files C e s) as [s1|] eqn:Hstep; [|done].
  rewrite (step_driver _ _ _ _ _ Hstep). apply IH.
Qed.

Lemma upload_steps_app files C es1 es2 : ∀ s s1,
  Pipeline.steps files C es1 s = Some s1 →
  Pipeline.steps files C (es1 ++ es2) s = Pipeline.steps files C es2 s1.
Proof.
  induction es1 as [|e es1 IH]; intros s s1; simpl; [by intros [= ->]|].
  destruct (Pipeline.step files C e s) as [s'|]; [apply IH|done].
Qed.

(** *** Progress: the phase cannot get stuck *)

Lemma pulled_file files uploadFn C s promise rest :
  Pipeline.Inv files uploadFn C s →
  generator (driver s) = promise :: rest →
  ∃ file, files !! length (results (driver s)) = Some file
          ∧ phases (batch s) !! fileId file = None.
Proof.
  intros HI Hgen. pose proof (inv_driver _ _ _ _ HI) as HD.
  assert (length (results (driver s)) < length files) as Hlt.
  { pose proof (f_equal length (Driver.inv_gen _ _ _ HD)) as Hlen.
    rewrite length_app, Hgen in Hlen. unfold processUploadsGenerator in Hlen.
    rewrite length_fmap in Hlen. simpl in Hlen.
    rewrite (Driver.inv_len _ _ _ HD). lia. }
  destruct (lookup_lt_is_Some_2 _ _ Hlt) as [file Hfile].
  exists file. split; [done|].
  pose proof (inv_linked _ _ _ _ HI _ _ Hfile) as Hlink.
  rewrite (fresh_index _ _ _ HD) in Hlink.
  by rewrite bool_decide_eq_false_2 in Hlink by lia.
Qed.

Lemma worker_file files uploadFn C s i w :
  Pipeline.Inv files uploadFn C s →
  executing (driver s) !! i = Some w → ∃ file, files !! i = Some file.
Proof.
  intros HI Hi. pose proof (inv_driver _ _ _ _ HI) as HD.
  apply lookup_lt_is_Some_2.
  pose proof (Driver.inv_keys _ _ _ HD _ _ Hi) as Hlt.
  pose proof (f_equal length (Driver.inv_gen _ _ _ HD)) as Hlen.
  rewrite length_app in Hlen. unfold processUploadsGenerator in Hlen.
  rewrite length_fmap in Hlen. rewrite (Driver.inv_len _ _ _ HD) in Hlt. lia.
Qed.

Lemma can_settle files C s i file promise :
  files !! i = Some file →
  executing (driver s) !! i = Some (Running promise) →
  phases (batch s) !! fileId file = Some Holding →
  ∃ s', Pipeline.step files C (Settle i) s = Some s'.
Proof.
  intros Hfile Hi Hphase. unfold Pipeline.step, Batch.step. simpl.
  rewrite Hi, Hfile, Hphase.
  destruct promise; simpl;
    destruct (releaseUploadSlot (fileId file) (Batch.gate (batch s)));
    by eexists.
Qed.

Lemma upload_workers_can_move files uploadFn C s :
  Pipeline.Inv files uploadFn C s →
  executing (driver s) ≠ ∅ →
  ∃ e s', Pipeline.step files C e s = Some s'.
Proof.
  intros HI (i & w & Hi)%map_choose. destruct w as [promise|w].
  - destruct (worker_file _ _ _ _ _ _ HI Hi) as [file Hfile].
    pose proof (inv_linked _ _ _ _ HI _ _ Hfile) as Hlink. rewrite Hi in Hlink.
    destruct Hlink as [Hwait|Hhold].
    + (* the wrapper waits: somebody else holds a slot *)
      destruct (inv_batch _ _ _ _ HI) as ((_ & _ & Hfull) & Hactive & Hqueue).
      apply Hqueue in Hwait. destruct Hfull as [Hempty|Hfull].
      { rewrite Hempty in Hwait. by apply elem_of_nil in Hwait. }
      destruct (map_choose (activeUploads (Batch.gate (batch s))))
        as (id' & sz & Hid').
      { apply map_size_non_empty_iff.
        pose proof (scanSizes_ge (map_to_list (activeUploads (Batch.gate (batch s)))).*2).
        unfold getMaxConcurrentSlots, MAX_CONCURRENT_LARGE in *. lia. }
      assert (phases (batch s) !! id' = Some Holding) as Hhold
        by (apply Hactive; by eexists).
      destruct (file_of_id files id') as (i' & file' & Hfile' & <-).
      { apply (inv_known _ _ _ _ HI). by eexists. }
      pose proof (inv_linked _ _ _ _ HI _ _ Hfile') as Hlink'.
      rewrite Hhold in Hlink'.
      destruct (executing (driver s) !! i') as [[promise'|w']|] eqn:Hi'.
      * exists (Settle i'). by eapply can_settle.
      * done.
      * by destruct (bool_decide _).
    + exists (Settle i). by eapply can_settle.
  - exists (Finish i). unfold Pipeline.step. simpl. rewrite Hi. by eexists.
Qed.

Lemma upload_progress files uploadFn C s :
  Pipeline.Inv files uploadFn C s →
  pc (driver s) ≠ Returned →
  ∃ e s', Pipeline.step files C e s = Some s'.
Proof.
  intros HI Hpc. pose proof (Driver.inv_pc _ _ _ (inv_driver _ _ _ _ HI)) as Hok.
  unfold pc_ok in Hok. destruct (pc (driver s)) eqn:Hp; try done.
  - exists Pull. unfold Pipeline.step. simpl. rewrite Hp.
    destruct (generator (driver s)) as [|promise rest] eqn:Hgen; [by eexists|].
    destruct (pulled_file _ _ _ _ _ _ HI Hgen) as (file & Hfile & Hnew).
    rewrite Hfile. unfold Batch.step. rewrite Hnew.
    destruct (acquireUploadSlot _ _ _). by eexists.
  - by eapply upload_workers_can_move.
  - destruct (decide (executing (driver s) = ∅)) as [Hempty|Hne].
    + exists Return. unfold Pipeline.step. simpl.
      rewrite Hp, decide_True by done. by eexists.
    + by eapply upload_workers_can_move.
Qed.

Lemma upload_can_return files uploadFn C : ∀ n s,
  NoDup (fileId <$> files) →
  measure (driver s) ≤ n →
  Pipeline.Inv files uploadFn C s →
  ∃ es s', Pipeline.steps files C es s = Some s' ∧ pc (driver s') = Returned.
Proof.
  induction n as [|n IH]; intros s Hnodup Hn HI;
    (destruct (returned_or_not (driver s)) as [Hp|Hp]; [by exists [], s|]);
    destruct (upload_progress _ _ _ _ HI Hp) as (e & s1 & Hstep);
    pose proof (step_driver _ _ _ _ _ Hstep) as Hrel; apply step_Step in Hrel;
    pose proof (Step_measure _ _ _ _ _ (inv_driver _ _ _ _ HI) Hrel) as Hm.
  - lia.
  - destruct (IH s1) as (es & s' & Hrun & Hp'); [done|lia|by eapply step_Inv|].
    exists (e :: es), s'. simpl. by rewrite Hstep.
Qed.

(** *** The end of the phase *)

Lemma returned_gate files uploadFn C s :
  Pipeline.Inv files uploadFn C s →
  pc (driver s) = Returned →
  Batch.gate (batch s) = Gatekeeper.initial.
Proof.
  intros HI Hp. pose proof (inv_driver _ _ _ _ HI) as HD.
  pose proof (Driver.inv_pc _ _ _ HD) as Hok. unfold pc_ok in Hok.
  rewrite Hp in Hok. destruct Hok as [_ Hex].
  destruct (inv_batch _ _ _ _ HI) as (_ & Hactive & Hqueue).
  assert (∀ id ph, phases (batch s) !! id = Some ph → ph = Finished) as Hdone.
  { intros id ph Hid.
    destruct (file_of_id files id) as (i & file & Hfile & <-).
    { apply (inv_known _ _ _ _ HI). by eexists. }
    pose proof (inv_linked _ _ _ _ HI _ _ Hfile) as Hlink.
    rewrite Hex, lookup_empty, Hid in Hlink.
    destruct (bool_decide _); congruence. }
  destruct (Batch.gate (batch s)) as [active q]. simpl in *.
  unfold Gatekeeper.initial. f_equal.
  - apply map_empty. intros id. apply eq_None_not_Some. rewrite Hactive.
    intros Hid. by specialize (Hdone id Holding Hid).
  - apply elem_of_nil_inv. intros item Hitem.
    assert (fileId item ∈ fileId <$> q) as Hid
      by (apply list_elem_of_fmap; by exists item).
    apply Hqueue in Hid. by specialize (Hdone _ _ Hid).
Qed.

(** *** The upload phase: what a caller can rely on *)

(** X9.  The two layers of the upload phase.  At every point of every run of
    the upload phase over files with unique ids, from a fresh coordinator:
    at most [max C 1] wrappers are in flight, at most 5 of them hold a
    bandwidth slot, every active upload belongs to a wrapper the driver has
    started and whose promise has not settled, and a file the driver has not
    pulled yet has not reached the gatekeeper: it is neither active nor
    waiting. *)
Theorem X9_two_layers files uploadFn C (es : list Driver.Event) s :
  NoDup (fileId <$> files) →
  Pipeline.steps files C es (initial files uploadFn) = Some s →
  (Z.of_nat (size (executing (driver s))) ≤ Z.max C 1)%Z
  ∧ size (activeUploads (Batch.gate (batch s))) ≤ 5
  ∧ (∀ id, is_Some (activeUploads (Batch.gate (batch s)) !! id) →
       ∃ i file promise,
         files !! i = Some file ∧ fileId file = id
         ∧ executing (driver s) !! i = Some (Running promise))
  ∧ (∀ i file, files !! i = Some file → length (results (driver s)) ≤ i →
       activeUploads (Batch.gate (batch s)) !! fileId file = None
       ∧ fileId file ∉ fileId <$> queue (Batch.gate (batch s))).
Proof.
  intros Hnodup Hrun.
  pose proof (upload_steps_Inv _ _ _ _ _ _ Hnodup
                (upload_initial_Inv files uploadFn C) Hrun) as HI.
  pose proof (inv_driver _ _ _ _ HI) as HD.
  destruct (inv_batch _ _ _ _ HI) as (_ & Hactive & Hqueue).
  split; [exact (Driver.inv_size _ _ _ HD)|].
  split; [exact (inv_active _ _ _ _ HI)|]. split.
  - intros id Hid. apply Hactive in Hid.
    destruct (file_of_id files id) as (i & file & Hfile & <-).
    { apply (inv_known _ _ _ _ HI). by eexists. }
    pose proof (inv_linked _ _ _ _ HI _ _ Hfile) as Hlink. rewrite Hid in Hlink.
    destruct (executing (driver s) !! i) as [[promise|w]|] eqn:Hi.
    + by exists i, file, promise.
    + done.
    + by destruct (bool_decide _).
  - intros i file Hfile Hlater.
    pose proof (inv_linked _ _ _ _ HI _ _ Hfile) as Hlink.
    destruct (executing (driver s) !! i) as [w|] eqn:Hi.
    { pose proof (Driver.inv_keys _ _ _ HD _ _ Hi). lia. }
    rewrite bool_decide_eq_false_2 in Hlink by lia.
    split.
    + apply eq_None_not_Some. rewrite Hactive, Hlink. done.
    + rewrite Hqueue, Hlink. done.
Qed.

(** X10.  The upload phase cannot deadlock.  Over files with unique ids
    every run has at most [3 N + 2] steps, a phase that has not returned can
    always take a step (some upload that holds a slot can settle, some
    worker can finish, or the driver can pull), and every run extends to one
    in which the driver returns. *)
Theorem X10_upload_phase_completes files uploadFn C (es : list Driver.Event) s :
  NoDup (fileId <$> files) →
  Pipeline.steps files C es (initial files uploadFn) = Some s →
  length es ≤ 3 * length files + 2
  ∧ (pc (driver s) ≠ Returned → ∃ e s', Pipeline.step files C e s = Some s')
  ∧ ∃ es' s', Pipeline.steps files C (es ++ es') (initial files uploadFn) = Some s'
              ∧ pc (driver s') = Returned.
Proof.
  intros Hnodup Hrun.
  pose proof (upload_steps_Inv _ _ _ _ _ _ Hnodup
                (upload_initial_Inv files uploadFn C) Hrun) as HI.
  split; [|split].
  - pose proof (run_length C _ es _ (steps_driver _ _ _ _ _ Hrun)) as Hlen.
    unfold processUploadsGenerator in Hlen. by rewrite length_fmap in Hlen.
  - by apply (upload_progress files uploadFn).
  - destruct (upload_can_return files uploadFn C _ s Hnodup (le_n _) HI)
      as (es' & s' & Hrest & Hp).
    exists es', s'. by rewrite (upload_steps_app _ _ _ _ _ _ Hrun).
Qed.

(** X11.  When the upload phase has returned, over files with unique ids:
    the result array has one entry per file, in the order of the files,
    each the outcome of the upload of that file, and the coordinator is
    back in its initial state, with no upload active and nobody waiting. *)
Theorem X11_upload_phase_result files uploadFn C (es : list Driver.Event) s :
  NoDup (fileId <$> files) →
  Pipeline.steps files C es (initial files uploadFn) = Some s →
  pc (driver s) = Returned →
  results (driver s) = (λ file, outcome (uploadFn (fileId file))) <$> files
  ∧ Batch.gate (batch s) = Gatekeeper.initial.
Proof.
  intros Hnodup Hrun Hp.
  pose proof (upload_steps_Inv _ _ _ _ _ _ Hnodup
                (upload_initial_Inv files uploadFn C) Hrun) as HI.
  split; [|by eapply returned_gate].
  rewrite (returned_results _ _ _ (inv_driver _ _ _ _ HI) Hp).
  unfold processUploadsGenerator. by rewrite <-list_fmap_compose.
Qed.

End Proofs.

Lemma sample_files_NoDup : NoDup (fileId <$> sample_files).
Proof. apply (bool_decide_unpack _). by vm_compute. Qed.

Lemma X9_two_layers_witness :
  ∃ s, Pipeline.steps sample_files 10 (take 4 sample_schedule)
         (initial sample_files sample_upload) = Some s
       ∧ size (activeUploads (Batch.gate (batch s))) ≤ 5.
Proof.
  destruct (Pipeline.steps sample_files 10 (take 4 sample_schedule)
              (initial sample_files sample_upload)) as [s|] eqn:Hrun;
    [|by vm_compute in Hrun].
  exists s. split; [reflexivity|].
  by destruct (X9_two_layers sample_files sample_upload 10 _ s
                 sample_files_NoDup Hrun) as (_ & Hfive & _).
Defined.

Lemma X10_upload_phase_completes_witness :
  ∃ s e s', Pipeline.steps sample_files 10 (take 4 sample_schedule)
              (initial sample_files sample_upload) = Some s
            ∧ Pipeline.step sample_files 10 e s = Some s'.
Proof.
  destruct (Pipeline.steps sample_files 10 (take 4 sample_schedule)
              (initial sample_files sample_upload)) as [s|] eqn:Hrun;
    [|by vm_compute in Hrun].
  destruct (X10_upload_phase_completes sample_files sample_upload 10 _ s
              sample_files_NoDup Hrun) as (_ & Hprogress & _).
  assert (pc (driver s) ≠ Returned) as Hp.
  { vm_compute in Hrun. injection Hrun as <-. by vm_compute. }
  destruct (Hprogress Hp) as (e & s' & Hstep).
  exists s, e, s'. split; [reflexivity | exact Hstep].
Defined.

Lemma X11_upload_phase_result_witness :
  ∃ s, Pipeline.steps sample_files 10 sample_schedule
         (initial sample_files sample_upload) = Some s
       ∧ Batch.gate (batch s) = Gatekeeper.initial.
Proof.
  destruct (Pipeline.steps sample_files 10 sample_schedule
              (initial sample_files sample_upload)) as [s|] eqn:Hrun;
    [|by vm_compute in Hrun].
  exists s. split; [reflexivity|].
  apply (X11_upload_phase_result sample_files sample_upload 10 _ s
           sample_files_NoDup Hrun).
  vm_compute in Hrun. by injection Hrun as <-.
Defined.

(** *** [coordinateUploads] *)

(** X12.  [coordinateUploads] over files with unique ids, on a fresh
    coordinator.  Whatever the schedules, when it returns: both result
    arrays have one entry per file in the order of the files, the initiate
    outcome and the upload outcome of that file; the upload of a file is
    attempted and reported even when its initiate was rejected (nothing is
    filtered between the phases); no upload is active and nobody waits.
    And it can always return: there are schedules that complete it. *)
Theorem X12_coordinateUploads {TInitiate TUpload R : Type}
    (files : list QueueItem)
    (initiateFn : string → Settled TInitiate R)
    (uploadFn : string → Settled TUpload R) :
  NoDup (fileId <$> files) →
  (∀ schedule1 schedule2 initiateResults uploadResults g,
     coordinateUploads files initiateFn uploadFn schedule1 schedule2
     = Some (initiateResults, uploadResults, g) →
     initiateResults = (λ file, outcome (initiateFn (fileId file))) <$> files
     ∧ uploadResults = (λ file, outcome (uploadFn (fileId file))) <$> files
     ∧ (∀ i file r, files !! i = Some file →
          initiateFn (fileId file) = Rejected r →
          initiateResults !! i = Some (ResRejected r)
          ∧ uploadResults !! i = Some (outcome (uploadFn (fileId file))))
     ∧ g = Gatekeeper.initial)
  ∧ ∃ schedule1 schedule2 out,
      coordinateUploads files initiateFn uploadFn schedule1 schedule2 = Some out.
Proof.
  intros Hnodup. split.
  - intros schedule1 schedule2 ir ur g. unfold coordinateUploads.
    destruct (processConcurrently _ _ schedule1) as [d1|] eqn:Hrun1; [|done].
    destruct (pc d1) eqn:Hp1; try done.
    destruct (Pipeline.steps files _ schedule2 _) as [s2|] eqn:Hrun2; [|done].
    destruct (pc (driver s2)) eqn:Hp2; try done.
    intros [= <- <- <-].
    pose proof (upload_steps_Inv _ _ _ _ _ _ Hnodup
                  (upload_initial_Inv files uploadFn _) Hrun2) as HI.
    pose proof (returned_gate _ _ _ _ HI Hp2) as Hg.
    pose proof (returned_results _ _ _ (inv_driver _ _ _ _ HI) Hp2) as Hur.
    unfold processUploadsGenerator in Hur. rewrite <-list_fmap_compose in Hur.
    pose proof (returned_results _ _ _ (reachable_Inv _ _ _ _ Hrun1) Hp1) as Hir.
    unfold initiateFilesGenerator in Hir.
    rewrite <-!list_fmap_compose in Hir.
    split; [exact Hir|]. split; [exact Hur|]. split; [|exact Hg].
    intros i file r Hfile Hrej. rewrite Hir, Hur, !list_lookup_fmap, Hfile.
    simpl. by rewrite Hrej.
  - destruct (DriverProps.can_return MAX_CONCURRENT_INITIATES
                (initiateFilesGenerator (fileId <$> files) initiateFn) _
                (Driver.initial (initiateFilesGenerator (fileId <$> files) initiateFn))
                (le_n _) (DriverProps.initial_Inv _ _))
      as (schedule1 & d1 & Hrun1 & Hp1).
    destruct (upload_can_return files uploadFn MAX_CONCURRENT_UPLOAD_TRIGGERS _
                (initial files uploadFn) Hnodup (le_n _) (upload_initial_Inv _ _ _))
      as (schedule2 & s2 & Hrun2 & Hp2).
    exists schedule1, schedule2. unfold coordinateUploads, processConcurrently.
    rewrite Hrun1, Hp1, Hrun2, Hp2. by eexists.
Qed.

Lemma X12_coordinateUploads_witness :
  coordinateUploads sample_files sample_initiate sample_upload
    sample_schedule1 sample_schedule
  = Some ((λ file, outcome (sample_initiate (fileId file))) <$> sample_files,
          (λ file, outcome (sample_upload (fileId file))) <$> sample_files,
          Gatekeeper.initial).
Proof.
  destruct (coordinateUploads sample_files sample_initiate sample_upload
              sample_schedule1 sample_schedule) as [[[ir ur] g]|] eqn:Hrun;
    [|by vm_compute in Hrun].
  destruct (X12_coordinateUploads sample_files sample_initiate sample_upload
              sample_files_NoDup) as [Hout _].
  destruct (Hout _ _ _ _ _ Hrun) as (-> & -> & _ & ->). reflexivity.
Defined.

End PipelineProps.

(** * The order in which the uploads start *)

Module UploadOrderProps.
Import Promise Gatekeeper GatekeeperProps Batch BatchProps.
Import Driver DriverProps Pipeline PipelineProps UploadOrder.

#[local] Arguments Batch.step : simpl never.

Lemma id_in_queue (q : list QueueItem) id :
  id ∈ fileId <$> q ↔ ∃ a qa, q !! a = Some qa ∧ fileId qa = id.
Proof.
  rewrite list_elem_of_fmap. split.
  - intros (qa & -> & Hin). apply list_elem_of_lookup in Hin as [a Ha].
    by exists a, qa.
  - intros (a & qa & Ha & <-). exists qa. split; [done|].
    by eapply list_elem_of_lookup_2.
Qed.

(** A wrapper starts: it is the wrapper of the first file not yet pulled. *)
Lemma start_in_file_order files n file (b b' : System) :
  NoDup (fileId <$> files) → consistent b → pulled files n b →
  in_file_order files b → queue_in_file_order files b →
  files !! n = Some file →
  Batch.step (Start (fileId file) (fileSize file)) b = Some b' →
  in_file_order files b' ∧ queue_in_file_order files b'.
Proof.
  intros Hnodup (Htidy & Hactive & Hqueue) Hpulled Hord Hqord Hfile.
  unfold Batch.step. destruct (phases b !! fileId file) eqn:Hnone; [done|].
  assert (∀ i fi, files !! i = Some fi → i ≠ n → fileId fi ≠ fileId file)
    as Hother.
  { intros i fi Hi Hne Heq. apply Hne.
    exact (file_index_unique _ _ _ _ _ Hnodup Hi Hfile Heq). }
  unfold acquireUploadSlot.
  destruct (Nat.ltb_spec (size (activeUploads (gate b)))
              (getMaxConcurrentSlots (activeUploads (gate b)))) as [Hroom|Hfull];
    intros [= <-]; unfold in_file_order, queue_in_file_order, past_gatekeeper;
    simpl.
  - (* the slot is granted at once: nobody waits *)
    assert (queue (gate b) = []) as Hempty.
    { destruct Htidy as (_ & _ & [?|?]); [done|lia]. }
    split; [|done]. intros i j fi fj Hij Hi Hj Hpast.
    destruct (decide (j = n)) as [->|Hjn].
    + rewrite lookup_insert_ne by (apply not_eq_sym, (Hother i); [done|lia]).
      destruct (proj2 (Hpulled i fi Hi) Hij) as [ph Hph].
      destruct ph; [|by left|by right].
      apply Hqueue in Hph. rewrite Hempty in Hph. by apply elem_of_nil in Hph.
    + rewrite lookup_insert_ne in Hpast by (apply not_eq_sym, (Hother j); done).
      pose proof (Hord i j fi fj Hij Hi Hj Hpast) as Hpi.
      rewrite lookup_insert_ne; [done|]. apply not_eq_sym, (Hother i); [done|].
      intros ->. assert (is_Some (phases b !! fileId fj)) as Hsome
        by (destruct Hpast as [->| ->]; by eexists).
      apply (Hpulled j fj Hj) in Hsome. lia.
  - (* the wrapper is queued behind those that wait *)
    split.
    + intros i j fi fj Hij Hi Hj Hpast.
      destruct (decide (j = n)) as [->|Hjn].
      { rewrite Hfile in Hj. injection Hj as <-.
        rewrite lookup_insert_eq in Hpast. by destruct Hpast. }
      rewrite lookup_insert_ne in Hpast by (apply not_eq_sym, (Hother j); done).
      pose proof (Hord i j fi fj Hij Hi Hj Hpast) as Hpi.
      rewrite lookup_insert_ne; [done|]. apply not_eq_sym, (Hother i); [done|].
      intros ->. assert (is_Some (phases b !! fileId fj)) as Hsome
        by (destruct Hpast as [->| ->]; by eexists).
      apply (Hpulled j fj Hj) in Hsome. lia.
    + intros a c qa qb i j fi fj Hac Ha Hc Hi Hia Hj Hjb.
      destruct (decide (c < length (queue (gate b)))) as [Hold|Hnew].
      * rewrite lookup_app_l in Ha, Hc by lia.
        by apply (Hqord a c qa qb i j fi fj).
      * apply lookup_lt_Some in Hc as Hlen. rewrite length_app in Hlen.
        simpl in Hlen. assert (c = length (queue (gate b))) as -> by lia.
        rewrite lookup_app_l in Ha by lia.
        rewrite lookup_app_r, Nat.sub_diag in Hc by lia. injection Hc as <-.
        simpl in Hjb.
        assert (j = n) as ->
          by exact (file_index_unique _ _ _ _ _ Hnodup Hj Hfile Hjb).
        apply (Hpulled i fi Hi). exists Waiting. apply Hqueue.
        apply id_in_queue. by exists a, qa.
Qed.

(** An upload settles: the wrappers that the drain resumes are the first
    of the queue. *)
Lemma settle_in_file_order files n id (b b' : System) :
  NoDup (fileId <$> files) → consistent b → pulled files n b →
  in_file_order files b → queue_in_file_order files b →
  Batch.step (UploadSettles id) b = Some b' →
  in_file_order files b' ∧ queue_in_file_order files b'.
Proof.
  intros Hnodup (Htidy & Hactive & Hqueue) Hpulled Hord Hqord.
  unfold Batch.step. destruct (phases b !! id) as [[| |]|] eqn:Hid; try done.
  pose proof (release_queue id (gate b)) as Hsplit.
  destruct (releaseUploadSlot id (gate b)) as [g resumed]. simpl in Hsplit.
  intros [= <-]. unfold in_file_order, queue_in_file_order, past_gatekeeper.
  simpl.
  assert (∀ k, (promote resumed (<[id := Finished]> (phases b)) !! k = Some Holding
                ∨ promote resumed (<[id := Finished]> (phases b)) !! k
                  = Some Finished)
               ↔ k ∈ fileId <$> resumed ∨ k = id
                 ∨ phases b !! k = Some Holding
                 ∨ phases b !! k = Some Finished) as Hpast'.
  { intros k. rewrite promote_lookup. case_decide as Hin.
    - split; [intros _; by left | intros _; by left].
    - destruct (decide (k = id)) as [->|Hne].
      + rewrite lookup_insert_eq.
        split; [intros _; right; by left | intros _; by right].
      + rewrite lookup_insert_ne by done.
        split; [intros Hk; right; by right | by intros [?|[?|?]]]. }
  split.
  - intros i j fi fj Hij Hi Hj. rewrite !Hpast'. intros [Hres|[Heq|Hold]].
    + (* the wrapper of [fj] was resumed by the drain *)
      assert (phases b !! fileId fj = Some Waiting) as Hw.
      { apply Hqueue. rewrite Hsplit, fmap_app, elem_of_app. by left. }
      assert (j < n) as Hjn by (apply (Hpulled j fj Hj); by eexists).
      destruct (proj2 (Hpulled i fi Hi) ltac:(lia)) as [ph Hph].
      destruct ph; [|right; right; by left|right; right; by right].
      left. apply Hqueue in Hph.
      rewrite Hsplit, fmap_app, elem_of_app in Hph.
      destruct Hph as [?|Hrest]; [done|]. exfalso.
      apply id_in_queue in Hres as (a & qa & Ha & Hqa).
      apply id_in_queue in Hrest as (c & qc & Hc & Hqc).
      pose proof (lookup_lt_Some _ _ _ Ha) as Hlen.
      pose proof (Hqord a (length resumed + c) qa qc j i fj fi) as Hlt.
      rewrite Hsplit in Hlt. rewrite lookup_app_l in Hlt by done.
      rewrite lookup_app_r in Hlt by lia.
      replace (length resumed + c - length resumed) with c in Hlt by lia.
      specialize (Hlt ltac:(lia) Ha Hc Hj (eq_sym Hqa) Hi (eq_sym Hqc)). lia.
    + right; right. apply (Hord i j fi fj Hij Hi Hj). left. by rewrite Heq.
    + right; right. by apply (Hord i j fi fj).
  - intros a c qa qb i j fi fj Hac Ha Hc Hi Hia Hj Hjb.
    apply (Hqord (length resumed + a) (length resumed + c) qa qb i j fi fj);
      try done; [lia| |].
    + rewrite Hsplit, lookup_app_r by lia.
      by replace (length resumed + a - length resumed) with a by lia.
    + rewrite Hsplit, lookup_app_r by lia.
      by replace (length resumed + c - length resumed) with c by lia.
Qed.

Section Proofs.
Context {T R : Type}.
Implicit Types (files : list QueueItem) (uploadFn : string → Settled T R).
Implicit Types (s : Pipeline.State T R) (C : Z) (e : Driver.Event).

Lemma Inv_pulled files uploadFn C s :
  Pipeline.Inv files uploadFn C s →
  pulled files (length (results (driver s))) (batch s).
Proof.
  intros HI i file Hi. pose proof (inv_linked _ _ _ _ HI _ _ Hi) as Hlink.
  pose proof (inv_driver _ _ _ _ HI) as HD.
  destruct (executing (driver s) !! i) as [[p|w]|] eqn:He.
  - pose proof (Driver.inv_keys _ _ _ HD _ _ He) as Hlt.
    split; [done|]. intros _. destruct Hlink as [->| ->]; by eexists.
  - pose proof (Driver.inv_keys _ _ _ HD _ _ He) as Hlt.
    split; [done|]. intros _. rewrite Hlink. by eexists.
  - rewrite Hlink. case_bool_decide as Hlt.
    + split; [done|]. intros _. by eexists.
    + split; [by intros [? ?]|done].
Qed.

Lemma step_in_file_order files uploadFn C e s s' :
  NoDup (fileId <$> files) → Pipeline.Inv files uploadFn C s →
  in_file_order files (batch s) → queue_in_file_order files (batch s) →
  Pipeline.step files C e s = Some s' →
  in_file_order files (batch s') ∧ queue_in_file_order files (batch s').
Proof.
  intros Hnodup HI Hord Hqord. unfold Pipeline.step.
  pose proof (Inv_pulled _ _ _ _ HI) as Hpulled.
  pose proof (inv_batch _ _ _ _ HI) as HB.
  destruct (Driver.step C e (driver s)) as [d'|]; [|done].
  destruct e as [|i|i|].
  - destruct (generator (driver s)); [by intros [= <-]|].
    destruct (files !! length (results (driver s))) as [file|] eqn:Hfile;
      [|done].
    destruct (Batch.step _ (batch s)) as [b'|] eqn:Hb; [|done].
    intros [= <-]. simpl.
    by apply (start_in_file_order files (length (results (driver s))) file
               (batch s) b').
  - destruct (files !! i) as [file|] eqn:Hfile; [|done].
    destruct (Batch.step _ (batch s)) as [b'|] eqn:Hb; [|done].
    intros [= <-]. simpl.
    by apply (settle_in_file_order files (length (results (driver s)))
               (fileId file) (batch s) b').
  - by intros [= <-].
  - by intros [= <-].
Qed.

Lemma steps_in_file_order files uploadFn C es : ∀ s s',
  NoDup (fileId <$> files) → Pipeline.Inv files uploadFn C s →
  in_file_order files (batch s) → queue_in_file_order files (batch s) →
  Pipeline.steps files C es s = Some s' →
  in_file_order files (batch s') ∧ queue_in_file_order files (batch s').
Proof.
  induction es as [|e es IH]; intros s s' Hnodup HI Hord Hqord; simpl;
    [by intros [= <-]|].
  destruct (Pipeline.step files C e s) as [s1|] eqn:Hstep; [|done].
  destruct (step_in_file_order _ _ _ _ _ _ Hnodup HI Hord Hqord Hstep)
    as [Hord1 Hqord1].
  apply IH; [done| |done|done]. by eapply step_Inv.
Qed.

(** X23.  The uploads start in the order of the files.  At every point of
    the upload phase over files with unique ids, from a fresh coordinator:
    if the wrapper of a file has been granted its slot, so has the wrapper
    of every file before it in the list; and the wrappers that wait are in
    the queue in the order of their files. *)
Theorem X23_uploads_start_in_file_order files uploadFn C
    (es : list Driver.Event) s :
  NoDup (fileId <$> files) →
  Pipeline.steps files C es (initial files uploadFn) = Some s →
  (∀ i j fi fj, i < j → files !! i = Some fi → files !! j = Some fj →
     past_gatekeeper (batch s) fj → past_gatekeeper (batch s) fi)
  ∧ (∀ a b qa qb i j fi fj, a < b →
       queue (gate (batch s)) !! a = Some qa →
       queue (gate (batch s)) !! b = Some qb →
       files !! i = Some fi → fileId fi = fileId qa →
       files !! j = Some fj → fileId fj = fileId qb →
       i < j).
Proof.
  intros Hnodup Hrun.
  apply (steps_in_file_order files uploadFn C es (initial files uploadFn) s);
    try done.
  - apply upload_initial_Inv.
  - intros i j fi fj _ _ _ Hpast. unfold past_gatekeeper in Hpast.
    simpl in Hpast. rewrite lookup_empty in Hpast. by destruct Hpast.
Qed.

End Proofs.

Lemma X23_uploads_start_in_file_order_witness :
  ∃ s, Pipeline.steps sample_files 10 (take 4 sample_schedule)
         (initial sample_files sample_upload) = Some s
       ∧ past_gatekeeper (batch s) (mkQueueItem "L1" (100 * MB)).
Proof.
  destruct (Pipeline.steps sample_files 10 (take 4 sample_schedule)
              (initial sample_files sample_upload)) as [s|] eqn:Hrun;
    [|by vm_compute in Hrun].
  exists s. split; [reflexivity|].
  destruct (X23_uploads_start_in_file_order sample_files sample_upload 10 _ s
              sample_files_NoDup Hrun) as [Horder _].
  apply (Horder 0 1 _ (mkQueueItem "S1" (30 * MB)));
    [lia|reflexivity|reflexivity|].
  vm_compute in Hrun. injection Hrun as <-. left. by vm_compute.
Defined.

End UploadOrderProps.

(** * Properties of the initiate limiter *)

Module InitiatesProps.
Import Promise Initiates.

Section Proofs.
Context {R : Type}.
Implicit Types (st : State R) (cs : list (Status R)) (e : Event R).
Implicit Types (q : list InitiateQueueItem) (active : gset string).

(** *** The running ids under an update of one call *)

Lemma running_start cs k id direct :
  cs !! k = Some Queued →
  omap running_id (<[k := Running id direct]> cs) ≡ₚ id :: omap running_id cs.
Proof.
  revert k. induction cs as [|c cs IH]; intros [|k] Hk; try done.
  - simpl in Hk. by injection Hk as ->.
  - simpl in Hk. specialize (IH k Hk).
    destruct c; simpl; rewrite IH; [done| |done]. apply Permutation_swap.
Qed.

Lemma running_done cs k id direct result :
  cs !! k = Some (Running id direct) →
  id :: omap running_id (<[k := Done result]> cs) ≡ₚ omap running_id cs.
Proof.
  revert k. induction cs as [|c cs IH]; intros [|k] Hk; try done.
  - simpl in Hk. by injection Hk as ->.
  - simpl in Hk. specialize (IH k Hk).
    destruct c; simpl; [done| |done]. rewrite Permutation_swap. by rewrite IH.
Qed.

Lemma running_app cs c :
  omap running_id (cs ++ [c]) = omap running_id cs ++ omap running_id [c].
Proof. apply omap_app. Qed.

(** *** Queues in call order *)

Lemma in_call_order_cons a q :
  in_call_order (a :: q) →
  in_call_order q ∧ ∀ b, b ∈ q → caller a < caller b.
Proof.
  intros Hord. split.
  - intros i j x y Hij Hi Hj. apply (Hord (S i) (S j) x y); [lia|done|done].
  - intros b Hb. apply list_elem_of_lookup in Hb as [j Hj].
    apply (Hord 0 (S j) a b); [lia|done|done].
Qed.

Lemma in_call_order_snoc q id n :
  in_call_order q → (∀ b, b ∈ q → caller b < n) →
  in_call_order (q ++ [mkItem id n]).
Proof.
  intros Hord Hlt i j x y Hij Hi Hj.
  destruct (decide (j < length q)) as [Hin|Hout].
  - rewrite lookup_app_l in Hi, Hj by lia. by apply (Hord i j).
  - rewrite lookup_app_r in Hj by lia.
    destruct (j - length q) as [|n'] eqn:Hn; [|done]. injection Hj as <-. simpl.
    assert (j = length q) as -> by lia.
    rewrite lookup_app_l in Hi by lia. apply Hlt. by eapply list_elem_of_lookup_2.
Qed.

Lemma in_call_order_NoDup q : in_call_order q → NoDup (caller <$> q).
Proof.
  intros Hord. apply NoDup_alt. intros i j n.
  rewrite !list_lookup_fmap.
  destruct (q !! i) as [a|] eqn:Hi; [|done].
  destruct (q !! j) as [b|] eqn:Hj; [|done]. simpl. intros [= <-] [= Heq].
  destruct (Nat.lt_total i j) as [Hlt|[->|Hlt]]; [|done|].
  - pose proof (Hord i j a b Hlt Hi Hj). lia.
  - pose proof (Hord j i b a Hlt Hj Hi). lia.
Qed.

(** *** The loop of [processInitiateQueue] *)

Lemma size_delete_initiate_le active id : size (active ∖ {[id]}) ≤ size active.
Proof.
  apply subseteq_size. intros x Hx. apply elem_of_difference in Hx. by destruct Hx.
Qed.

Lemma size_add_le active id : size ({[id]} ∪ active) ≤ S (size active).
Proof.
  rewrite size_union_alt, size_singleton.
  assert (size (active ∖ {[id]}) ≤ size active); [|lia].
  apply size_delete_initiate_le.
Qed.

Lemma loop_Inv q : ∀ active cs,
  size active ≤ MAX_CONCURRENT_INITIATES →
  (∀ item, item ∈ q → cs !! caller item = Some Queued) →
  in_call_order q →
  (∀ id, id ∈ active → id ∈ omap running_id cs) →
  Inv (processInitiateQueueLoop q active cs).
Proof.
  induction q as [|next rest IH]; intros active cs Hsize Hq Hord Hact; simpl.
  - constructor; simpl; [done| |done|done|by left].
    intros item Hin. by apply elem_of_nil in Hin.
  - apply in_call_order_cons in Hord as Hcons. destruct Hcons as [Hrest Hlt].
    case_decide as Hroom.
    + apply IH; [| |done|].
      * pose proof (size_add_le active (fileId next)). lia.
      * intros item Hin. rewrite list_lookup_insert_ne.
        -- apply Hq. by right.
        -- specialize (Hlt item Hin). lia.
      * intros id. rewrite (running_start cs (caller next)) by (apply Hq; by left).
        rewrite elem_of_union, elem_of_singleton, elem_of_cons.
        intros [->|Hin]; [by left | right; by apply Hact].
    + constructor; simpl; try done. right. lia.
Qed.

(** The calls after the loop: an entry is as before, or it belonged to a
    queued call that the loop has started. *)
Lemma loop_calls q : ∀ active cs k,
  calls (processInitiateQueueLoop q active cs) !! k = cs !! k
  ∨ (k ∈ caller <$> q
     ∧ ∃ id, calls (processInitiateQueueLoop q active cs) !! k
             = Some (Running id false)).
Proof.
  induction q as [|next rest IH]; intros active cs k; simpl; [by left|].
  case_decide as Hroom; [|by left].
  destruct (IH ({[fileId next]} ∪ active)
              (<[caller next := Running (fileId next) false]> cs) k)
    as [Heq|[Hin Hrun]].
  - destruct (decide (k = caller next)) as [->|Hne].
    + destruct (decide (caller next < length cs)) as [Hlen|Hlen].
      * right. split; [by left|]. exists (fileId next).
        by rewrite Heq, list_lookup_insert_eq.
      * left. rewrite Heq. rewrite list_insert_ge by lia. done.
    + left. by rewrite Heq, list_lookup_insert_ne.
  - right. split; [by right | done].
Qed.

Lemma loop_length q : ∀ active cs,
  length (calls (processInitiateQueueLoop q active cs)) = length cs.
Proof.
  induction q as [|next rest IH]; intros active cs; simpl; [done|].
  case_decide; [|done]. by rewrite IH, length_insert.
Qed.

(** The loop starts a prefix of the queue and leaves the rest. *)
Lemma loop_queue q : ∀ active cs,
  ∃ n, initiateQueue (processInitiateQueueLoop q active cs) = drop n q.
Proof.
  induction q as [|next rest IH]; intros active cs; simpl; [by exists 0|].
  case_decide; [|by exists 0].
  destruct (IH ({[fileId next]} ∪ active)
              (<[caller next := Running (fileId next) false]> cs)) as [n Hn].
  by exists (S n).
Qed.

Lemma loop_Complete q : ∀ active cs,
  in_call_order q →
  (∀ item, item ∈ q → cs !! caller item = Some Queued) →
  (∀ k, cs !! k = Some Queued → k ∈ caller <$> q) →
  Complete (processInitiateQueueLoop q active cs).
Proof.
  induction q as [|next rest IH]; intros active cs Hord Hq Hall; simpl; [done|].
  case_decide as Hroom; [|done].
  apply in_call_order_cons in Hord as [Hrest Hlt].
  assert (caller next < length cs) as Hlen.
  { apply lookup_lt_is_Some. exists Queued. apply Hq. by left. }
  apply IH; [done| |].
  - intros item Hin. rewrite list_lookup_insert_ne.
    + apply Hq. by right.
    + specialize (Hlt item Hin). lia.
  - intros k. destruct (decide (k = caller next)) as [->|Hne].
    + by rewrite list_lookup_insert_eq.
    + rewrite list_lookup_insert_ne by done. intros Hk.
      apply Hall in Hk. rewrite fmap_cons, elem_of_cons in Hk.
      by destruct Hk.
Qed.

Lemma loop_Unique q : ∀ active cs,
  in_call_order q →
  (∀ item, item ∈ q → cs !! caller item = Some Queued) →
  NoDup (omap running_id cs ++ (fileId <$> q)) →
  (∀ id, id ∈ omap running_id cs → id ∈ active) →
  Unique (processInitiateQueueLoop q active cs).
Proof.
  induction q as [|next rest IH]; intros active cs Hord Hq Hnodup Hrun; simpl;
    [done|].
  case_decide as Hroom; [|done].
  apply in_call_order_cons in Hord as [Hrest Hlt].
  assert (omap running_id (<[caller next := Running (fileId next) false]> cs)
          ≡ₚ fileId next :: omap running_id cs) as Hperm.
  { apply running_start, Hq. by left. }
  apply IH; [done| | |].
  - intros item Hin. rewrite list_lookup_insert_ne.
    + apply Hq. by right.
    + specialize (Hlt item Hin). lia.
  - rewrite Hperm. simpl. rewrite fmap_cons in Hnodup.
    by rewrite <-Permutation_middle in Hnodup.
  - intros id. rewrite Hperm, elem_of_cons, elem_of_union, elem_of_singleton.
    intros [->|Hin]; [by left | right; by apply Hrun].
Qed.

(** Settling the promise of a call that is not in the queue commutes with
    the loop. *)
Lemma loop_settle q : ∀ active cs k c,
  k ∉ caller <$> q →
  processInitiateQueueLoop q active (<[k := c]> cs)
  = mkState (activeInitiates (processInitiateQueueLoop q active cs))
      (initiateQueue (processInitiateQueueLoop q active cs))
      (<[k := c]> (calls (processInitiateQueueLoop q active cs))).
Proof.
  induction q as [|next rest IH]; intros active cs k c Hk; simpl; [done|].
  rewrite fmap_cons, not_elem_of_cons in Hk. destruct Hk as [Hne Hk].
  case_decide as Hroom; [|done].
  rewrite list_insert_insert_ne by done. by apply IH.
Qed.

(** *** One step *)

Lemma queued_not_running st k id direct item :
  Inv st → calls st !! k = Some (Running id direct) →
  item ∈ initiateQueue st → caller item ≠ k.
Proof.
  intros HI Hk Hin Heq. pose proof (inv_queued st HI item Hin) as Hq.
  rewrite Heq in Hq. congruence.
Qed.

(** Both continuations do the same to the limiter. *)
Lemma continuation_eq st k id direct result :
  Inv st → calls st !! k = Some (Running id direct) →
  continuation k result st
  = Some (processInitiateQueue (settle k result (deleteInitiate id st))).
Proof.
  intros HI Hk. unfold continuation. rewrite Hk. destruct direct; [|done].
  f_equal. unfold processInitiateQueue, settle, deleteInitiate. simpl.
  rewrite loop_settle; [done|].
  intros Hin. apply list_elem_of_fmap in Hin as (item & -> & Hin).
  by apply (queued_not_running st _ id true item HI Hk).
Qed.

Lemma limiter_initial_Inv : Inv (@initial R).
Proof.
  constructor; simpl; [| |done| |by left].
  - apply Nat.le_0_l.
  - intros item Hin. by apply elem_of_nil in Hin.
  - intros id Hin. by apply elem_of_empty in Hin.
Qed.

Lemma running_snoc st c :
  omap running_id (calls st ++ [c])
  = running st ++ match c with Running id _ => [id] | _ => [] end.
Proof. unfold running. rewrite omap_app. by destruct c. Qed.

Lemma queued_lt st item :
  Inv st → item ∈ initiateQueue st → caller item < length (calls st).
Proof.
  intros HI Hin. apply lookup_lt_is_Some. exists Queued. by apply inv_queued.
Qed.

Lemma limiter_step_Inv e st st' : Inv st → step e st = Some st' → Inv st'.
Proof.
  intros HI. destruct e as [id|k result|]; simpl.
  - intros [= <-]. unfold queueFileInitiate. case_decide as Hroom.
    + constructor; simpl.
      * pose proof (size_add_le (activeInitiates st) id). lia.
      * intros item Hin. rewrite lookup_app_l by by apply queued_lt.
        by apply inv_queued.
      * by apply inv_order.
      * intros id'. unfold running at 1. simpl.
        rewrite running_snoc, elem_of_union, elem_of_singleton, elem_of_app.
        intros [->|Hin]; [right; by left | left; by apply inv_active].
      * destruct (inv_full st HI) as [Hq|Hfull]; [by left | lia].
    + pose proof (inv_size st HI). constructor; simpl.
      * done.
      * intros item. rewrite elem_of_app, list_elem_of_singleton.
        intros [Hin| ->].
        -- rewrite lookup_app_l by by apply queued_lt. by apply inv_queued.
        -- simpl. by rewrite lookup_app_r, Nat.sub_diag.
      * apply in_call_order_snoc; [by apply inv_order|].
        intros b Hb. by apply queued_lt.
      * intros id'. unfold running at 1. simpl.
        rewrite running_snoc, app_nil_r. by apply inv_active.
      * right. lia.
  - destruct (calls st !! k) as [[|id direct|]|] eqn:Hk;
      try (unfold continuation; by rewrite Hk).
    rewrite (continuation_eq st k id direct result HI Hk). intros [= <-].
    unfold processInitiateQueue, settle, deleteInitiate. simpl.
    apply loop_Inv.
    + pose proof (size_delete_initiate_le (activeInitiates st) id).
      pose proof (inv_size st HI). lia.
    + intros item Hin. rewrite list_lookup_insert_ne.
      * by apply inv_queued.
      * intros Heq. by apply (queued_not_running st k id direct item).
    + by apply inv_order.
    + intros id'. rewrite elem_of_difference, not_elem_of_singleton.
      intros [Hin Hne]. apply (inv_active st HI) in Hin. unfold running in Hin.
      rewrite <-(running_done (calls st) k id direct result Hk) in Hin.
      apply elem_of_cons in Hin as [?|?]; done.
  - intros [= <-]. constructor; simpl; [apply Nat.le_0_l| |done| |by left].
    + intros item Hin. by apply elem_of_nil in Hin.
    + intros id Hin. by apply elem_of_empty in Hin.
Qed.

Lemma limiter_steps_Inv es : ∀ st st', Inv st → steps es st = Some st' → Inv st'.
Proof.
  induction es as [|e es IH]; intros st st' HI; simpl; [by intros [= <-]|].
  destruct (step e st) as [st1|] eqn:Hstep; [|done].
  apply IH. by eapply limiter_step_Inv.
Qed.

Lemma step_Complete e st st' :
  is_reset e = false → Inv st → Complete st →
  step e st = Some st' → Complete st'.
Proof.
  intros He HI HC. destruct e as [id|k result|]; simpl; [| |done].
  - intros [= <-]. unfold queueFileInitiate. case_decide as Hroom; intros k; simpl.
    + intros Hk. destruct (decide (k < length (calls st))) as [Hlt|Hge].
      * rewrite lookup_app_l in Hk by done. by apply HC.
      * rewrite lookup_app_r in Hk by lia.
        by destruct (k - length (calls st)).
    + intros Hk. rewrite fmap_app, elem_of_app.
      destruct (decide (k < length (calls st))) as [Hlt|Hge].
      * rewrite lookup_app_l in Hk by done. left. by apply HC.
      * right. simpl. apply list_elem_of_singleton.
        apply lookup_lt_Some in Hk. rewrite length_app in Hk. simpl in Hk. lia.
  - destruct (calls st !! k) as [[|id direct|]|] eqn:Hk;
      try (unfold continuation; by rewrite Hk).
    rewrite (continuation_eq st k id direct result HI Hk). intros [= <-].
    unfold processInitiateQueue, settle, deleteInitiate. simpl.
    apply loop_Complete.
    + by apply inv_order.
    + intros item Hin. rewrite list_lookup_insert_ne.
      * by apply inv_queued.
      * intros Heq. by apply (queued_not_running st k id direct item).
    + intros j Hj. apply HC. destruct (decide (j = k)) as [->|Hne].
      * rewrite list_lookup_insert_eq in Hj by by eapply lookup_lt_Some. done.
      * by rewrite list_lookup_insert_ne in Hj.
Qed.

Lemma step_Unique e st st' :
  is_reset e = false → fresh e st → Inv st → Unique st →
  step e st = Some st' → Unique st'.
Proof.
  intros He Hfresh HI [Hnodup Hrun]. destruct e as [id|k result|]; simpl; [| |done].
  - intros [= <-]. destruct Hfresh as [Hnew Hnotq].
    unfold queueFileInitiate, Unique, running.
    case_decide as Hroom; simpl; rewrite running_snoc.
    + split.
      * rewrite <-app_assoc. simpl. rewrite <-Permutation_middle.
        apply NoDup_cons. split; [|done].
        rewrite elem_of_app. by intros [?|?].
      * intros id'. rewrite elem_of_app, list_elem_of_singleton, elem_of_union,
          elem_of_singleton. intros [Hin| ->]; [right; by apply Hrun | by left].
    + rewrite app_nil_r. split; [|done].
      rewrite fmap_app, app_assoc. simpl.
      rewrite <-Permutation_cons_append. apply NoDup_cons. split; [|done].
      rewrite elem_of_app. by intros [?|?].
  - destruct (calls st !! k) as [[|id direct|]|] eqn:Hk;
      try (unfold continuation; by rewrite Hk).
    rewrite (continuation_eq st k id direct result HI Hk). intros [= <-].
    unfold processInitiateQueue, settle, deleteInitiate. simpl.
    pose proof (running_done (calls st) k id direct result Hk) as Hperm.
    unfold running in Hnodup, Hrun. rewrite <-Hperm in Hnodup. simpl in Hnodup.
    apply NoDup_cons in Hnodup as [Hid Hnodup].
    apply loop_Unique.
    + by apply inv_order.
    + intros item Hin. rewrite list_lookup_insert_ne.
      * by apply inv_queued.
      * intros Heq. by apply (queued_not_running st k id direct item).
    + done.
    + intros id' Hin. rewrite elem_of_difference, not_elem_of_singleton. split.
      * apply Hrun. rewrite <-Hperm. by right.
      * intros ->. apply Hid. rewrite elem_of_app. by left.
Qed.

Lemma steps_Complete es : ∀ st st',
  reset_free es → Inv st → Complete st → steps es st = Some st' → Complete st'.
Proof.
  induction es as [|e es IH]; intros st st' Hfree HI HC; simpl;
    [by intros [= <-]|].
  apply Forall_cons in Hfree as [He Hfree].
  destruct (step e st) as [st1|] eqn:Hstep; [|done].
  apply IH; [done|by eapply limiter_step_Inv|by eapply step_Complete].
Qed.

Lemma steps_Unique es : ∀ st st',
  reset_free es → all_fresh es st → Inv st → Unique st →
  steps es st = Some st' → Unique st'.
Proof.
  induction es as [|e es IH]; intros st st' Hfree Hfresh HI HU; simpl;
    [by intros [= <-]|].
  apply Forall_cons in Hfree as [He Hfree]. simpl in Hfresh.
  destruct Hfresh as [Hnew Hfresh].
  destruct (step e st) as [st1|] eqn:Hstep; [|done].
  apply IH; [done|done|by eapply limiter_step_Inv|by eapply step_Unique].
Qed.

Lemma Unique_size st :
  Inv st → Unique st → length (running st) = size (activeInitiates st).
Proof.
  intros HI [Hnodup Hrun]. apply NoDup_app in Hnodup as (Hnodup & _ & _).
  unfold size, set_size. simpl. apply Permutation_length.
  apply NoDup_Permutation; [done|apply NoDup_elements|].
  intros id. rewrite elem_of_elements. split; [apply Hrun|by apply inv_active].
Qed.

(** *** The promise of a call *)

Lemma caller_queued st k :
  Inv st → k ∈ caller <$> initiateQueue st → calls st !! k = Some Queued.
Proof.
  intros HI Hin. apply list_elem_of_fmap in Hin as (item & -> & Hin).
  by apply inv_queued.
Qed.

(** The entry of a call that is not in the queue, after a continuation. *)
Lemma continuation_calls st st' k result j :
  Inv st → continuation k result st = Some st' →
  j ∉ caller <$> initiateQueue st →
  calls st' !! j = <[k := Done result]> (calls st) !! j.
Proof.
  intros HI Hstep Hj.
  destruct (calls st !! k) as [[|id direct|]|] eqn:Hk;
    try (unfold continuation in Hstep; by rewrite Hk in Hstep).
  rewrite (continuation_eq st k id direct result HI Hk) in Hstep.
  injection Hstep as <-.
  unfold processInitiateQueue, settle, deleteInitiate. simpl.
  destruct (loop_calls (initiateQueue st) (activeInitiates st ∖ {[id]})
              (<[k := Done result]> (calls st)) j) as [Heq|[Hin _]]; done.
Qed.

Lemma continuation_running st st' k result :
  continuation k result st = Some st' →
  ∃ id direct, calls st !! k = Some (Running id direct).
Proof.
  unfold continuation. destruct (calls st !! k) as [[|id direct|]|]; try done.
  intros _. by exists id, direct.
Qed.

Lemma step_done e st st' k result :
  Inv st → step e st = Some st' →
  calls st' !! k = Some (Done result)
  ↔ calls st !! k = Some (Done result) ∨ e = Settles k result.
Proof.
  intros HI Hstep.
  assert (calls st !! k = Some (Done result) ∨ e = Settles k result →
          k ∉ caller <$> initiateQueue st) as Hout.
  { intros Hk Hin. apply (caller_queued st k HI) in Hin.
    destruct Hk as [Hk| ->]; [congruence|].
    apply continuation_running in Hstep as (id & direct & Hk). congruence. }
  destruct e as [id|j result'|]; simpl in Hstep.
  - injection Hstep as <-. unfold queueFileInitiate.
    assert (∀ c, is_done c = false →
              (calls st ++ [c]) !! k = Some (Done result)
              ↔ calls st !! k = Some (Done result) ∨ QueueFileInitiate id = Settles k result)
      as Hsnoc.
    { intros c Hc. destruct (decide (k < length (calls st))) as [Hlt|Hge].
      - rewrite lookup_app_l by done. split; [by left | by intros [?|?]].
      - rewrite lookup_app_r by lia. rewrite (lookup_ge_None_2 (calls st)) by lia.
        split; [|by intros [?|?]].
        destruct (k - length (calls st)); [|done]. simpl. intros [= ->]. done. }
    case_decide; simpl; by apply Hsnoc.
  - split.
    + intros Hk. destruct (decide (k ∈ caller <$> initiateQueue st)) as [Hin|Hnin].
      * apply continuation_running in Hstep as Hrun.
        destruct Hrun as (id & direct & Hj).
        pose proof (caller_queued st k HI Hin) as Hq.
        destruct (calls st !! j) as [[|id0 direct0|]|] eqn:Hj0;
          try (unfold continuation in Hstep; by rewrite Hj0 in Hstep).
        rewrite (continuation_eq st j id0 direct0 result' HI Hj0) in Hstep.
        injection Hstep as <-.
        unfold processInitiateQueue, settle, deleteInitiate in Hk. simpl in Hk.
        destruct (loop_calls (initiateQueue st) (activeInitiates st ∖ {[id0]})
                    (<[j := Done result']> (calls st)) k) as [Heq|[_ [id1 Hrun]]].
        -- rewrite Heq in Hk. destruct (decide (k = j)) as [->|Hne]; [congruence|].
           rewrite list_lookup_insert_ne in Hk by done. congruence.
        -- congruence.
      * rewrite (continuation_calls st st' j result' k HI Hstep Hnin) in Hk.
        destruct (decide (k = j)) as [->|Hne].
        -- apply continuation_running in Hstep as (id & direct & Hj).
           rewrite list_lookup_insert_eq in Hk by by eapply lookup_lt_Some.
           right. congruence.
        -- left. by rewrite list_lookup_insert_ne in Hk.
    + intros Hk. rewrite (continuation_calls st st' j result' k HI Hstep (Hout Hk)).
      apply continuation_running in Hstep as (id & direct & Hj).
      destruct Hk as [Hk|[= -> ->]].
      * rewrite list_lookup_insert_ne by congruence. done.
      * rewrite list_lookup_insert_eq by by eapply lookup_lt_Some. done.
  - injection Hstep as <-. simpl. split; [by left | by intros [?|?]].
Qed.

Lemma steps_done es : ∀ st st' k result,
  Inv st → steps es st = Some st' →
  calls st' !! k = Some (Done result)
  ↔ calls st !! k = Some (Done result) ∨ Settles k result ∈ es.
Proof.
  induction es as [|e es IH]; intros st st' k result HI; simpl.
  - intros [= <-]. split; [by left|]. intros [?|Hin]; [done|].
    by apply elem_of_nil in Hin.
  - destruct (step e st) as [st1|] eqn:Hstep; [|done]. intros Hrun.
    rewrite (IH st1 st' k result (limiter_step_Inv e st st1 HI Hstep) Hrun).
    rewrite (step_done e st st1 k result HI Hstep), elem_of_cons.
    split; [intros [[?|?]|?]|intros [?|[?|?]]]; auto.
Qed.

(** *** A call that is neither started nor in the queue stays pending *)

Lemma step_stranded e st st' k :
  Inv st → step e st = Some st' →
  calls st !! k = Some Queued → k ∉ caller <$> initiateQueue st →
  calls st' !! k = Some Queued ∧ k ∉ caller <$> initiateQueue st'.
Proof.
  intros HI Hstep Hk Hout. pose proof (lookup_lt_Some _ _ _ Hk) as Hlt.
  destruct e as [id|j result|]; simpl in Hstep.
  - injection Hstep as <-. unfold queueFileInitiate. case_decide; simpl.
    + by rewrite lookup_app_l.
    + rewrite lookup_app_l by done. split; [done|].
      rewrite fmap_app, elem_of_app. simpl. rewrite list_elem_of_singleton.
      intros [?|?]; [done|lia].
  - split.
    + rewrite (continuation_calls st st' j result k HI Hstep Hout).
      apply continuation_running in Hstep as (id & direct & Hj).
      rewrite list_lookup_insert_ne by congruence. done.
    + destruct (calls st !! j) as [[|id direct|]|] eqn:Hj;
        try (unfold continuation in Hstep; by rewrite Hj in Hstep).
      rewrite (continuation_eq st j id direct result HI Hj) in Hstep.
      injection Hstep as <-.
      unfold processInitiateQueue, settle, deleteInitiate. simpl.
      destruct (loop_queue (initiateQueue st) (activeInitiates st ∖ {[id]})
                  (<[j := Done result]> (calls st))) as [n ->].
      intros Hin. apply Hout. rewrite <-(take_drop n (initiateQueue st)).
      rewrite fmap_app, elem_of_app. by right.
  - injection Hstep as <-. simpl. split; [done|]. apply not_elem_of_nil.
Qed.

Lemma steps_stranded es : ∀ st st' k,
  Inv st → steps es st = Some st' →
  calls st !! k = Some Queued → k ∉ caller <$> initiateQueue st →
  calls st' !! k = Some Queued.
Proof.
  induction es as [|e es IH]; intros st st' k HI; simpl; [by intros [= <-]|].
  destruct (step e st) as [st1|] eqn:Hstep; [|done]. intros Hrun Hk Hout.
  destruct (step_stranded e st st1 k HI Hstep Hk Hout) as [Hk1 Hout1].
  by apply (IH st1 st' k (limiter_step_Inv e st st1 HI Hstep)).
Qed.

(** *** Every call can be brought to its end *)

Lemma unsettled_insert cs k c c' :
  cs !! k = Some c →
  length (filter (λ c, is_done c = false) (<[k := c']> cs))
  + (if is_done c then 0 else 1)
  = length (filter (λ c, is_done c = false) cs)
    + (if is_done c' then 0 else 1).
Proof.
  revert k. induction cs as [|c0 cs IH]; intros [|k] Hk; try done; simpl in Hk.
  - injection Hk as ->. simpl. rewrite !filter_cons.
    destruct (is_done c), (is_done c'); repeat case_decide; simpl; try done; lia.
  - specialize (IH k Hk). simpl. rewrite !filter_cons.
    case_decide; simpl; lia.
Qed.

Lemma loop_unsettled q : ∀ active cs,
  (∀ item, item ∈ q → cs !! caller item = Some Queued) →
  in_call_order q →
  unsettled (processInitiateQueueLoop q active cs)
  = length (filter (λ c, is_done c = false) cs).
Proof.
  induction q as [|next rest IH]; intros active cs Hq Hord; simpl; [done|].
  case_decide as Hroom; [|done].
  apply in_call_order_cons in Hord as [Hrest Hlt].
  rewrite IH; [| |done].
  - pose proof (unsettled_insert cs (caller next) Queued
                  (Running (fileId next) false)) as Hins.
    simpl in Hins. rewrite Nat.add_cancel_r in Hins. apply Hins, Hq. by left.
  - intros item Hin. rewrite list_lookup_insert_ne.
    + apply Hq. by right.
    + specialize (Hlt item Hin). lia.
Qed.

Lemma continuation_unsettled st st' k result :
  Inv st → continuation k result st = Some st' →
  unsettled st = S (unsettled st').
Proof.
  intros HI Hstep.
  destruct (calls st !! k) as [[|id direct|]|] eqn:Hk;
    try (unfold continuation in Hstep; by rewrite Hk in Hstep).
  rewrite (continuation_eq st k id direct result HI Hk) in Hstep.
  injection Hstep as <-.
  unfold processInitiateQueue, settle, deleteInitiate. simpl.
  rewrite loop_unsettled; [| |by apply inv_order].
  - pose proof (unsettled_insert (calls st) k (Running id direct) (Done result) Hk)
      as Hins. simpl in Hins. unfold unsettled. lia.
  - intros item Hin. rewrite list_lookup_insert_ne.
    + by apply inv_queued.
    + intros Heq. by apply (queued_not_running st k id direct item).
Qed.

(** While a promise is pending, some initiate is running. *)
Lemma somebody_runs st :
  Inv st → Complete st → unsettled st ≠ 0 →
  ∃ k id direct, calls st !! k = Some (Running id direct).
Proof.
  intros HI HC Hpending. unfold unsettled in Hpending.
  destruct (filter _ (calls st)) as [|c rest] eqn:Hfilter; [done|].
  assert (c ∈ filter (λ c, is_done c = false) (calls st)) as Hc
    by (rewrite Hfilter; by left).
  apply list_elem_of_filter in Hc as [Hdone Hc].
  apply list_elem_of_lookup in Hc as [k Hk].
  destruct c as [|id direct|result]; [|by exists k, id, direct|done].
  apply HC in Hk. destruct (inv_full st HI) as [Hempty|Hfull].
  { rewrite Hempty in Hk. by apply elem_of_nil in Hk. }
  assert (activeInitiates st ≠ ∅) as Hne.
  { intros Heq. rewrite Heq in Hfull. by vm_compute in Hfull. }
  apply set_choose_L in Hne as [id Hid].
  apply (inv_active st HI) in Hid. apply list_elem_of_omap in Hid as (c & Hin & Hc).
  apply list_elem_of_lookup in Hin as [j Hj].
  destruct c as [|id' direct|]; try done. by exists j, id', direct.
Qed.

Lemma can_finish : ∀ n st,
  unsettled st ≤ n → Inv st → Complete st →
  ∃ es st', Forall (λ e, is_settles e = true) es
            ∧ steps es st = Some st' ∧ unsettled st' = 0.
Proof.
  induction n as [|n IH]; intros st Hn HI HC.
  { exists [], st. split; [done|]. split; [done|lia]. }
  destruct (decide (unsettled st = 0)) as [Hz|Hnz].
  { exists [], st. by split. }
  destruct (somebody_runs st HI HC Hnz) as (k & id & direct & Hk).
  pose proof (continuation_eq st k id direct (Fulfilled ()) HI Hk) as Hstep.
  pose proof (continuation_unsettled st _ k (Fulfilled ()) HI Hstep) as Hless.
  destruct (IH (processInitiateQueue (settle k (Fulfilled ()) (deleteInitiate id st))))
    as (es & st' & Hes & Hrun & Hend).
  - lia.
  - by apply (limiter_step_Inv (Settles k (Fulfilled ())) st).
  - by apply (step_Complete (Settles k (Fulfilled ())) st).
  - exists (Settles k (Fulfilled ()) :: es), st'.
    split; [by apply Forall_cons|]. split; [|done]. simpl. by rewrite Hstep.
Qed.

(** When every promise has settled, the limiter is empty. *)
Lemma settled_empty st :
  Inv st → unsettled st = 0 →
  activeInitiates st = ∅ ∧ initiateQueue st = []
  ∧ ∀ k c, calls st !! k = Some c → ∃ result, c = Done result.
Proof.
  intros HI Hz. unfold unsettled in Hz. apply length_zero_iff_nil in Hz.
  assert (∀ k c, calls st !! k = Some c → ∃ result, c = Done result) as Hall.
  { intros k c Hk. destruct c as [| |result]; [| |by exists result].
    - assert (Queued ∈ filter (λ c, is_done c = false) (calls st)) as Hin.
      { apply list_elem_of_filter. split; [done|]. by eapply list_elem_of_lookup_2. }
      rewrite Hz in Hin. by apply elem_of_nil in Hin.
    - assert (Running id direct ∈ filter (λ c, is_done c = false) (calls st))
        as Hin.
      { apply list_elem_of_filter. split; [done|]. by eapply list_elem_of_lookup_2. }
      rewrite Hz in Hin. by apply elem_of_nil in Hin. }
  split; [|split; [|done]].
  - apply elem_of_equiv_empty_L. intros id Hid.
    apply (inv_active st HI) in Hid.
    apply list_elem_of_omap in Hid as (c & Hin & Hc).
    apply list_elem_of_lookup in Hin as [j Hj].
    destruct (Hall j c Hj) as [result ->]. done.
  - destruct (initiateQueue st) as [|item rest] eqn:Hq; [done|].
    pose proof (inv_queued st HI item) as Hitem. rewrite Hq in Hitem.
    destruct (Hall _ _ (Hitem ltac:(by left))) as [result Heq]. done.
Qed.

Lemma limiter_steps_app es1 es2 : ∀ st st1,
  steps es1 st = Some st1 → steps (es1 ++ es2) st = steps es2 st1.
Proof.
  induction es1 as [|e es1 IH]; intros st st1; simpl; [by intros [= <-]|].
  destruct (step e st) as [st'|]; [|done]. apply IH.
Qed.

(** The loop starts a prefix of the queue. *)
Lemma loop_prefix q : ∀ active cs,
  in_call_order q →
  (∀ item, item ∈ q → caller item < length cs) →
  ∃ n, initiateQueue (processInitiateQueueLoop q active cs) = drop n q
       ∧ ∀ item, item ∈ take n q →
           calls (processInitiateQueueLoop q active cs) !! caller item
           = Some (Running (fileId item) false).
Proof.
  induction q as [|next rest IH]; intros active cs Hord Hlen; simpl.
  { exists 0. split; [done|]. intros item Hin. by apply elem_of_nil in Hin. }
  case_decide as Hroom.
  - apply in_call_order_cons in Hord as [Hrest Hlt].
    destruct (IH ({[fileId next]} ∪ active)
                (<[caller next := Running (fileId next) false]> cs) Hrest)
      as (n & Hq & Hstarted).
    { intros item Hin. rewrite length_insert. apply Hlen. by right. }
    exists (S n). split; [done|]. simpl. intros item.
    rewrite elem_of_cons. intros [->|Hin]; [|by apply Hstarted].
    destruct (loop_calls rest ({[fileId next]} ∪ active)
                (<[caller next := Running (fileId next) false]> cs) (caller next))
      as [Heq|[Hin _]].
    + rewrite Heq. apply list_lookup_insert_eq, Hlen. by left.
    + apply list_elem_of_fmap in Hin as (item & Heq & Hin).
      specialize (Hlt item Hin). lia.
  - exists 0. split; [done|]. intros item Hin. by apply elem_of_nil in Hin.
Qed.

(** *** The limiter: what a caller can rely on *)

(** X13.  At most ten initiates.  In every state reached from the empty
    limiter, [activeInitiates] has at most 10 members.  While
    [resetCoordinator] is not called and no call reuses the id of an
    initiate that is running or waiting, the initiate functions that are
    running are the members of [activeInitiates], one each: at most 10 run
    at a time. *)
Theorem X13_at_most_ten_initiates (es : list (Event R)) st :
  steps es initial = Some st →
  size (activeInitiates st) ≤ 10
  ∧ (reset_free es → all_fresh es initial →
     (∀ id, id ∈ running st ↔ id ∈ activeInitiates st)
     ∧ NoDup (running st)
     ∧ length (running st) ≤ 10).
Proof.
  intros Hrun.
  pose proof (limiter_steps_Inv es _ _ limiter_initial_Inv Hrun) as HI.
  split; [exact (inv_size st HI)|]. intros Hfree Hfresh.
  assert (Unique (@initial R)) as HU0.
  { split; [apply NoDup_nil_2|]. intros id Hin. by apply elem_of_nil in Hin. }
  pose proof (steps_Unique es _ _ Hfree Hfresh limiter_initial_Inv HU0 Hrun) as HU.
  pose proof (Unique_size st HI HU) as Hsize.
  pose proof (inv_size st HI) as Hle. unfold MAX_CONCURRENT_INITIATES in Hle.
  destruct HU as [Hnodup Hrunning]. apply NoDup_app in Hnodup as (Hnodup & _ & _).
  split; [|split; [done|lia]].
  intros id. split; [apply Hrunning | by apply inv_active].
Qed.

(** X14.  The limiter starts initiates as early as it may and in the order
    of the calls.  In every reachable state a call waits only while 10
    initiates are active, the queue holds calls that have not started, in
    the order they were made, and, unless [resetCoordinator] was called,
    holds all of them.  When an initiate settles, the calls started in its
    place are a prefix of the queue; the others keep their places. *)
Theorem X14_initiates_start_in_call_order (es : list (Event R)) st :
  steps es initial = Some st →
  (initiateQueue st = [] ∨ size (activeInitiates st) = 10)
  ∧ in_call_order (initiateQueue st)
  ∧ (∀ item, item ∈ initiateQueue st → calls st !! caller item = Some Queued)
  ∧ (reset_free es →
     ∀ k, calls st !! k = Some Queued → k ∈ caller <$> initiateQueue st)
  ∧ (∀ k result st', step (Settles k result) st = Some st' →
     ∃ n, initiateQueue st' = drop n (initiateQueue st)
          ∧ ∀ item, item ∈ take n (initiateQueue st) →
              calls st' !! caller item = Some (Running (fileId item) false)).
Proof.
  intros Hrun.
  pose proof (limiter_steps_Inv es _ _ limiter_initial_Inv Hrun) as HI.
  split; [exact (inv_full st HI)|]. split; [exact (inv_order st HI)|].
  split; [exact (inv_queued st HI)|]. split.
  - intros Hfree. by apply (steps_Complete es initial st Hfree limiter_initial_Inv).
  - intros k result st'. simpl. intros Hstep.
    destruct (calls st !! k) as [[|id direct|]|] eqn:Hk;
      try (unfold continuation in Hstep; by rewrite Hk in Hstep).
    rewrite (continuation_eq st k id direct result HI Hk) in Hstep.
    injection Hstep as <-.
    unfold processInitiateQueue, settle, deleteInitiate. simpl.
    apply loop_prefix; [by apply inv_order|].
    intros item Hin. rewrite length_insert. by apply queued_lt.
Qed.

(** X15.  The promise of a call follows its own initiate.  In every run
    from the empty limiter, the promise returned by the [k]-th call of
    [queueFileInitiate] has settled with [result] exactly if the promise of
    the [initiateFn] of that call has settled with [result]: it is
    fulfilled when the initiate succeeds and rejected with the same error
    when it fails, whatever happens to the other calls. *)
Theorem X15_promise_follows_initiate (es : list (Event R)) st k result :
  steps es initial = Some st →
  calls st !! k = Some (Done result) ↔ Settles k result ∈ es.
Proof.
  intros Hrun.
  rewrite (steps_done es initial st k result limiter_initial_Inv Hrun).
  split; [by intros [?|?] | by right].
Qed.

(** X16.  The limiter strands nobody.  After a run without
    [resetCoordinator]: while a promise is pending some initiate is
    running, and once the running initiates settle, one after the other,
    every call has settled, [activeInitiates] is empty and so is the
    queue. *)
Theorem X16_initiates_complete (es : list (Event R)) st :
  reset_free es → steps es initial = Some st →
  (unsettled st ≠ 0 → ∃ k id direct, calls st !! k = Some (Running id direct))
  ∧ ∃ es' st', Forall (λ e, is_settles e = true) es'
      ∧ steps (es ++ es') initial = Some st'
      ∧ (∀ k c, calls st' !! k = Some c → ∃ result, c = Done result)
      ∧ activeInitiates st' = ∅ ∧ initiateQueue st' = [].
Proof.
  intros Hfree Hrun.
  pose proof (limiter_steps_Inv es _ _ limiter_initial_Inv Hrun) as HI.
  assert (Complete st) as HC
    by by apply (steps_Complete es initial st Hfree limiter_initial_Inv).
  split; [by apply somebody_runs|].
  destruct (can_finish _ st (le_n _) HI HC) as (es' & st' & Hes & Hrest & Hend).
  pose proof (limiter_steps_Inv es' _ _ HI Hrest) as HI'.
  destruct (settled_empty st' HI' Hend) as (Hactive & Hqueue & Hall).
  exists es', st'. split; [done|].
  by rewrite (limiter_steps_app es es' initial st Hrun).
Qed.

(** X17.  [resetCoordinator] strands the calls that wait.  A call that is
    in the queue when [resetCoordinator] runs is dropped with its [resolve]
    and [reject]: whatever happens afterwards, its [initiateFn] is never
    called and its promise never settles. *)
Theorem X17_reset_strands_waiting_calls (es es' : list (Event R)) st st' k :
  steps es initial = Some st →
  calls st !! k = Some Queued →
  steps (ResetCoordinator :: es') st = Some st' →
  calls st' !! k = Some Queued.
Proof.
  intros Hrun Hk. simpl. intros Hrest.
  pose proof (limiter_steps_Inv es _ _ limiter_initial_Inv Hrun) as HI.
  apply (steps_stranded es' (resetCoordinator st) st' k); [|done|done|].
  - by apply (limiter_step_Inv ResetCoordinator st).
  - simpl. apply not_elem_of_nil.
Qed.

End Proofs.

Lemma twelve_fresh : all_fresh twelve initial.
Proof. apply (bool_decide_unpack _). by vm_compute. Qed.

Lemma twelve_reset_free : reset_free twelve.
Proof. unfold twelve. simpl. repeat constructor. Qed.

Lemma X13_at_most_ten_initiates_witness :
  ∃ st, steps twelve initial = Some st ∧ length (running st) ≤ 10.
Proof.
  destruct (steps twelve initial) as [st|] eqn:Hrun; [|by vm_compute in Hrun].
  exists st. split; [reflexivity|].
  destruct (X13_at_most_ten_initiates twelve st Hrun) as [_ Hten].
  by destruct (Hten twelve_reset_free twelve_fresh) as (_ & _ & Hlen).
Defined.

Lemma X14_initiates_start_in_call_order_witness :
  ∃ st, steps twelve initial = Some st ∧ in_call_order (initiateQueue st).
Proof.
  destruct (steps twelve initial) as [st|] eqn:Hrun; [|by vm_compute in Hrun].
  exists st. split; [reflexivity|].
  by destruct (X14_initiates_start_in_call_order twelve st Hrun) as (_ & Hord & _).
Defined.

Lemma X15_promise_follows_initiate_witness :
  ∃ st, steps (twelve ++ twelve_settle) initial = Some st
        ∧ calls st !! 2 = Some (Done (Rejected "initiate failed")).
Proof.
  destruct (steps (twelve ++ twelve_settle) initial) as [st|] eqn:Hrun;
    [|by vm_compute in Hrun].
  exists st. split; [reflexivity|].
  apply (X15_promise_follows_initiate (twelve ++ twelve_settle) st 2
           (Rejected "initiate failed") Hrun).
  apply elem_of_app. right. by left.
Defined.

Lemma X16_initiates_complete_witness :
  ∃ es' st', steps (twelve ++ es') initial = Some st'
             ∧ activeInitiates st' = ∅ ∧ initiateQueue st' = [].
Proof.
  destruct (steps twelve initial) as [st|] eqn:Hrun; [|by vm_compute in Hrun].
  destruct (X16_initiates_complete twelve st twelve_reset_free Hrun)
    as (_ & es' & st' & _ & Hrest & _ & Hactive & Hqueue).
  exists es', st'. split; [exact Hrest|]. split; [exact Hactive | exact Hqueue].
Defined.

Lemma X17_reset_strands_waiting_calls_witness :
  ∃ st', steps (twelve ++ ResetCoordinator :: settle_two) initial = Some st'
         ∧ calls st' !! 10 = Some Queued.
Proof.
  destruct (steps twelve initial) as [st|] eqn:Hrun; [|by vm_compute in Hrun].
  destruct (steps (ResetCoordinator :: settle_two) st) as [st'|] eqn:Hrest.
  - exists st'. split.
    + rewrite (limiter_steps_app twelve _ initial st Hrun). exact Hrest.
    + apply (X17_reset_strands_waiting_calls twelve settle_two st st' 10 Hrun);
        [|exact Hrest].
      vm_compute in Hrun. injection Hrun as <-. by vm_compute.
  - vm_compute in Hrun. injection Hrun as <-. by vm_compute in Hrest.
Defined.

End InitiatesProps.

(** * Further properties of the driver *)

Module DriverExtras.
Import Promise Driver DriverProps.

Section Proofs.
Context {T R : Type}.
Implicit Types (st : State T R) (gen : list (Settled T R)).
Implicit Types (e : Event) (C : Z).

(** The driver is suspended in [Promise.race] only with a full house. *)
Lemma step_full_house C e st st' :
  (pc st = AwaitRace → (C ≤ Z.of_nat (size (executing st)))%Z) →
  step C e st = Some st' →
  pc st' = AwaitRace → (C ≤ Z.of_nat (size (executing st')))%Z.
Proof.
  intros Hfull Hstep. apply step_Step in Hstep.
  destruct Hstep as [rs ex sd|rs ex promise rest sd|rs ex g sd p i promise Hi
                    |rs ex g sd p i w Hi|rs sd g]; simpl in *; try done.
  - destruct (C <=? _)%Z eqn:Hle; [|done]. intros _. by apply Z.leb_le.
  - intros Hp. specialize (Hfull Hp).
    rewrite map_size_insert_Some; [done|by eexists].
  - destruct p, w; simpl; done.
Qed.

Lemma steps_full_house C es : ∀ st st',
  (pc st = AwaitRace → (C ≤ Z.of_nat (size (executing st)))%Z) →
  steps C es st = Some st' →
  pc st' = AwaitRace → (C ≤ Z.of_nat (size (executing st')))%Z.
Proof.
  induction es as [|e es IH]; intros st st' Hfull; simpl; [by intros [= <-]|].
  destruct (step C e st) as [st1|] eqn:Hstep; [|done].
  apply IH. by eapply step_full_house.
Qed.

(** X18.  The driver pulls exactly when a slot is free.  At every point of
    every run: while the driver is suspended in [Promise.race] at least
    [C] workers are in [executing]; while it is in its loop fewer than
    [max C 1] are; and as long as the generator has promises left the
    driver is in one of these two places, so no slot stays empty while
    there is work, and no promise is asked for while there is no slot. *)
Theorem X18_driver_pulls_when_a_slot_is_free C gen (es : list Event) st :
  processConcurrently gen C es = Some st →
  (pc st = AwaitRace → (C ≤ Z.of_nat (size (executing st)))%Z)
  ∧ (pc st = Looping → (Z.of_nat (size (executing st)) < Z.max C 1)%Z)
  ∧ (generator st ≠ [] → pc st = Looping ∨ pc st = AwaitRace).
Proof.
  intros Hrun. pose proof (reachable_Inv _ _ _ _ Hrun) as HI.
  pose proof (inv_pc _ _ _ HI) as Hpc. unfold pc_ok in Hpc.
  split; [|split].
  - by apply (steps_full_house C es (initial gen) st).
  - intros Hp. by rewrite Hp in Hpc.
  - intros Hgen. destruct (pc st); try done; [by left|by right|by destruct Hpc].
Qed.

End Proofs.

Lemma X18_driver_pulls_when_a_slot_is_free_witness :
  ∃ st, processConcurrently three_ops 2 [Pull; Pull] = Some st
        ∧ (2 ≤ Z.of_nat (size (executing st)))%Z.
Proof.
  destruct (processConcurrently three_ops 2 [Pull; Pull]) as [st|] eqn:Hrun;
    [|by vm_compute in Hrun].
  exists st. split; [reflexivity|].
  destruct (X18_driver_pulls_when_a_slot_is_free 2 three_ops _ st Hrun)
    as (Hfull & _).
  apply Hfull. vm_compute in Hrun. by injection Hrun as <-.
Defined.

End DriverExtras.

(** * Properties of the demo *)

Module DemoProps.
Import Promise Gatekeeper GatekeeperProps Demo.

Section Proofs.
Context {Timing : Type}.
Implicit Types (file f : FileItem Timing).
Implicit Types (files uploads tempActive prevQueue : list (FileItem Timing)).

(** *** Megabytes and bytes *)

Lemma large_bytes (mb : Z) :
  (Gatekeeper.SMALL_FILE_THRESHOLD <? mb * 1024 * 1024)%Z
  = (Demo.SMALL_FILE_THRESHOLD <? mb)%Z.
Proof.
  unfold Gatekeeper.SMALL_FILE_THRESHOLD, Demo.SMALL_FILE_THRESHOLD.
  destruct (Z.ltb_spec (65 * 1024 * 1024) (mb * 1024 * 1024)),
    (Z.ltb_spec 65 mb); try done; lia.
Qed.

Lemma scanSizes_someLarge files :
  scanSizes ((λ f, size f * 1024 * 1024)%Z <$> files)
  = if someLarge files then Demo.MAX_CONCURRENT_LARGE
    else Demo.MAX_CONCURRENT_SMALL.
Proof.
  induction files as [|f files IH]; simpl; [done|].
  rewrite large_bytes. by destruct (Demo.SMALL_FILE_THRESHOLD <? size f)%Z.
Qed.

Lemma activeMap_keys files :
  ((λ f, (id f, size f * 1024 * 1024)%Z) <$> files).*1 = id <$> files.
Proof. by rewrite <-list_fmap_compose. Qed.

Lemma activeMap_size files :
  NoDup (id <$> files) → base.size (activeMap files) = length files.
Proof.
  intros Hnodup. unfold activeMap.
  rewrite map_size_list_to_map by by rewrite activeMap_keys.
  by rewrite length_fmap.
Qed.

Lemma activeMap_capacity files :
  NoDup (id <$> files) →
  getMaxConcurrentSlots (activeMap files)
  = if someLarge files then Demo.MAX_CONCURRENT_LARGE
    else Demo.MAX_CONCURRENT_SMALL.
Proof.
  intros Hnodup. rewrite <-scanSizes_someLarge. symmetry.
  apply capacity_any_order. unfold activeMap.
  rewrite map_to_list_to_map by by rewrite activeMap_keys.
  by rewrite <-list_fmap_compose.
Qed.

Lemma activeMap_snoc files f :
  id f ∉ id <$> files →
  activeMap (files ++ [f])
  = <[id f := (size f * 1024 * 1024)%Z]> (activeMap files).
Proof.
  intros Hnew. unfold activeMap. rewrite fmap_app. simpl.
  apply list_to_map_snoc. by rewrite activeMap_keys.
Qed.

Lemma someLarge_app files1 files2 :
  someLarge (files1 ++ files2) = someLarge files1 || someLarge files2.
Proof. apply existsb_app. Qed.

(** *** The picture of the triggers *)

(** X19.  [mapToVisualTriggers].  Outside the simulation the triggers are
    returned as they are, however many.  In the simulation the argument
    [uploadTriggers] is ignored; at most 10 triggers are shown: the active
    uploads first, marked as uploading, then the waiting files, marked as
    waiting at the gatekeeper, each in its order and otherwise unchanged;
    what does not fit in the first 10 is dropped from the end. *)
Theorem X19_visual_triggers (mode : DemoMode)
    (uploadTriggers activeUploads uploadQueue : list (FileItem Timing)) :
  let shown := mapToVisualTriggers mode uploadTriggers activeUploads uploadQueue in
  (mode = Real → shown = uploadTriggers)
  ∧ (mode = Simulation →
     length shown = min 10 (length activeUploads + length uploadQueue)
     ∧ (∀ i f, shown !! i = Some f →
          ∃ f0, (activeUploads ++ uploadQueue) !! i = Some f0
                ∧ id f = id f0 ∧ size f = size f0 ∧ key f = key f0
                ∧ timing f = timing f0
                ∧ triggerState f
                  = Some (if decide (i < length activeUploads) then Uploading
                          else WaitingAtGatekeeper))
     ∧ (∀ i f0, i < 10 → (activeUploads ++ uploadQueue) !! i = Some f0 →
          is_Some (shown !! i))).
Proof.
  intros shown. split; [by intros ->|]. intros ->. subst shown. simpl.
  unfold MAX_CONCURRENT_UPLOAD_TRIGGERS. split; [|split].
  - by rewrite length_take, length_app, !length_fmap.
  - intros i f. rewrite lookup_take_Some. intros [Hi Hlt].
    destruct (decide (i < length activeUploads)) as [Hin|Hout].
    + rewrite lookup_app_l in Hi by by rewrite length_fmap.
      rewrite list_lookup_fmap in Hi.
      destruct (activeUploads !! i) as [f0|] eqn:Hf0; [|done].
      injection Hi as <-. exists f0. by rewrite lookup_app_l, Hf0.
    + rewrite lookup_app_r in Hi by (rewrite length_fmap; lia).
      rewrite length_fmap, list_lookup_fmap in Hi.
      destruct (uploadQueue !! (i - length activeUploads)) as [f0|] eqn:Hf0;
        [|done].
      injection Hi as <-. exists f0. by rewrite lookup_app_r, Hf0 by lia.
  - intros i f0 Hlt Hi. apply lookup_lt_is_Some.
    apply lookup_lt_Some in Hi. rewrite length_app in Hi.
    rewrite length_take, length_app, !length_fmap. lia.
Qed.

(** *** The demo and the coordinator on the size of a file *)

(** X20.  [runRealUpload] hands the files to the coordinator with the same
    ids in the same order and with sizes in bytes, and a file is large for
    the coordinator exactly if its size in megabytes is above the threshold
    of the demo.  So for uploads with distinct ids the limit of the
    coordinator is the limit the demo displays: 3 if one of them is above
    65 MB, otherwise 5. *)
Theorem X20_size_class_survives_conversion files :
  fileId <$> coordinatorFiles files = id <$> files
  ∧ (∀ f, large (fileSize (coordinatorFile f))
          ↔ (Demo.SMALL_FILE_THRESHOLD < size f)%Z)
  ∧ (NoDup (id <$> files) →
     base.size (activeMap files) = length files
     ∧ getMaxConcurrentSlots (activeMap files)
       = if someLarge files then Demo.MAX_CONCURRENT_LARGE
         else Demo.MAX_CONCURRENT_SMALL).
Proof.
  split; [|split].
  - unfold coordinatorFiles. by rewrite <-list_fmap_compose.
  - intros f. unfold large, coordinatorFile. simpl.
    unfold Gatekeeper.SMALL_FILE_THRESHOLD, Demo.SMALL_FILE_THRESHOLD. lia.
  - intros Hnodup. split; [by apply activeMap_size | by apply activeMap_capacity].
Qed.

(** *** The simulation and the coordinator on a newcomer *)

(** X21.  The simulation is stricter than the coordinator when a file
    arrives.  With the same uploads active (distinct ids), a file that the
    simulation starts at once is granted its slot at once by
    [acquireUploadSlot]; the two differ exactly for a large file arriving
    while 3 or 4 small files are uploading: the coordinator grants the
    slot, the simulation does not. *)
Theorem X21_simulation_is_stricter_on_arrival uploads file
    (q : list QueueItem) :
  NoDup (id <$> uploads) →
  let granted :=
    (acquireUploadSlot (id file) (size file * 1024 * 1024)
       (mkState (activeMap uploads) q)).2 in
  (startsAtOnce uploads file = true → granted = true)
  ∧ (granted = true ∧ startsAtOnce uploads file = false
     ↔ (Demo.SMALL_FILE_THRESHOLD < size file)%Z ∧ someLarge uploads = false
       ∧ 3 ≤ length uploads < 5).
Proof.
  intros Hnodup granted. subst granted. unfold acquireUploadSlot, startsAtOnce.
  simpl. rewrite activeMap_size, activeMap_capacity by done.
  unfold Demo.MAX_CONCURRENT_LARGE, Demo.MAX_CONCURRENT_SMALL.
  destruct (someLarge uploads); simpl;
    destruct (Z.ltb_spec Demo.SMALL_FILE_THRESHOLD (size file));
    destruct (Nat.ltb_spec (length uploads) 3);
    destruct (Nat.ltb_spec (length uploads) 5); simpl;
    (split; [try done; lia|]);
    (split; [intros [? ?]; try done; lia | intros (? & ? & ?); try done; lia]).
Qed.

(** *** The queue loop of the simulation *)

Lemma toStartLoop_prefix prevQueue : ∀ tempActive,
  toStartLoop tempActive prevQueue `prefix_of` prevQueue.
Proof.
  induction prevQueue as [|f rest IH]; intros tempActive; simpl; [done|].
  destruct (_ <=? _); [apply prefix_nil | apply prefix_cons, IH].
Qed.

(** Each file is started below the limit computed with the files started
    before it in the list. *)
Lemma toStartLoop_recomputes prevQueue : ∀ tempActive n,
  n < length (toStartLoop tempActive prevQueue) →
  length tempActive + n
  < (if someLarge (tempActive ++ take n (toStartLoop tempActive prevQueue))
     then Demo.MAX_CONCURRENT_LARGE else Demo.MAX_CONCURRENT_SMALL).
Proof.
  induction prevQueue as [|f rest IH]; intros tempActive n; simpl; [lia|].
  destruct (Nat.leb_spec
              (if someLarge tempActive then Demo.MAX_CONCURRENT_LARGE
               else Demo.MAX_CONCURRENT_SMALL) (length tempActive))
    as [Hfull|Hroom]; simpl; [lia|].
  destruct n as [|n]; simpl.
  - intros _. rewrite app_nil_r. lia.
  - intros Hn. specialize (IH (tempActive ++ [f]) n ltac:(lia)).
    rewrite length_app in IH. simpl in IH.
    rewrite <-app_assoc in IH. simpl in IH. lia.
Qed.

(** The loop stops only at the end of the queue or at the limit. *)
Lemma toStartLoop_maximal prevQueue : ∀ tempActive,
  let toStart := toStartLoop tempActive prevQueue in
  toStart = prevQueue
  ∨ (if someLarge (tempActive ++ toStart) then Demo.MAX_CONCURRENT_LARGE
     else Demo.MAX_CONCURRENT_SMALL) ≤ length (tempActive ++ toStart).
Proof.
  induction prevQueue as [|f rest IH]; intros tempActive; simpl; [by left|].
  destruct (Nat.leb_spec
              (if someLarge tempActive then Demo.MAX_CONCURRENT_LARGE
               else Demo.MAX_CONCURRENT_SMALL) (length tempActive))
    as [Hfull|Hroom]; simpl.
  - right. by rewrite app_nil_r.
  - destruct (IH (tempActive ++ [f])) as [Heq|Hstop].
    + left. by rewrite Heq.
    + right. by rewrite <-app_assoc in Hstop.
Qed.

(** The drain of the coordinator starts at least the files that the loop
    of the simulation starts. *)
Lemma toStartLoop_processQueueLoop prevQueue : ∀ tempActive maxSlots,
  NoDup (id <$> (tempActive ++ prevQueue)) →
  (if someLarge tempActive then Demo.MAX_CONCURRENT_LARGE
   else Demo.MAX_CONCURRENT_SMALL) ≤ maxSlots →
  coordinatorFiles (toStartLoop tempActive prevQueue)
  `prefix_of` (processQueueLoop maxSlots (activeMap tempActive)
                 (coordinatorFiles prevQueue)).2.
Proof.
  induction prevQueue as [|f rest IH]; intros tempActive maxSlots Hnodup Hmax;
    simpl; [done|].
  assert (NoDup (id <$> tempActive)) as Hactive.
  { rewrite fmap_app in Hnodup. by apply NoDup_app in Hnodup as [? _]. }
  destruct (Nat.leb_spec
              (if someLarge tempActive then Demo.MAX_CONCURRENT_LARGE
               else Demo.MAX_CONCURRENT_SMALL) (length tempActive))
    as [Hfull|Hroom]; simpl; [apply prefix_nil|].
  rewrite activeMap_size by done.
  destruct (Nat.ltb_spec (length tempActive) maxSlots) as [_|?]; [|lia].
  assert (id f ∉ id <$> tempActive) as Hnew.
  { rewrite fmap_app in Hnodup. apply NoDup_app in Hnodup as (_ & Hdisj & _).
    intros Hin. apply (Hdisj _ Hin). simpl. by left. }
  rewrite <-activeMap_snoc by done.
  specialize (IH (tempActive ++ [f]) maxSlots).
  destruct (processQueueLoop maxSlots (activeMap (tempActive ++ [f]))
              (coordinatorFiles rest)) as [[active' q'] resumed]. simpl in *.
  apply prefix_cons, IH.
  - by rewrite <-app_assoc.
  - rewrite someLarge_app. destruct (someLarge tempActive); simpl; [done|].
    unfold Demo.MAX_CONCURRENT_LARGE, Demo.MAX_CONCURRENT_SMALL in *.
    destruct (_ || _); lia.
Qed.

(** X22.  The queue loop of the simulation recomputes the limit; the drain
    of the coordinator does not.  From the same active uploads and the
    same queue (distinct ids), the simulation starts a prefix of the queue
    in which every file is started below the limit of the uploads active
    by then, the started ones included, and it stops only at the end of the
    queue or at that limit; it never takes the uploads above 5.  A file at
    the head is started whenever the active uploads are below their limit,
    whatever its own size.  [processQueue] over the same state starts all
    these files, and possibly more. *)
Theorem X22_simulation_queue_loop uploads prevQueue :
  NoDup (id <$> (uploads ++ prevQueue)) →
  let toStart := toStartLoop uploads prevQueue in
  let limit (active : list (FileItem Timing)) :=
    if someLarge active then 3 else 5 in
  toStart `prefix_of` prevQueue
  ∧ (∀ n, n < length toStart →
       length (uploads ++ take n toStart) < limit (uploads ++ take n toStart))
  ∧ (toStart = prevQueue
     ∨ limit (uploads ++ toStart) ≤ length (uploads ++ toStart))
  ∧ (toStart ≠ [] → length (uploads ++ toStart) ≤ 5)
  ∧ (∀ f rest, prevQueue = f :: rest → length uploads < limit uploads →
       ∃ more, toStart = f :: more)
  ∧ coordinatorFiles toStart
    `prefix_of` (processQueue (mkState (activeMap uploads)
                                 (coordinatorFiles prevQueue))).2.
Proof.
  intros Hnodup toStart limit.
  assert (∀ n, n < length toStart →
            length (uploads ++ take n toStart)
            < limit (uploads ++ take n toStart)) as Hrecomputes.
  { intros n Hn. pose proof (toStartLoop_recomputes prevQueue uploads n Hn) as Hlt.
    rewrite length_app, length_take_le by (fold toStart; lia). exact Hlt. }
  split; [apply toStartLoop_prefix|]. split; [exact Hrecomputes|].
  split; [apply toStartLoop_maximal|]. split; [|split].
  - intros Hne. destruct (length toStart) as [|n] eqn:Hlen.
    { by destruct toStart. }
    specialize (Hrecomputes n ltac:(lia)).
    rewrite length_app, length_take_le in Hrecomputes by lia.
    rewrite length_app, Hlen. subst limit. simpl in Hrecomputes.
    destruct (someLarge _); lia.
  - intros f rest -> Hroom. subst toStart limit. simpl in *.
    unfold Demo.MAX_CONCURRENT_LARGE, Demo.MAX_CONCURRENT_SMALL.
    destruct (Nat.leb_spec (if someLarge uploads then 3 else 5) (length uploads));
      [lia|]. by eexists.
  - rewrite processQueue_loop. simpl.
    pose proof (toStartLoop_processQueueLoop prevQueue uploads
                  (getMaxConcurrentSlots (activeMap uploads)) Hnodup) as Hprefix.
    destruct (processQueueLoop _ _ _) as [[active' q'] resumed]. simpl in *.
    apply Hprefix. rewrite activeMap_capacity; [done|].
    rewrite fmap_app in Hnodup. by apply NoDup_app in Hnodup as [? _].
Qed.

End Proofs.

Lemma X19_visual_triggers_witness :
  length (mapToVisualTriggers Simulation [] three_small nine_waiting) = 10.
Proof.
  destruct (X19_visual_triggers Simulation [] three_small nine_waiting)
    as [_ Hsim].
  by destruct (Hsim eq_refl) as [Hlen _].
Defined.

Lemma X20_size_class_survives_conversion_witness :
  getMaxConcurrentSlots (activeMap (three_small ++ [demo_large "File4"])) = 3.
Proof.
  destruct (X20_size_class_survives_conversion
              (three_small ++ [demo_large "File4"])) as (_ & _ & Hlimit).
  apply Hlimit. apply (bool_decide_unpack _). by vm_compute.
Defined.

Lemma X21_simulation_is_stricter_on_arrival_witness :
  (acquireUploadSlot "File4" (100 * 1024 * 1024)
     (mkState (activeMap three_small) [])).2 = true
  ∧ startsAtOnce three_small (demo_large "File4") = false.
Proof.
  assert (NoDup (id <$> three_small)) as Hnodup
    by (apply (bool_decide_unpack _); by vm_compute).
  destruct (X21_simulation_is_stricter_on_arrival three_small
              (demo_large "File4") [] Hnodup) as [_ Hdiffer].
  apply Hdiffer. vm_compute. repeat split; try done; lia.
Defined.

Lemma X22_simulation_queue_loop_witness :
  coordinatorFiles (toStartLoop three_small large_then_small)
  `prefix_of` (processQueue (mkState (activeMap three_small)
                               (coordinatorFiles large_then_small))).2
  ∧ length (toStartLoop three_small large_then_small) = 1
  ∧ length (processQueue (mkState (activeMap three_small)
                            (coordinatorFiles large_then_small))).2 = 2.
Proof.
  assert (NoDup (id <$> (three_small ++ large_then_small))) as Hnodup
    by (apply (bool_decide_unpack _); by vm_compute).
  destruct (X22_simulation_queue_loop three_small large_then_small Hnodup)
    as (_ & _ & _ & _ & _ & Hprefix).
  split; [exact Hprefix|]. split; by vm_compute.
Defined.

End DemoProps.
